(** * rx-player: buffer scheduler, timings sampler, ABR manager and
      segment timeline index

    A shallow embedding of the parts of the player that its specification
    talks about, followed by the properties proved about them.

    JavaScript numbers are IEEE doubles.  They are idealised here as exact
    rationals extended with [NaN], [+Infinity] and [-Infinity]: rounding and
    the sign of zero are not modelled, everything else (absorbing [NaN],
    [Infinity - Infinity], division by zero, comparisons that are false on
    [NaN]) follows the language. *)

From Stdlib Require Import QArith Qround ZArith List String Ascii Bool Lia Lqa Sorted.
From Stdlib Require Import DecimalString DecimalZ DecimalPos.
From stdpp Require Import base option gmap strings.
From Equations Require Import Equations.
Import ListNotations.

Local Open Scope Z_scope.

(* ================================================================== *)
(** * JavaScript numbers                                               *)
(* ================================================================== *)

Module Num.

Inductive num : Type :=
| NaN
| NInf
| Fin (q : Q)
| PInf.

Definition Qltb (x y : Q) : bool := negb (Qle_bool y x).

Definition of_Z (z : Z) : num := Fin (inject_Z z).

(** the integer a number is, for printing literals *)
Definition to_Z (n : num) : option Z :=
  match n with
  | Fin (Qmake z 1) => Some z
  | _ => None
  end.

(** unary minus *)
Definition neg (a : num) : num :=
  match a with
  | NaN => NaN
  | NInf => PInf
  | Fin q => Fin (- q)
  | PInf => NInf
  end.

(** [a + b] *)
Definition add (a b : num) : num :=
  match a, b with
  | NaN, _ | _, NaN => NaN
  | PInf, NInf | NInf, PInf => NaN
  | PInf, _ | _, PInf => PInf
  | NInf, _ | _, NInf => NInf
  | Fin x, Fin y => Fin (x + y)
  end.

(** [a - b] *)
Definition sub (a b : num) : num := add a (neg b).

(** sign of an infinite product or quotient *)
Definition signed_inf (positive : bool) : num :=
  if positive then PInf else NInf.

(** [a * b] *)
Definition mul (a b : num) : num :=
  match a, b with
  | NaN, _ | _, NaN => NaN
  | Fin x, Fin y => Fin (x * y)
  | Fin x, PInf | PInf, Fin x =>
      match Qcompare x 0 with
      | Eq => NaN
      | Gt => PInf
      | Lt => NInf
      end
  | Fin x, NInf | NInf, Fin x =>
      match Qcompare x 0 with
      | Eq => NaN
      | Gt => NInf
      | Lt => PInf
      end
  | PInf, PInf | NInf, NInf => PInf
  | PInf, NInf | NInf, PInf => NInf
  end.

(** [a / b]; a zero divisor counts as [+0] *)
Definition div (a b : num) : num :=
  match a, b with
  | NaN, _ | _, NaN => NaN
  | Fin x, Fin y =>
      if Qeq_bool y 0 then
        match Qcompare x 0 with
        | Eq => NaN
        | Gt => PInf
        | Lt => NInf
        end
      else Fin (x / y)
  | Fin _, PInf | Fin _, NInf => Fin 0
  | PInf, Fin y => signed_inf (Qle_bool 0 y)
  | NInf, Fin y => signed_inf (negb (Qle_bool 0 y))
  | _, _ => NaN
  end.

(** [a < b] *)
Definition ltb (a b : num) : bool :=
  match a, b with
  | NaN, _ | _, NaN => false
  | _, NInf => false
  | NInf, _ => true
  | PInf, _ => false
  | Fin _, PInf => true
  | Fin x, Fin y => Qltb x y
  end.

(** [a <= b] *)
Definition leb (a b : num) : bool :=
  match a, b with
  | NaN, _ | _, NaN => false
  | NInf, _ => true
  | _, PInf => true
  | _, NInf => false
  | PInf, _ => false
  | Fin x, Fin y => Qle_bool x y
  end.

(** [a > b] and [a >= b] *)
Definition gtb (a b : num) : bool := ltb b a.
Definition geb (a b : num) : bool := leb b a.

(** [a === b] on numbers *)
Definition eqb (a b : num) : bool :=
  match a, b with
  | NInf, NInf | PInf, PInf => true
  | Fin x, Fin y => Qeq_bool x y
  | _, _ => false
  end.

(** [Math.floor] and [Math.ceil] *)
Definition floor (a : num) : num :=
  match a with
  | Fin q => of_Z (Qfloor q)
  | _ => a
  end.

Definition ceil (a : num) : num :=
  match a with
  | Fin q => of_Z (Qceiling q)
  | _ => a
  end.

(** [Math.min(a, b)] and [Math.max(a, b)]: [NaN] is absorbing *)
Definition min (a b : num) : num :=
  match a, b with
  | NaN, _ | _, NaN => NaN
  | _, _ => if leb a b then a else b
  end.

Definition max (a b : num) : num :=
  match a, b with
  | NaN, _ | _, NaN => NaN
  | _, _ => if leb a b then b else a
  end.

(** [ToBoolean]: [0] and [NaN] are falsy *)
Definition truthy (a : num) : bool :=
  match a with
  | NaN => false
  | Fin q => negb (Qeq_bool q 0)
  | _ => true
  end.

(** [a || b] on numbers *)
Definition or_else (a b : num) : num := if truthy a then a else b.

(** numeric equality of two numbers as a proposition: what [===] decides *)
Definition same (a b : num) : Prop := eqb a b = true.

End Num.

Import Num.

Declare Scope num_scope.
Delimit Scope num_scope with num.
Number Notation num of_Z to_Z : num_scope.
Notation "a + b" := (add a b) : num_scope.
Notation "a - b" := (sub a b) : num_scope.
Notation "a * b" := (mul a b) : num_scope.
Notation "a / b" := (div a b) : num_scope.
Notation "a <? b" := (ltb a b) : num_scope.
Notation "a <=? b" := (leb a b) : num_scope.
Notation "a >? b" := (gtb a b) : num_scope.
Notation "a >=? b" := (geb a b) : num_scope.
Notation "a =? b" := (eqb a b) : num_scope.

(* ================================================================== *)
(** * Buffered ranges (core/ranges)                                    *)
(* ================================================================== *)

Module Ranges.

(** A buffered range; [bitrate] tags the quality it was loaded at.  The
    plain [{ start, end }] objects handed to the source buffer have none. *)
Record Range : Type := mkRange {
  start : num;
  end_ : num;
  bitrate : option num;
}.

(** The ranges object: an array of ranges. *)
Definition BufferedRanges : Type := list Range.

(** Modelled from the spec: the class BufferedRanges lives in
    [core/ranges], which is missing.  A range is the
    half-open interval [[start, end)]. *)
Definition isPointInRange (r : Range) (point : num) : bool :=
  (start r <=? point)%num && (point <? end_ r)%num.

(** Modelled from the spec: [getRange(t)] is the interval containing [t],
    if any. *)
Definition getRange (buffered : BufferedRanges) (t : num) : option Range :=
  List.find (fun r => isPointInRange r t) buffered.

(** Modelled from the spec: [getOuterRanges(t)] are the intervals that do
    not contain [t]. *)
Definition getOuterRanges (buffered : BufferedRanges) (t : num) : list Range :=
  List.filter (fun r => negb (isPointInRange r t)) buffered.

(** Modelled from the spec: [getGap(t)] is the distance from [t] to the end
    of the interval containing it, [Infinity] outside of every interval. *)
Definition getGap (buffered : BufferedRanges) (t : num) : num :=
  match getRange buffered t with
  | Some r => (end_ r - t)%num
  | None => PInf
  end.

End Ranges.

(* ================================================================== *)
(** * The type buffer (core/buffer): garbage collection and the
      injection window                                                 *)
(* ================================================================== *)

Module Buffer.
Import Ranges.

Definition GC_GAP_CALM : num := 240%num.
Definition GC_GAP_BEEFY : num := 30%num.

(** A timing tick as the buffer reads it. [duration] may be missing. *)
Record Timing : Type := mkTiming {
  ts : num;
  buffered : BufferedRanges;
  duration : option num;
  liveGap : num;
  readyState : num;
}.

(** A range to remove from the source buffer: [{ start, end }] objects that
    are either a buffered range itself or a fresh sub-interval. *)
Definition cleaned (s e : num) : Range :=
  {| start := s; end_ := e; bitrate := None |}.

(** The [for] loop over the outer ranges. *)
Fixpoint selectOuter (ts gcGap : num) (outerRanges : list Range) : list Range :=
  match outerRanges with
  | [] => []
  | outerRange :: rest =>
      if (ts - gcGap <? end_ outerRange)%num then
        outerRange :: selectOuter ts gcGap rest
      else if (ts + gcGap >? start outerRange)%num then
        outerRange :: selectOuter ts gcGap rest
      else selectOuter ts gcGap rest
  end.

(** The two pushes guarded by [if (innerRange)]. *)
Definition selectInner (ts gcGap : num) (innerRange : option Range) : list Range :=
  match innerRange with
  | None => []
  | Some inner =>
      (if (ts - gcGap >? start inner)%num
       then [cleaned (start inner) (ts - gcGap)%num] else [])
      ++
      (if (ts + gcGap <? end_ inner)%num
       then [cleaned (ts + gcGap)%num (end_ inner)] else [])
  end.

Definition selectGCedRanges (timing : Timing) (gcGap : num) : list Range :=
  let innerRange := getRange (buffered timing) (ts timing) in
  let outerRanges := getOuterRanges (buffered timing) (ts timing) in
  selectOuter (ts timing) gcGap outerRanges
  ++ selectInner (ts timing) gcGap innerRange.

(** The ranges [bufferGarbageCollector] hands to [lockedRemoveBuffer]. *)
Definition gcRanges (timing : Timing) : list Range :=
  let cleanedupRanges := selectGCedRanges timing GC_GAP_CALM in
  match cleanedupRanges with
  | [] => selectGCedRanges timing GC_GAP_BEEFY
  | _ => cleanedupRanges
  end.

(** What the specification asks of the selection. *)
Definition spec_outer_marked (ts gap : num) (r : Range) : bool :=
  (end_ r <? ts - gap)%num || (start r >? ts + gap)%num.

Definition spec_selectGCedRanges (timing : Timing) (gap : num) : list Range :=
  List.filter (spec_outer_marked (ts timing) gap)
    (getOuterRanges (buffered timing) (ts timing))
  ++ selectInner (ts timing) gap (getRange (buffered timing) (ts timing)).

(** A buffered range with finite bounds, the start not after the end. *)
Definition wellFormedRange (r : Range) : Prop :=
  exists s e : Q, start r = Fin s /\ end_ r = Fin e /\ (s <= e)%Q.

(** The playback position is at 100 s and one range, [[0, 50)], is
    buffered. *)
Definition gcTiming : Timing :=
  {| ts := 100%num;
     buffered := [{| start := 0%num; end_ := 50%num; bitrate := Some 1000%num |}];
     duration := None;
     liveGap := PInf;
     readyState := 4%num |}.

(** [timing.duration || Infinity] *)
Definition duration_or_infinity (duration : option num) : num :=
  match duration with
  | Some d => or_else d PInf
  | None => PInf
  end.

(** The injection window of [getSegmentsListToInject]: [endDiff] and
    [wantedBufferSize]. *)
Definition endDiff (timing : Timing) : num :=
  let timestamp := ts timing in
  (duration_or_infinity (duration timing) - timestamp)%num.

Definition wantedBufferSize (timing : Timing) (bufferSize : num) : num :=
  Num.max 0%num (Num.min (Num.min bufferSize (liveGap timing)) (endDiff timing)).

(** The water marks of a buffer of type [bufferType]. *)
Definition LOW_WATER_MARK_PAD (bufferType : string) : num :=
  if String.eqb bufferType "video" then 4%num else 1%num.
Definition HIGH_WATER_MARK_PAD (bufferType : string) : num :=
  if String.eqb bufferType "video" then 6%num else 1%num.

(** [timestampPadding], from the gap of the native buffered ranges and from
    the range of our own that holds the timestamp. *)
Definition timestampPadding (bufferType : string) (representationBitrate : num)
  (ranges buffered : BufferedRanges) (timestamp : num) : num :=
  let bufferGap := getGap buffered timestamp in
  let timestampPadding :=
    if (bufferGap >? LOW_WATER_MARK_PAD bufferType)%num && (bufferGap <? PInf)%num
    then Num.min bufferGap (HIGH_WATER_MARK_PAD bufferType)
    else 0%num in
  match getRange ranges timestamp with
  | Some currentRange =>
      if match bitrate currentRange with
         | Some b => (b =? representationBitrate)%num
         | None => false
         end
      then
        let rangeEndGap := floor (end_ currentRange - timestamp)%num in
        if (rangeEndGap >? timestampPadding)%num then rangeEndGap
        else timestampPadding
      else timestampPadding
  | None => timestampPadding
  end.

(** [getSegmentsListToInject], up to the call of [segmentIndex.getSegments]
    (the index handler is missing): the timestamp, padding and size it is
    called with, or [None] when the function returns before, on a
    [readyState] of [0]. *)
Definition injectionWindow (bufferType : string) (representationBitrate : num)
  (ranges buffered : BufferedRanges) (timing : Timing) (bufferSize : num)
  : option (num * num * num) :=
  if (readyState timing =? 0)%num then None
  else
    let timestamp := ts timing in
    Some (timestamp,
          timestampPadding bufferType representationBitrate ranges buffered timestamp,
          wantedBufferSize timing bufferSize).

(** The window as the specification words it:
    [(clock.duration ?? Infinity) - currentTime]. *)
Definition spec_endDiff (timing : Timing) : num :=
  (match duration timing with Some d => d | None => PInf end - ts timing)%num.

Definition spec_wantedSize (timing : Timing) (bufferSize : num) : num :=
  Num.max 0%num
    (Num.min (Num.min bufferSize (liveGap timing)) (spec_endDiff timing)).


(** A tick whose [duration] is [0]: an empty media. *)
Definition zeroDurationTiming : Timing :=
  {| ts := 10%num;
     buffered := [];
     duration := Some 0%num;
     liveGap := PInf;
     readyState := 4%num |}.

End Buffer.

(* ================================================================== *)
(** * Observables over the source buffer                               *)
(* ================================================================== *)

(** The scheduler is single-threaded and event-driven: an observable is
    modelled by what a subscription does.  Running it hands every emitted
    value, in order, to the subscriber's [next] callback, threading the
    state of the world (the source buffer and what was emitted downstream);
    it ends by completing ([None]) or by erroring ([Some err]). *)

Module Rx.

Section Observables.
Context {W E : Type}.

Definition Next (A : Type) : Type := A -> W -> option E * W.
Definition Observable (A : Type) : Type := Next A -> W -> option E * W.

(** [Observable.of(a)] *)
Definition of_ {A} (a : A) : Observable A := fun next w => next a w.

(** [Observable.empty()] *)
Definition empty {A} : Observable A := fun _ w => (None, w).

(** [Observable.throw(err)], also what a [throw] inside an operator does *)
Definition throw {A} (err : E) : Observable A := fun _ w => (Some err, w).

(** [o.map(f)] and [o.mapTo(b)] *)
Definition map {A B} (f : A -> B) (o : Observable A) : Observable B :=
  fun next => o (fun a => next (f a)).

Definition mapTo {A B} (b : B) (o : Observable A) : Observable B :=
  map (fun _ => b) o.

(** [o.flatMap(f)]: every emission of [o] subscribes to [f a]; an error of
    an inner observable errors the whole. *)
Definition flatMap {A B} (f : A -> Observable B) (o : Observable A)
  : Observable B :=
  fun next => o (fun a => f a next).

(** [a.concat(b)] *)
Definition concat {A} (a b : Observable A) : Observable A :=
  fun next w =>
    match a next w with
    | (None, w') => b next w'
    | (Some err, w') => (Some err, w')
    end.

(** [from(list).concatAll()] *)
Fixpoint concatAll {A} (l : list (Observable A)) : Observable A :=
  match l with
  | [] => empty
  | o :: rest => concat o (concatAll rest)
  end.

(** [o.catch(handler)]: errors of [o] are replaced by the observable the
    handler returns; errors of that one are not caught again. *)
Definition catch {A} (o : Observable A) (handler : E -> Observable A)
  : Observable A :=
  fun next w =>
    match o next w with
    | (None, w') => (None, w')
    | (Some err, w') => handler err next w'
    end.

End Observables.

Arguments Observable : clear implicits.
Arguments Next : clear implicits.

End Rx.

Module Scheduler.
Import Ranges Buffer.

(** What the source buffer raises: a DOM exception or error event. *)
Record SinkError : Type := mkSinkError {
  name : string;
  message : string;
}.

(** One event in the life of a buffer: an operation asked of the source
    buffer, or a value emitted by the segments pipeline. *)
Inductive Event (I : Type) : Type :=
| Appended (blob : string)
| Removed (start end_ : num)
| Emitted (infos : I).
Arguments Appended {I} blob.
Arguments Removed {I} start end_.
Arguments Emitted {I} infos.

(** The world: the outcomes the source buffer will give to the operations
    still to come (an exhausted script means success) and the trace so
    far. *)
Record World (I : Type) : Type := mkWorld {
  outcomes : list (option SinkError);
  trace : list (Event I);
}.
Arguments mkWorld {I} outcomes trace.
Arguments outcomes {I} w.
Arguments trace {I} w.

Section Pipeline.
Context {I : Type}.

Definition Obs (A : Type) : Type := Rx.Observable (World I) SinkError A.

(** An operation on the source buffer followed by [first(updateEnd)]: one
    emission on [update], an error when the buffer throws or fires
    [error]. *)
Definition sinkOperation (ev : Event I) : Obs unit :=
  fun next w =>
    let w' tl := mkWorld tl (trace w ++ [ev]) in
    match outcomes w with
    | [] => next tt (w' [])
    | None :: tl => next tt (w' tl)
    | Some err :: tl => (Some err, w' tl)
    end.

Definition lockedAppendBuffer (blob : string) : Obs unit :=
  sinkOperation (Appended blob).

Definition lockedRemoveBuffer (range : Range) : Obs unit :=
  sinkOperation (Removed (start range) (end_ range)).

(** [timings.take(1)] is the tick [timing] current at that moment. *)
Definition bufferGarbageCollector (timing : Timing) : Obs unit :=
  Rx.flatMap
    (fun timing =>
       Rx.concatAll (List.map lockedRemoveBuffer (gcRanges timing)))
    (Rx.of_ timing).

(** The [concatMap] callback of [segmentsPipeline] that appends a parsed
    segment. *)
Definition appendSegment (timing : Timing) (blob : string) (infos : I)
  : Obs I :=
  Rx.mapTo infos
    (Rx.catch (lockedAppendBuffer blob)
       (fun err =>
          if String.eqb (name err) "QuotaExceededError"
          then Rx.flatMap (fun _ => lockedAppendBuffer blob)
                 (bufferGarbageCollector timing)
          else Rx.throw err)).

(** The downstream subscriber: records what reaches it. *)
Definition subscriber : Rx.Next (World I) SinkError I :=
  fun infos w => (None, mkWorld (outcomes w) (trace w ++ [Emitted infos])).

Definition runAppend (timing : Timing) (blob : string) (infos : I)
  (script : list (option SinkError)) : option SinkError * list (Event I) :=
  let (res, w) := appendSegment timing blob infos subscriber (mkWorld script [])
  in (res, trace w).

(** Number of [appendBuffer] calls and of [remove] calls in a trace. *)
Definition is_append (ev : Event I) : bool :=
  match ev with Appended _ => true | _ => false end.
Definition is_remove (ev : Event I) : bool :=
  match ev with Removed _ _ => true | _ => false end.
Definition appends (tr : list (Event I)) : nat :=
  List.length (List.filter is_append tr).
Definition removes (tr : list (Event I)) : nat :=
  List.length (List.filter is_remove tr).

(** the events of a removal followed by the append tried again *)
Definition collected (blob : string) (infos : I) (r : Range) : list (Event I) :=
  [Removed (start r) (end_ r); Appended blob; Emitted infos].

End Pipeline.


(** The errors of the examples. *)
Definition quotaExceededError : SinkError :=
  {| name := "QuotaExceededError"; message := "The quota has been exceeded." |}.

Definition quotaExceeded : SinkError :=
  {| name := "QuotaExceeded"; message := "The quota has been exceeded." |}.

(** A tick at 100 s inside the only buffered range, [[90, 200)]: the
    collector finds nothing at the calm gap and [[130, 200)] at the beefy
    one. *)
Definition oneRangeTiming : Timing :=
  {| ts := 100%num;
     buffered := [{| start := 90%num; end_ := 200%num; bitrate := Some 1000%num |}];
     duration := None;
     liveGap := PInf;
     readyState := 4%num |}.

(** A tick at 100 s inside the only buffered range, [[90, 120)], which is
    within the beefy gap on both sides: the collector finds nothing. *)
Definition smallRangeTiming : Timing :=
  {| ts := 100%num;
     buffered := [{| start := 90%num; end_ := 120%num; bitrate := Some 1000%num |}];
     duration := None;
     liveGap := PInf;
     readyState := 4%num |}.

(** A tick at 300 s inside [[0, 700)]: the collector cuts [[0, 60)] and
    [[540, 700)] out of it. *)
Definition wideRangeTiming : Timing :=
  {| ts := 300%num;
     buffered := [{| start := 0%num; end_ := 700%num; bitrate := Some 1000%num |}];
     duration := None;
     liveGap := PInf;
     readyState := 4%num |}.


End Scheduler.

(* ================================================================== *)
(** * JavaScript values and plain objects                              *)
(* ================================================================== *)

Module Js.

Inductive value : Type :=
| VUndef
| VBool (b : bool)
| VNum (n : num)
| VStr (s : string).

(** A plain object: its own enumerable properties. *)
Abbreviation obj := (gmap string value).

(** [o.k]: a missing property reads as [undefined] *)
Definition get (o : obj) (k : string) : value := default VUndef (o !! k).

(** [ToNumber] on the values a tick holds.  The only string-valued
    property of a tick is [state], the name of a playback state: strings are
    taken to be non-numeric. *)
Definition to_number (v : value) : num :=
  match v with
  | VUndef => NaN
  | VBool b => if b then 1%num else 0%num
  | VNum n => n
  | VStr _ => NaN
  end.

(** [v == s] for a non-numeric string literal [s] *)
Definition loose_eq_string (v : value) (s : string) : bool :=
  match v with
  | VStr s' => String.eqb s' s
  | _ => false
  end.

(** [v === s] for a string literal [s] *)
Definition strict_eq_string (v : value) (s : string) : bool :=
  match v with
  | VStr s' => String.eqb s' s
  | _ => false
  end.

(** [v === n] for a number [n] *)
Definition strict_eq_num (v : value) (n : num) : bool :=
  match v with
  | VNum m => (m =? n)%num
  | _ => false
  end.

(** [v < n] for a number [n] *)
Definition lt_num (v : value) (n : num) : bool := (to_number v <? n)%num.

(** [objectAssign(target, source)]: the own properties of [source] are
    copied onto [target], overwriting those it already has. *)
Definition objectAssign (target source : obj) : obj := source ∪ target.

End Js.

(* ================================================================== *)
(** * Timings and seekings (core/stream/timings)                       *)
(* ================================================================== *)

Module Timings.
Import Js.

(** The history of a stream that is fed a sequence of input ticks: what
    it emitted, in order, and at which moment: on subscription or while
    input tick [n] was being delivered. *)
Inductive instant : Type :=
| AtSubscription
| AtTick (n : nat).

Definition Trace (A : Type) : Type := list (instant * A).

(** the input stream itself *)
Definition ticks {A} (l : list A) : Trace A :=
  imap (fun n a => (AtTick n, a)) l.

Definition filter {A} (p : A -> bool) (tr : Trace A) : Trace A :=
  List.filter (fun e => p (snd e)) tr.

Definition skip {A} (n : nat) (tr : Trace A) : Trace A := drop n tr.

Definition map {A B} (f : A -> B) (tr : Trace A) : Trace B :=
  List.map (fun e => (fst e, f (snd e))) tr.

Definition startWith {A} (a : A) (tr : Trace A) : Trace A :=
  (AtSubscription, a) :: tr.

(** seek gap in seconds *)
Definition SEEK_GAP : num := 2%num.

(** The predicate of the [filter] in [seekingsSampler]. *)
Definition isTrueSeeking (timing : obj) : bool :=
  loose_eq_string (get timing "state") "seeking" &&
  (strict_eq_num (get timing "bufferGap") PInf ||
   lt_num (get timing "bufferGap") (neg SEEK_GAP)).

(** What the seekings stream carries: the synthetic [true] it starts with,
    then the ticks that passed the filter. *)
Inductive Seeking : Type :=
| SyntheticTrue
| SeekingTick (timing : obj).

(** core/stream/timings.js *)
Definition seekingsSampler (timingsSampling : Trace obj) : Trace Seeking :=
  startWith SyntheticTrue
    (map SeekingTick (skip 1 (filter isTrueSeeking timingsSampling))).

(** The same predicate in the TypeScript file, with [===] on [state]. *)
Definition isTrueSeeking_ts (timing : obj) : bool :=
  strict_eq_string (get timing "state") "seeking" &&
  (strict_eq_num (get timing "bufferGap") PInf ||
   lt_num (get timing "bufferGap") (neg SEEK_GAP)).

(** core/stream/timings.ts: the ticks are mapped to [null]. *)
Definition seekingsSampler_ts (timingsSampling : Trace obj) : Trace unit :=
  startWith tt
    (map (fun _ => tt) (skip 1 (filter isTrueSeeking_ts timingsSampling))).

(** What the specification asks of a tick for it to count, written on the
    properties of the tick and not with the comparisons of the code: its
    [state] is the string ["seeking"] and its [bufferGap] is a number that is
    [+Infinity] or less than -2 (seconds). *)
Definition spec_gapQualifies (bufferGap : num) : bool :=
  match bufferGap with
  | NaN => false
  | NInf => true
  | Fin gap => match Qcompare gap (-2) with Lt => true | _ => false end
  | PInf => true
  end.

Definition spec_qualifies (timing : obj) : bool :=
  match timing !! "state", timing !! "bufferGap" with
  | Some (VStr state), Some (VNum bufferGap) =>
      String.eqb state "seeking" && spec_gapQualifies bufferGap
  | _, _ => false
  end.

(** What the specification asks of the seekings stream, tick by tick: the
    emissions caused by input tick [n] of [l], which counts when an earlier
    tick of [l] counted already. *)
Definition qualifiedBefore (l : list obj) (n : nat) : bool :=
  existsb spec_qualifies (take n l).

Definition spec_emissionsAt (l : list obj) (n : nat) (timing : obj)
  : Trace Seeking :=
  if spec_qualifies timing && qualifiedBefore l n
  then [(AtTick n, SeekingTick timing)]
  else [].

Definition spec_seekings (l : list obj) : Trace Seeking :=
  (AtSubscription, SyntheticTrue) :: List.concat (imap (spec_emissionsAt l) l).

(** The manifest, as far as the timings read it. *)
Record Manifest : Type := mkManifest {
  isLive : bool;
  (** the remaining properties of the manifest, read by
      [getMaximumBufferPosition] only *)
  content : obj;
}.

Section WithManifestTimings.

(** [getMaximumBufferPosition] comes from manifest/timings, which reads
    the manifest and the wall clock. *)
Context (getMaximumBufferPosition : Manifest -> num).

(** The live gap both versions compute. *)
Definition computedLiveGap (manifest : Manifest) (timing : obj) : num :=
  if isLive manifest
  then (getMaximumBufferPosition manifest
        - to_number (get timing "currentTime"))%num
  else PInf.

(** The callback of [timings.map] in the JavaScript version. *)
Definition augmentTiming_js (manifest : Manifest) (timing : obj) : obj :=
  let clonedTiming := objectAssign ∅ timing in
  <["liveGap" := VNum (computedLiveGap manifest timing)]> clonedTiming.

(** The callback of [timings.map] in the TypeScript version. *)
Definition augmentTiming_ts (manifest : Manifest) (timing : obj) : obj :=
  objectAssign {["liveGap" := VNum (computedLiveGap manifest timing)]} timing.

Record TimingsAndSeekings (S : Type) : Type := mkTimingsAndSeekings {
  timings : Trace obj;
  seekings : Trace S;
}.

Definition createTimingsAndSeekingsObservables_js
  (manifest : Manifest) (timings : Trace obj) : TimingsAndSeekings Seeking :=
  let augmentedTimings := map (augmentTiming_js manifest) timings in
  {| timings := augmentedTimings;
     seekings := seekingsSampler augmentedTimings |}.

Definition createTimingsAndSeekingsObservables_ts
  (manifest : Manifest) (timings : Trace obj) : TimingsAndSeekings unit :=
  let augmentedTimings := map (augmentTiming_ts manifest) timings in
  {| timings := augmentedTimings;
     seekings := seekingsSampler_ts augmentedTimings |}.

End WithManifestTimings.


(** A tick that already carries a [liveGap], and an on-demand manifest. *)
Definition tickWithLiveGap : obj :=
  <["currentTime" := VNum 10%num]> (<["liveGap" := VNum 5%num]> ∅).

Definition plainTick : obj :=
  <["currentTime" := VNum 10%num]> (<["state" := VStr "seeking"]> ∅).

Definition onDemandManifest : Manifest := {| isLive := false; content := ∅ |}.

Definition liveManifest : Manifest := {| isLive := true; content := ∅ |}.

End Timings.

(* ================================================================== *)
(** * The ABR manager (core/abr)                                       *)
(* ================================================================== *)

Module ABR.
Import Js.

(** Types of chunks accepted by the ABR logic. *)
Definition KNOWN_TYPES : list string := ["audio"; "video"; "text"; "image"]%string.

Definition arrayIncludes (l : list string) (s : string) : bool :=
  existsb (String.eqb s) l.

(** Modelled from the spec: the class RepresentationChooser lives in
    [representation_chooser.js], which is missing.  Of a chooser the manager
    only touches the two behaviour subjects [manualBitrate$] and
    [maxAutoBitrate$], whose [next(v)] replaces the current value and whose
    [getValue()] reads it; they are seeded with the constructor's options.
    [initialBitrate], [limitWidth_] and [throttle_] are the constructor's
    arguments as [createChooser] passes them; that the two subjects start at
    the [manualBitrate] and [maxAutoBitrate] arguments is an assumption on
    the missing class. *)
Record RepresentationChooser : Type := mkChooser {
  manualBitrate_ : value;
  maxAutoBitrate_ : value;
  initialBitrate : value;
  limitWidth_ : value;
  throttle_ : value;
}.

(** The options kept for the choosers to come.  The five objects are
    taken to be distinct objects, as they are when the constructor fills in
    a missing option with [{}]. *)
Record ChooserInstanceOptions : Type := mkOptions {
  initialBitrates : obj;
  manualBitrates : obj;
  maxAutoBitrates : obj;
  throttle : obj;
  limitWidth : obj;
}.

(** The manager: its choosers by type, and the options.  A type is taken
    not to name a property that every object inherits (["toString"] and the
    like), for which [this._choosers[type]] answers the inherited value and
    not [undefined]; none of the four known types does. *)
Record ABRManager : Type := mkManager {
  _choosers : gmap string RepresentationChooser;
  _chooserInstanceOptions : ChooserInstanceOptions;
}.

Definition createChooser (type : string) (options : ChooserInstanceOptions)
  : RepresentationChooser :=
  {| limitWidth_ := get (limitWidth options) type;
     throttle_ := get (throttle options) type;
     initialBitrate := get (initialBitrates options) type;
     manualBitrate_ := get (manualBitrates options) type;
     maxAutoBitrate_ := get (maxAutoBitrates options) type |}.

Definition lazilyAttachChooser (instce : ABRManager) (bufferType : string)
  : ABRManager :=
  match _choosers instce !! bufferType with
  | None =>
      {| _choosers :=
           <[bufferType := createChooser bufferType (_chooserInstanceOptions instce)]>
             (_choosers instce);
         _chooserInstanceOptions := _chooserInstanceOptions instce |}
  | Some _ => instce
  end.

(** [new ABRManager(requests$, metrics$, options)], before any request or
    metric came in; a missing option object is [{}]. *)
Definition new (options : ChooserInstanceOptions) : ABRManager :=
  {| _choosers := ∅; _chooserInstanceOptions := options |}.

Definition emptyOptions : ChooserInstanceOptions :=
  {| initialBitrates := ∅; manualBitrates := ∅; maxAutoBitrates := ∅;
     throttle := ∅; limitWidth := ∅ |}.

(** the media types of the specification *)
Definition knownType (type : string) : Prop := In type KNOWN_TYPES.

Section WithDev.

(** the build flag [__DEV__] *)
Context (__DEV__ : bool).

(** [if (__DEV__) { assertType(type); }]: [None] is the AssertError. *)
Definition assertType {A} (type : string) (k : A) : option A :=
  if __DEV__ && negb (arrayIncludes KNOWN_TYPES type) then None else Some k.

(** [get$], as far as the manager's own state goes *)
Definition get_ (this : ABRManager) (type : string) : option ABRManager :=
  assertType type (lazilyAttachChooser this type).

Definition setManualBitrate (this : ABRManager) (type : string) (bitrate : value)
  : option ABRManager :=
  assertType type
    match _choosers this !! type with
    | None =>
        let o := _chooserInstanceOptions this in
        {| _choosers := _choosers this;
           _chooserInstanceOptions :=
             {| initialBitrates := <[type := bitrate]> (initialBitrates o);
                manualBitrates := manualBitrates o;
                maxAutoBitrates := maxAutoBitrates o;
                throttle := throttle o;
                limitWidth := limitWidth o |} |}
    | Some chooser =>
        {| _choosers :=
             <[type := {| manualBitrate_ := bitrate;
                          maxAutoBitrate_ := maxAutoBitrate_ chooser;
                          initialBitrate := initialBitrate chooser;
                          limitWidth_ := limitWidth_ chooser;
                          throttle_ := throttle_ chooser |}]> (_choosers this);
           _chooserInstanceOptions := _chooserInstanceOptions this |}
    end.

Definition setMaxAutoBitrate (this : ABRManager) (type : string) (bitrate : value)
  : option ABRManager :=
  assertType type
    match _choosers this !! type with
    | None =>
        let o := _chooserInstanceOptions this in
        {| _choosers := _choosers this;
           _chooserInstanceOptions :=
             {| initialBitrates := initialBitrates o;
                manualBitrates := manualBitrates o;
                maxAutoBitrates := <[type := bitrate]> (maxAutoBitrates o);
                throttle := throttle o;
                limitWidth := limitWidth o |} |}
    | Some chooser =>
        {| _choosers :=
             <[type := {| manualBitrate_ := manualBitrate_ chooser;
                          maxAutoBitrate_ := bitrate;
                          initialBitrate := initialBitrate chooser;
                          limitWidth_ := limitWidth_ chooser;
                          throttle_ := throttle_ chooser |}]> (_choosers this);
           _chooserInstanceOptions := _chooserInstanceOptions this |}
    end.

Definition getManualBitrate (this : ABRManager) (type : string) : option value :=
  assertType type
    match _choosers this !! type with
    | Some chooser => manualBitrate_ chooser
    | None => get (manualBitrates (_chooserInstanceOptions this)) type
    end.

Definition getMaxAutoBitrate (this : ABRManager) (type : string) : option value :=
  assertType type
    match _choosers this !! type with
    | Some chooser => maxAutoBitrate_ chooser
    | None => get (maxAutoBitrates (_chooserInstanceOptions this)) type
    end.

(** [m.setManualBitrate(t, b); m.getManualBitrate(t)] *)
Definition setThenGetManualBitrate (this : ABRManager) (type : string)
  (bitrate : value) : option value :=
  match setManualBitrate this type bitrate with
  | Some this' => getManualBitrate this' type
  | None => None
  end.

(** [m.setMaxAutoBitrate(t, b); m.getMaxAutoBitrate(t)] *)
Definition setThenGetMaxAutoBitrate (this : ABRManager) (type : string)
  (bitrate : value) : option value :=
  match setMaxAutoBitrate this type bitrate with
  | Some this' => getMaxAutoBitrate this' type
  | None => None
  end.

End WithDev.

End ABR.

(* ================================================================== *)
(** * Numbers in strings                                               *)
(* ================================================================== *)

Module NumString.

Definition Z_to_string (z : Z) : string := NilZero.string_of_int (Z.to_int z).

(** [String(q)] for a finite number.  An integer prints as its decimal
    digits, as in JavaScript.  A fraction prints here as its reduced
    numerator and denominator around a slash, where JavaScript prints a
    decimal expansion: either way different numbers print differently. *)
Definition Q_to_string (q : Q) : string :=
  let q' := Qred q in
  match Qden q' with
  | 1%positive => Z_to_string (Qnum q')
  | den => Z_to_string (Qnum q') +:+ "/" +:+ Z_to_string (Zpos den)
  end.

Definition num_to_string (n : num) : string :=
  match n with
  | NaN => "NaN"
  | NInf => "-Infinity"
  | Fin q => Q_to_string q
  | PInf => "Infinity"
  end.

Definition slash : ascii := "/"%char.

(** no character of the string is a slash *)
Fixpoint slashFree (s : string) : Prop :=
  match s with
  | EmptyString => True
  | String c s' => c <> slash /\ slashFree s'
  end.

End NumString.

(* ================================================================== *)
(** * The segment timeline index (manifest/indexes/timeline.js)        *)
(* ================================================================== *)

Module Timeline.
Import NumString.

(** An element of the timeline.  [t] is the property [getRepeat] reads on
    the next element; the elements this file builds do not have it. *)
Record Entry : Type := mkEntry {
  ts : num;
  d : num;
  r : num;
  t : option num;
  range : option (num * num);
}.

Record Index : Type := mkIndex {
  timeline : list Entry;
  timescale : option num;
  media : string;
  startNumber : option num;
  presentationTimeOffset : option num;
}.

Record Segment : Type := mkSegment {
  id : string;
  time : num;
  init : bool;
  seg_range : option (num * num);
  duration : option num;
  indexRange : option (num * num);
  seg_timescale : option num;
  seg_media : string;
  number : num;
}.

(** a possibly [undefined] number used in arithmetic *)
Definition opt_num (o : option num) : num :=
  match o with
  | Some n => n
  | None => NaN
  end.

Definition with_timeline (index : Index) (tl : list Entry) : Index :=
  {| timeline := tl;
     timescale := timescale index;
     media := media index;
     startNumber := startNumber index;
     presentationTimeOffset := presentationTimeOffset index |}.

Lemma mid_bounds (low high : nat) :
  (low < high)%nat -> (low <= (low + high) / 2 < high)%nat.
Proof.
  intros H. split.
  - apply Nat.div_le_lower_bound; lia.
  - apply Nat.Div0.div_lt_upper_bound; lia.
Qed.

(** The [while (low < high)] loop of [getSegmentIndex]; [below mid] is
    [timeline[mid].ts < ts]. *)
Equations? bisect (below : nat -> bool) (low high : nat) : nat
  by wf (high - low)%nat lt :=
  bisect below low high with decide (low < high)%nat := {
    | left _ =>
        let mid := ((low + high) / 2)%nat in
        if below mid then bisect below (mid + 1)%nat high
        else bisect below low mid
    | right _ => low }.
Proof.
  all: pose proof (mid_bounds low high l) as Hm; simpl in *; lia.
Qed.

(** Get index of the segment containing the given timescaled timestamp. *)
Definition getSegmentIndex (index : Index) (ts_ : num) : nat :=
  let timeline := timeline index in
  let below mid :=
    match timeline !! mid with
    | Some e => (ts e <? ts_)%num
    | None => false
    end in
  let low := bisect below 0 (length timeline) in
  if (0 <? low)%nat then (low - 1)%nat else low.

(** With the hypothesis that the given segment repeats infinitely, the
    number of segments to skip to get the one with the wanted time in it. *)
Definition getSegmentNumber (up ts duration : num) : num :=
  let diff := (up - ts)%num in
  if (diff >? 0)%num then floor (diff / duration)%num else 0%num.

(** Calculate the number of times a segment is repeated. *)
Definition getRepeat (seg : Entry) (nextSeg : option Entry) : num :=
  let rep := or_else (r seg) 0%num in
  if (rep <? 0)%num then
    let repEnd :=
      match nextSeg with
      | Some next => opt_num (t next)
      | None => PInf
      end in
    (ceil ((repEnd - ts seg) / d seg) - 1)%num
  else rep.

(** Modelled from the spec: [normalizeRange] comes from
    [indexes/helpers.js], which is missing; the bounds are converted to
    ticks with the timescale, and the presentation time offset, when there
    is one, is subtracted. *)
Definition normalizeRange (index : Index) (_up _to : num) : num * num :=
  let pto := match presentationTimeOffset index with
             | Some p => p
             | None => 0%num
             end in
  let timescale := match timescale index with
                   | Some s => s
                   | None => 1%num
                   end in
  ((_up * timescale - pto)%num, (_to * timescale - pto)%num).

(** Modelled from the spec: [getTimelineRangeEnd] comes from
    [indexes/helpers.js], which is missing; an element ends at
    [ts + (r+1)*d], an open-ended one ([d = -1]) has no extent yet. *)
Definition getTimelineRangeEnd (e : Entry) : num :=
  if (d e =? (-1))%num then ts e
  else (ts e + (r e + 1) * d e)%num.

Definition segmentId (repId : string) (time : num) : string :=
  repId +:+ "_" +:+ num_to_string time.

Section GetSegments.
Context (repId : string) (index : Index) (up to : num).

(** the [Segment] pushed for repetition [segmentTime] of an element *)
Definition closedSegment (e : Entry) (segmentTime number : num) : Segment :=
  {| id := segmentId repId segmentTime;
     time := segmentTime;
     init := false;
     seg_range := range e;
     duration := Some (d e);
     number := number;
     indexRange := None;
     seg_timescale := timescale index;
     seg_media := media index |}.

(** the [Segment] pushed for a live-added element, whose [d] is [-1] *)
Definition openSegment (e : Entry) (number : num) : Segment :=
  {| id := segmentId repId (ts e);
     time := ts e;
     init := false;
     seg_range := range e;
     duration := None;
     indexRange := None;
     seg_timescale := timescale index;
     seg_media := media index;
     number := number |}.

(** how an iteration of the labelled [for(;;)] ends *)
Inductive Exit : Type :=
| Break
| ContinueLoop.

(** The inner [while] loop.  It need not terminate (a zero duration
    repeated for ever), hence the fuel: [None] when it runs out. *)
Fixpoint whileBeforeTo (fuel : nat) (e : Entry) (repeat : num)
  (segmentNumber number : num) (segments : list Segment)
  : option (Exit * num * list Segment) :=
  match fuel with
  | O => None
  | S fuel' =>
      let segmentTime := (ts e + segmentNumber * d e)%num in
      if (segmentTime <? to)%num then
        if (segmentNumber <=? repeat)%num then
          let number := (number + 1)%num in
          whileBeforeTo fuel' e repeat (segmentNumber + 1)%num number
            (segments ++ [closedSegment e segmentTime number])
        else Some (ContinueLoop, number, segments)
      else Some (Break, number, segments)
  end.

(** The outer loop, from element [timelineIndex] on: [rest] is what is
    left of the timeline there, so that [timeline[timelineIndex + 1]] is the
    head of its tail. *)
Fixpoint forTimeline (fuel : nat) (rest : list Entry)
  (maxDuration number : num) (segments : list Segment)
  : option (list Segment) :=
  match rest with
  | [] => Some segments
  | segmentRange :: rest' =>
      let number := (number + 1)%num in
      let maxDuration := Num.max maxDuration (d segmentRange) in
      if (d segmentRange <? 0)%num then
        if (ts segmentRange + maxDuration <? to)%num
        then Some (segments ++ [openSegment segmentRange number])
        else Some segments
      else
        let repeat := getRepeat segmentRange (head rest') in
        let segmentNumber := getSegmentNumber up (ts segmentRange) (d segmentRange) in
        if (segmentNumber >? repeat)%num then
          forTimeline fuel rest' maxDuration (number + repeat)%num segments
        else
          match whileBeforeTo fuel segmentRange repeat segmentNumber number segments with
          | None => None
          | Some (ContinueLoop, number, segments) =>
              forTimeline fuel rest' maxDuration number segments
          | Some (Break, _, segments) => Some segments
          end
  end.

End GetSegments.

Definition initialMaxDuration (timeline : list Entry) : num :=
  match timeline with
  | [] => 0%num
  | e :: _ => or_else (d e) 0%num
  end.

Definition getSegments (fuel : nat) (repId : string) (index : Index)
  (_up _to : num) : option (list Segment) :=
  let '(up, to) := normalizeRange index _up _to in
  let timelineIndex := getSegmentIndex index up in
  let maxDuration := initialMaxDuration (timeline index) in
  let number :=
    (match startNumber index with Some n => n | None => 0 end - 1)%num in
  forTimeline repId index up to fuel (drop timelineIndex (timeline index))
    maxDuration number [].

(** *** Well-formed timelines, and what is said of the segments
    [getSegments] returns

    The specification asks of a timeline that its starts increase strictly
    and that at most one element, the last, is open-ended.  The properties
    below need more than that: [timelineInvariant] adds that every element
    with a duration has a positive one and a repeat count that is a natural
    number, and that the elements do not overlap: each ends, at
    [ts + (r+1)*d], no later than the next one starts. *)

(** An element with a start, a positive duration and a repeat count that
    is a natural number. *)
Definition isClosed (e : Entry) : Prop :=
  exists (tsq dq rq : Q) (rz : Z),
    ts e = Fin tsq /\ d e = Fin dq /\ r e = Fin rq
    /\ (rq == inject_Z rz)%Q /\ (0 < dq)%Q /\ (0 <= rz)%Z.

(** A live-added element: its duration is [-1]. *)
Definition isOpen (e : Entry) : Prop :=
  exists (tsq dq : Q), ts e = Fin tsq /\ d e = Fin dq /\ (dq == -1)%Q.

(** the repetitions of [e] are over when [next] starts *)
Definition endsBefore (e next : Entry) : Prop :=
  (getTimelineRangeEnd e <=? ts next)%num = true.

(** Every element but the last is closed and ends no later than the next
    starts, so that the starts increase strictly and no two elements overlap;
    the last is closed or open-ended. *)
Fixpoint timelineInvariant (tl : list Entry) : Prop :=
  match tl with
  | [] => True
  | e :: rest =>
      match rest with
      | [] => isClosed e \/ isOpen e
      | next :: _ => isClosed e /\ endsBefore e next
      end
      /\ timelineInvariant rest
  end.

(** the maximum element duration *)
Definition maxEntryDuration (tl : list Entry) : num :=
  foldr (fun e m => Num.max (d e) m) 0%num tl.

(** Fuel that is enough for the inner loop on every element: two more
    than the largest repeat count. *)
Definition entryFuel (e : Entry) : nat :=
  match r e with
  | Fin q => Z.to_nat (Qceiling q + 2)
  | _ => 0%nat
  end.

Definition fuelBound (tl : list Entry) : nat :=
  foldr (fun e m => Nat.max (entryFuel e) m) 0%nat tl.

Definition timeLt (s1 s2 : Segment) : Prop := (time s1 <? time s2)%num = true.

Definition inWindow (lo hi : num) (s : Segment) : Prop :=
  (lo <=? time s)%num = true /\ (time s <? hi)%num = true.

(** a segment that starts strictly before [B] *)
Definition below (B : Q) (s : Segment) : Prop :=
  exists tq, time s = Fin tq /\ (tq < B)%Q.

(** a segment with a duration, named after its time, that starts in
    [[upq - M, toq)] *)
Definition closedOk (repId : string) (upq toq M : Q) (s : Segment) : Prop :=
  id s = segmentId repId (time s) /\ duration s <> None
  /\ exists tq, time s = Fin tq /\ (upq - M <= tq)%Q /\ (tq < toq)%Q.

(** the segments pushed so far: in strictly ascending time, all with a
    duration and in the window, all before [B] *)
Definition pushedSoFar (repId : string) (upq toq M B : Q)
  (segments : list Segment) : Prop :=
  StronglySorted timeLt segments
  /\ Forall (closedOk repId upq toq M) segments
  /\ Forall (below B) segments.


(** the segments pushed when an iteration of the outer loop starts on
    [rest]: as [pushedSoFar], before the start of the element at hand *)
Definition pushedBefore (repId : string) (upq toq M : Q) (rest : list Entry)
  (segments : list Segment) : Prop :=
  StronglySorted timeLt segments
  /\ Forall (closedOk repId upq toq M) segments
  /\ forall e tsq, head rest = Some e -> ts e = Fin tsq ->
       Forall (below tsq) segments.

(** the shape of what the outer loop returns: segments with a duration,
    in ascending time and in the window, then at most one segment without
    duration, pushed for the last element of the timeline, which is
    open-ended and starts after all of them *)
Definition resultShape (repId : string) (index : Index) (upq toq M : Q)
  (rest : list Entry) (out : list Segment) : Prop :=
  exists cl op : list Segment,
    out = cl ++ op
    /\ StronglySorted timeLt cl
    /\ Forall (closedOk repId upq toq M) cl
    /\ (op = []
        \/ exists e number,
             op = [openSegment repId index e number]
             /\ list.last rest = Some e /\ isOpen e
             /\ forall tsq, ts e = Fin tsq -> Forall (below tsq) cl).


(** A segment that stands for an element of the timeline: for repetition
    [k] of an element with a duration, from 0 to its repeat count, or for an
    open-ended element; it has the byte range of the element. *)
Definition repetitionOf (tl : list Entry) (s : Segment) : Prop :=
  exists e : Entry,
    List.In e tl /\ seg_range s = range e
    /\ ((duration s = None /\ isOpen e /\ time s = ts e)
        \/ exists (tsq dq rq : Q) (k : Z) (tq : Q),
             ts e = Fin tsq /\ d e = Fin dq /\ r e = Fin rq
             /\ (0 <= k)%Z /\ (inject_Z k <= rq)%Q
             /\ time s = Fin tq /\ (tq == tsq + inject_Z k * dq)%Q
             /\ duration s = Some (Fin dq)).


(** Checks if the time given is in a discontinuity. *)
Definition checkDiscontinuity (index : Index) (_time : num) : num :=
  let timeline := timeline index in
  let timescale := match timescale index with Some s => s | None => 1%num end in
  let time := (_time * timescale)%num in
  if (time <=? 0)%num then (-1)%num
  else
    let segmentIndex := getSegmentIndex index time in
    if (Z.of_nat (length timeline) - 1 <=? Z.of_nat segmentIndex)%Z
    then (-1)%num
    else
      match timeline !! segmentIndex, timeline !! S segmentIndex with
      | Some range, Some nextRange =>
          if (d range =? (-1))%num then (-1)%num
          else
            let rangeUp := ts range in
            let rangeTo := getTimelineRangeEnd range in
            if negb (rangeTo =? ts nextRange)%num
               && (time >=? rangeUp)%num
               && (time <=? rangeTo)%num
               && (rangeTo - time <? timescale)%num
            then (ts nextRange / timescale)%num
            else (-1)%num
      | _, _ => (-1)%num
      end.

(** Returns true if, based on the arguments, the index should be
    refreshed.  [time] and [up] are not read. *)
Definition shouldRefresh (index : Index) (time up to : num) : bool :=
  let timescale := opt_num (timescale index) in
  let presentationTimeOffset :=
    match presentationTimeOffset index with
    | Some p => p
    | None => 0%num
    end in
  let scaledTo := (to * timescale - presentationTimeOffset)%num in
  match list.last (timeline index) with
  | None => false
  | Some last =>
      let last :=
        if (d last <? 0)%num
        then {| ts := ts last; d := 0%num; r := r last; t := None; range := None |}
        else last in
      negb (scaledTo <=? getTimelineRangeEnd last)%num
  end.

(** Returns first position in index; [None] is [undefined]. *)
Definition getFirstPosition (index : Index) : option num :=
  match timeline index with
  | [] => None
  | first :: _ => Some (ts first / opt_num (timescale index))%num
  end.

(** Returns last position in index; [None] is [undefined]. *)
Definition getLastPosition (index : Index) : option num :=
  match list.last (timeline index) with
  | None => None
  | Some lastTimelineElement =>
      Some (getTimelineRangeEnd lastTimelineElement / opt_num (timescale index))%num
  end.


(** The arguments of [_addSegmentInfos]. *)
Record NewSegment : Type := mkNewSegment {
  new_time : num;
  new_duration : num;
  new_timescale : num;
}.

Record CurrentSegment : Type := mkCurrentSegment {
  cur_time : num;
  cur_timescale : num;
}.

(** [x.timescale === timescale], where the index may have none *)
Definition sameTimescale (s : num) (timescale : option num) : bool :=
  match timescale with
  | Some s' => (s =? s')%num
  | None => false
  end.

Definition rescale (x s : num) (timescale : option num) : num :=
  if sameTimescale s timescale then x
  else (x / s * opt_num timescale)%num.

Definition bump (e : Entry) : Entry :=
  {| ts := ts e; d := d e; r := (r e + 1)%num; t := t e; range := range e |}.

Definition with_d (e : Entry) (d' : num) : Entry :=
  {| ts := ts e; d := d'; r := r e; t := t e; range := range e |}.

Definition pushed (d' ts' : num) : Entry :=
  {| d := d'; ts := ts'; r := 0%num; t := None; range := None |}.

(** [scaledNewSegment], [scaledCurrentTime] and [shouldDeductNextSegment] *)
Definition scaledTime (index : Index) (newSegment : NewSegment) : num :=
  rescale (new_time newSegment) (new_timescale newSegment) (timescale index).

Definition scaledDuration (index : Index) (newSegment : NewSegment) : num :=
  rescale (new_duration newSegment) (new_timescale newSegment) (timescale index).

Definition scaledCurrentTime (index : Index)
  (currentSegment : option CurrentSegment) : option num :=
  match currentSegment with
  | Some c => Some (rescale (cur_time c) (cur_timescale c) (timescale index))
  | None => None
  end.

Definition shouldDeductNextSegment (index : Index) (newSegment : NewSegment)
  (currentSegment : option CurrentSegment) : bool :=
  match scaledCurrentTime index currentSegment with
  | Some c => (scaledTime index newSegment =? c)%num
  | None => false
  end.

(** [last.ts + last.d * last.r] *)
Definition lastSegmentTs (last : Entry) : num := (ts last + d last * r last)%num.

(** Add a new segment to the index.  The index is mutated: the result is
    the returned boolean and the index afterwards; [None] stands for the
    TypeError of reading the last element of an empty timeline. *)
Definition _addSegmentInfos (index : Index) (newSegment : NewSegment)
  (currentSegment : option CurrentSegment) : option (bool * Index) :=
  match rev (timeline index) with
  | [] => None
  | last :: before =>
      if shouldDeductNextSegment index newSegment currentSegment then
        let newSegmentTs :=
          (scaledTime index newSegment + scaledDuration index newSegment)%num in
        let tsDiff := (newSegmentTs - lastSegmentTs last)%num in
        if (tsDiff <=? 0)%num then Some (false, index)
        else
          let kept :=
            if (d last =? (-1))%num then
              match before with
              | prev :: before' =>
                  if (d prev =? tsDiff)%num
                  then rev before' ++ [bump prev]
                  else rev before ++ [with_d last tsDiff]
              | [] => [with_d last tsDiff]
              end
            else timeline index in
          Some (true, with_timeline index (kept ++ [pushed (-1)%num newSegmentTs]))
      else if (scaledTime index newSegment >=? getTimelineRangeEnd last)%num then
        if (d last =? scaledDuration index newSegment)%num
        then Some (true, with_timeline index (rev before ++ [bump last]))
        else Some (true, with_timeline index
                           (timeline index
                            ++ [pushed (scaledDuration index newSegment)
                                  (scaledTime index newSegment)]))
      else Some (false, index)
  end.


(** The elements [pre] that come before [next] in a timeline that keeps the
    invariants: each is closed and ends before the one after it starts. *)
Fixpoint chained (pre : list Entry) (next : Entry) : Prop :=
  match pre with
  | [] => True
  | e :: pre' => isClosed e /\ endsBefore e (hd next pre') /\ chained pre' next
  end.

(** where the timeline ends: the end of its last element *)
Definition timelineEnd (tl : list Entry) : option num :=
  match list.last tl with
  | Some last => Some (getTimelineRangeEnd last)
  | None => None
  end.


(** Examples: one second is one tick. *)
Definition closed (ts d r : Z) : Entry :=
  {| ts := of_Z ts; d := of_Z d; r := of_Z r; t := None; range := None |}.

Definition indexOf (timescale : Z) (tl : list Entry) : Index :=
  {| timeline := tl;
     timescale := Some (of_Z timescale);
     media := "seg-$Time$.mp4";
     startNumber := None;
     presentationTimeOffset := None |}.

Definition newSeg (time duration : Z) : NewSegment :=
  {| new_time := of_Z time; new_duration := of_Z duration;
     new_timescale := 1%num |}.

Definition curSeg (time : Z) : CurrentSegment :=
  {| cur_time := of_Z time; cur_timescale := 1%num |}.

(** What the specification asks of [checkDiscontinuity]: element [i]
    contains [time] (its end counted in, as the code does), [time] is less
    than a second before that end, and the next element does not start at
    [ts + (r+1)*d]. *)
Definition spec_discontinuityAfter (index : Index) (time : num) (i : nat) : bool :=
  let timescale := match timescale index with Some s => s | None => 1%num end in
  match timeline index !! i, timeline index !! S i with
  | Some e, Some next =>
      let end_ := (ts e + (r e + 1) * d e)%num in
      (ts e <=? time)%num && (time <=? end_)%num
      && (end_ - time <? timescale)%num
      && negb (ts next =? end_)%num
  | _, _ => false
  end.

(** A live timeline: one second is one tick, a four-second element and the
    open-ended element after it. *)
Definition liveIndex : Index := indexOf 1 [closed 0 4 0; closed 4 (-1) 0].

(** Three four-second segments, two three-second ones and an open-ended
    element. *)
Definition mixedIndex : Index :=
  indexOf 1 [closed 0 4 2; closed 12 3 1; closed 18 (-1) 0].


(** Two elements whose starts increase and that overlap: the three
    repetitions of the first end at 12, the second starts at 5. *)
Definition overlappingIndex : Index :=
  indexOf 1 [closed 0 4 2; closed 5 4 0].

(** Ten ticks a second; a two-second element, a gap, an element of one
    tick at 2.5 s, a gap, and an element at 4 s. *)
Definition gappedIndex : Index :=
  indexOf 10 [closed 0 20 0; closed 25 1 0; closed 40 20 0].

End Timeline.

(* ================================================================== *)
(** * The logger (utils/log.js)                                        *)
(* ================================================================== *)

Module Log.

Definition LEVELS : list (string * num) :=
  [("NONE", 0%num); ("ERROR", 1%num); ("WARNING", 2%num);
   ("INFO", 3%num); ("DEBUG", 4%num)]%string.

(** [Object.keys(LEVELS)] *)
Definition levelNames : list string := List.map fst LEVELS.

(** What a method of the logger is: [noop], or a method of the console
    bound to it. *)
Inductive LogFunction : Type :=
| noop
| console_error
| console_warn
| console_info
| console_log.

(** The logger object, with the module's variable [currentLevel]. *)
Record Logger : Type := mkLogger {
  currentLevel : string;
  error : LogFunction;
  warn : LogFunction;
  info : LogFunction;
  debug : LogFunction;
}.

(** the logger when the module is loaded *)
Definition logger : Logger :=
  {| currentLevel := hd ""%string levelNames;
     error := noop; warn := noop; info := noop; debug := noop |}.

(** What [LEVELS[levelStr]] evaluates to: the number of an own property,
    a function or object that [LEVELS] inherits from the prototype of objects
    (as for ["toString"]), or [undefined]. *)
Inductive Property : Type :=
| OwnLevel (level : num)
| Inherited
| Undefined.

Fixpoint own (l : list (string * num)) (key : string) : option num :=
  match l with
  | [] => None
  | (k, v) :: l' => if String.eqb k key then Some v else own l' key
  end.

(** [LEVELS.ERROR] and the like *)
Definition levelOf (name : string) : num :=
  match own LEVELS name with
  | Some n => n
  | None => NaN
  end.

Section WithObjectPrototype.

(** the names of the properties every object inherits *)
Context (inherited : string -> bool).

Definition lookup (levelStr : string) : Property :=
  match own LEVELS levelStr with
  | Some n => OwnLevel n
  | None => if inherited levelStr then Inherited else Undefined
  end.

(** [if (foundLevel)] *)
Definition truthyProperty (p : Property) : bool :=
  match p with
  | OwnLevel n => truthy n
  | Inherited => true
  | Undefined => false
  end.

(** [level >= bound]: a function or an object converts to [NaN] *)
Definition propertyGe (level : Property) (bound : num) : bool :=
  match level with
  | OwnLevel n => (n >=? bound)%num
  | Inherited => false
  | Undefined => false
  end.

Definition setLevel (levelStr : string) (this : Logger) : Logger :=
  let foundLevel := lookup levelStr in
  let '(level, currentLevel) :=
    if truthyProperty foundLevel then (foundLevel, levelStr)
    else (OwnLevel 0%num, "NONE"%string) in
  {| currentLevel := currentLevel;
     error := if propertyGe level (levelOf "ERROR") then console_error else noop;
     warn := if propertyGe level (levelOf "WARNING") then console_warn else noop;
     info := if propertyGe level (levelOf "INFO") then console_info else noop;
     debug := if propertyGe level (levelOf "DEBUG") then console_log else noop |}.

End WithObjectPrototype.

Definition getLevel (this : Logger) : string := currentLevel this.

(** The methods of the logger, from the most to the least severe, and
    whether one of them prints. *)
Definition methods (this : Logger) : list LogFunction :=
  [error this; warn this; info this; debug this].

Definition prints (f : LogFunction) : bool :=
  match f with
  | noop => false
  | _ => true
  end.

(** once a method is silent, the less severe ones are silent too *)
Fixpoint silentFromFirstSilent (l : list LogFunction) : Prop :=
  match l with
  | [] => True
  | f :: l' =>
      (prints f = false -> Forall (fun g => prints g = false) l')
      /\ silentFromFirstSilent l'
  end.

(** The own properties of the prototype of objects in an ECMAScript 5
    engine with the legacy accessors. *)
Definition objectPrototypeNames : list string :=
  ["constructor"; "toString"; "toLocaleString"; "valueOf"; "hasOwnProperty";
   "isPrototypeOf"; "propertyIsEnumerable"; "__proto__"; "__defineGetter__";
   "__defineSetter__"; "__lookupGetter__"; "__lookupSetter__"]%string.

Definition inheritedName (name : string) : bool :=
  existsb (String.eqb name) objectPrototypeNames.

End Log.
(* ================================================================== *)
(** * Properties                                                       *)
(* ================================================================== *)

(** ** Arithmetic on JavaScript numbers *)

Section NumFacts.

Lemma Qltb_lt (x y : Q) : Qltb x y = true <-> (x < y)%Q.
Proof.
  unfold Qltb. rewrite negb_true_iff. split.
  - intros H. apply Qnot_le_lt. intros Hle.
    apply Qle_bool_iff in Hle. congruence.
  - intros H. destruct (Qle_bool y x) eqn:E; [|reflexivity].
    apply Qle_bool_iff in E. apply Qlt_not_le in H. contradiction.
Qed.

Lemma Qltb_ge (x y : Q) : Qltb x y = false <-> (y <= x)%Q.
Proof.
  unfold Qltb. rewrite negb_false_iff. apply Qle_bool_iff.
Qed.

Lemma Qle_bool_false (x y : Q) : Qle_bool x y = false <-> (y < x)%Q.
Proof.
  rewrite <- Qltb_lt. unfold Qltb. rewrite negb_true_iff. reflexivity.
Qed.

Lemma Qeq_bool_false (x y : Q) : Qeq_bool x y = false <-> ~ (x == y)%Q.
Proof.
  split.
  - apply Qeq_bool_neq.
  - intros H. destruct (Qeq_bool x y) eqn:E; [|reflexivity].
    apply Qeq_bool_eq in E. contradiction.
Qed.

Lemma ltb_Fin (x y : Q) : (Fin x <? Fin y)%num = true <-> (x < y)%Q.
Proof. apply Qltb_lt. Qed.

Lemma leb_Fin (x y : Q) : (Fin x <=? Fin y)%num = true <-> (x <= y)%Q.
Proof. apply Qle_bool_iff. Qed.

Lemma eqb_Fin (x y : Q) : (Fin x =? Fin y)%num = true <-> (x == y)%Q.
Proof. apply Qeq_bool_iff. Qed.

End NumFacts.

(** Turns the boolean comparisons on rationals that are in the context or
    the goal into propositions. *)
Ltac qprop :=
  repeat match goal with
  | H : Qltb _ _ = true |- _ => apply Qltb_lt in H
  | H : Qltb _ _ = false |- _ => apply Qltb_ge in H
  | H : Qle_bool _ _ = true |- _ => apply Qle_bool_iff in H
  | H : Qle_bool _ _ = false |- _ => apply Qle_bool_false in H
  | H : Qeq_bool _ _ = true |- _ => apply Qeq_bool_iff in H
  | H : Qeq_bool _ _ = false |- _ => apply Qeq_bool_false in H
  | |- Qltb _ _ = true => apply Qltb_lt
  | |- Qltb _ _ = false => apply Qltb_ge
  | |- Qle_bool _ _ = true => apply Qle_bool_iff
  | |- Qle_bool _ _ = false => apply Qle_bool_false
  | |- Qeq_bool _ _ = true => apply Qeq_bool_iff
  | |- Qeq_bool _ _ = false => apply Qeq_bool_false
  end.

(** ** The garbage collector's selection *)

Section GarbageCollector.
Import Ranges Buffer.

(** With a positive gap the loop over the outer ranges keeps every one of
    them, however far from the playback position. *)
Lemma selectOuter_keeps_every_range (ts gap : Q) (l : list Range) :
  (0 < gap)%Q -> Forall wellFormedRange l ->
  selectOuter (Fin ts) (Fin gap) l = l.
Proof.
  intros Hgap Hl. induction Hl as [|r l (s & e & Hs & He & Hse) _ IH]; [reflexivity|].
  simpl. rewrite IH, Hs, He. unfold gtb. simpl.
  destruct (Qltb (ts + - gap) e) eqn:E1; [reflexivity|].
  destruct (Qltb s (ts + gap)) eqn:E2; [reflexivity|].
  qprop. lra.
Qed.

(** C1, at the failing input: with the playback position at 100 s and the
    calm gap of 240 s, the range [[0, 50)] neither ends before 100 - 240 nor
    starts after 100 + 240, so the selection asked for is empty; the code
    marks the range for removal. *)
Theorem selectGCedRanges_marks_range_within_gap :
  selectGCedRanges gcTiming GC_GAP_CALM = buffered gcTiming
  /\ spec_selectGCedRanges gcTiming GC_GAP_CALM = [].
Proof. split; reflexivity. Qed.

End GarbageCollector.

(** ** The injection window *)

Section InjectionWindow.
Import Buffer.

Lemma max_zero_nonnegative (a : num) :
  Num.max 0%num a = NaN \/ (0 <=? Num.max 0%num a)%num = true.
Proof.
  destruct a as [| |q|]; simpl; auto.
  destruct (Qle_bool 0 q) eqn:E; simpl; auto.
Qed.

(** The size [getSegmentsListToInject] asks segments for is
    [wantedBufferSize]. *)
Lemma injectionWindow_size (bufferType : string) (representationBitrate : num)
  (ranges buffered : Ranges.BufferedRanges) (timing : Timing)
  (bufferSize timestamp padding size : num) :
  injectionWindow bufferType representationBitrate ranges buffered timing bufferSize
  = Some (timestamp, padding, size) ->
  timestamp = ts timing /\ size = wantedBufferSize timing bufferSize.
Proof.
  unfold injectionWindow. destruct (readyState timing =? 0)%num; [discriminate|].
  intros [= <- _ <-]. split; reflexivity.
Qed.

(** C6, counterexample: on a tick whose duration is [0], which is defined,
    the code takes [Infinity] where the claim takes the duration: with a
    wanted size of 30 s at position 10 s the code asks for 30 s, the claim
    for none. *)
Lemma wantedBufferSize_zero_duration :
  endDiff zeroDurationTiming = PInf
  /\ spec_endDiff zeroDurationTiming = (-10)%num
  /\ wantedBufferSize zeroDurationTiming 30%num = 30%num
  /\ spec_wantedSize zeroDurationTiming 30%num = 0%num.
Proof. repeat split; reflexivity. Qed.

(** C6, as amended: [endDiff] is the tick's duration minus the timestamp
    when the duration is defined and neither [0] nor [NaN], and [Infinity]
    minus the timestamp otherwise; the wanted size is
    [max(0, min(bufferSize, liveGap, endDiff))], which on a duration that is
    missing, or neither [0] nor [NaN], is the size the claim gives, and which
    is never negative. *)
Theorem wantedBufferSize_window (timing : Timing) (bufferSize : num) :
  endDiff timing =
    (match duration timing with
     | Some d => if truthy d then d else PInf
     | None => PInf
     end - ts timing)%num
  /\ wantedBufferSize timing bufferSize =
       Num.max 0%num
         (Num.min (Num.min bufferSize (liveGap timing)) (endDiff timing))
  /\ (match duration timing with
      | Some d => truthy d
      | None => true
      end = true ->
      endDiff timing = spec_endDiff timing
      /\ wantedBufferSize timing bufferSize = spec_wantedSize timing bufferSize)
  /\ (wantedBufferSize timing bufferSize = NaN
      \/ (0 <=? wantedBufferSize timing bufferSize)%num = true).
Proof.
  unfold wantedBufferSize, spec_wantedSize, endDiff, spec_endDiff,
    duration_or_infinity, or_else.
  split; [|split; [|split]].
  - destruct (duration timing) as [d|]; reflexivity.
  - reflexivity.
  - destruct (duration timing) as [d|]; [|split; reflexivity].
    intros H. rewrite H. split; reflexivity.
  - apply max_zero_nonnegative.
Qed.

(** C6, at a tick without a duration: the window is the one the claim
    gives. *)
Lemma wantedBufferSize_window_witness :
  endDiff gcTiming = spec_endDiff gcTiming
  /\ wantedBufferSize gcTiming 30%num = spec_wantedSize gcTiming 30%num.
Proof.
  apply (wantedBufferSize_window gcTiming 30%num). reflexivity.
Defined.

End InjectionWindow.

(** ** The seekings stream *)

Section Seekings.
Import Js Timings.

(** The stream after the first [k] input ticks [pre]: the [skip] has let
    its one element go if and only if one of them counted. *)
Lemma seekings_from (pre l : list obj) :
  map SeekingTick
    (skip (if existsb spec_qualifies pre then 0 else 1)
       (filter spec_qualifies
          (imap (fun n a => (AtTick (length pre + n), a)) l)))
  = List.concat
      (imap (fun n => spec_emissionsAt (pre ++ l) (length pre + n)) l).
Proof.
  revert pre. induction l as [|x l IH]; intros pre.
  - simpl. destruct (existsb spec_qualifies pre); reflexivity.
  - assert (Hticks :
      imap ((fun n (a : obj) => (AtTick (length pre + n), a)) ∘ S) l
      = imap (fun n a => (AtTick (length (pre ++ [x]) + n), a)) l).
    { apply imap_ext. intros i y _. simpl.
      rewrite length_app. simpl. do 2 f_equal. lia. }
    assert (Hspec :
      imap ((fun n => spec_emissionsAt (pre ++ x :: l) (length pre + n)) ∘ S) l
      = imap (fun n => spec_emissionsAt (pre ++ x :: l) (length (pre ++ [x]) + n)) l).
    { apply imap_ext. intros i y _. simpl.
      rewrite length_app. simpl. f_equal. lia. }
    simpl imap. rewrite Hticks, Hspec. clear Hticks Hspec.
    rewrite (cons_middle x pre l).
    specialize (IH (pre ++ [x])).
    rewrite <- app_assoc in IH. simpl in IH.
    simpl List.concat. rewrite <- IH. clear IH.
    unfold spec_emissionsAt, qualifiedBefore.
    replace (length pre + 0)%nat with (length pre) by lia.
    rewrite take_app_length.
    rewrite existsb_app. simpl existsb. rewrite orb_false_r.
    unfold filter at 1. simpl List.filter.
    destruct (spec_qualifies x) eqn:Hx.
    + destruct (existsb spec_qualifies pre) eqn:Hpre; simpl.
      * reflexivity.
      * reflexivity.
    + rewrite orb_false_r. simpl. reflexivity.
Qed.

(** The filter of the code keeps the ticks that count for the
    specification: the loose [==] on [state] holds of the string ["seeking"]
    only, [=== Infinity] of the number [+Infinity] only, and [< -SEEK_GAP]
    of the numbers below -2, [-Infinity] among them; a [bufferGap] that is
    not a number converts to a number that is not below -2. *)
Lemma isTrueSeeking_spec (timing : obj) :
  isTrueSeeking timing = spec_qualifies timing.
Proof.
  unfold isTrueSeeking, spec_qualifies, get.
  destruct (timing !! "state") as [[|b|n|state]|]; simpl;
    destruct (timing !! "bufferGap") as [[|b'|gap|s']|]; simpl;
    try reflexivity; try (rewrite andb_false_r; reflexivity).
  - destruct b'; rewrite andb_false_r; reflexivity.
  - f_equal. destruct gap as [| |q|]; try reflexivity.
    unfold lt_num, spec_gapQualifies. simpl.
    unfold Qltb. destruct (Qcompare q (-2)) eqn:Hc.
    + apply Qeq_alt in Hc. apply negb_false_iff, Qle_bool_iff.
      rewrite Hc. apply Qle_refl.
    + apply Qlt_alt in Hc. apply negb_true_iff.
      destruct (Qle_bool (- (2)) q) eqn:E; [|reflexivity].
      apply Qle_bool_iff in E. exfalso. apply (Qlt_not_le _ _ Hc). exact E.
    + apply Qgt_alt in Hc. apply negb_false_iff, Qle_bool_iff.
      apply Qlt_le_weak. exact Hc.
Qed.

Lemma filter_same {A} (p q : A -> bool) (tr : Trace A) :
  (forall a, p a = q a) -> filter p tr = filter q tr.
Proof.
  intros H. unfold filter. apply List.filter_ext. intros e. apply H.
Qed.

(** C7: fed any sequence of timing ticks, the seekings stream first emits
    the synthetic element, on subscription, and then, while tick [n] is
    delivered, emits that tick exactly once if its state is ["seeking"] and
    its buffer gap is [+Infinity] or below -2 s and an earlier tick was so as
    well, and nothing otherwise: the first such tick is skipped. *)
Theorem seekingsSampler_skips_first_seeking (l : list obj) :
  seekingsSampler (ticks l) = spec_seekings l.
Proof.
  unfold seekingsSampler, spec_seekings, startWith, ticks. f_equal.
  rewrite (filter_same isTrueSeeking spec_qualifies _ isTrueSeeking_spec).
  exact (seekings_from [] l).
Qed.

End Seekings.

(** ** The augmented timings *)

Section AugmentedTimings.
Import Js Timings.
Context (getMaximumBufferPosition : Manifest -> num).

Lemma objectAssign_empty (o : obj) : objectAssign ∅ o = o.
Proof. unfold objectAssign. apply (right_id ∅ (∪)). Qed.

(** The JavaScript version sets [liveGap] to the computed gap whatever the
    tick holds. *)
Lemma augmentTiming_js_liveGap (manifest : Manifest) (timing : obj) :
  augmentTiming_js getMaximumBufferPosition manifest timing !! "liveGap"
  = Some (VNum (computedLiveGap getMaximumBufferPosition manifest timing)).
Proof. unfold augmentTiming_js. apply lookup_insert_eq. Qed.

(** The TypeScript version keeps the [liveGap] of a tick that has one. *)
Lemma augmentTiming_ts_liveGap (manifest : Manifest) (timing : obj) :
  augmentTiming_ts getMaximumBufferPosition manifest timing !! "liveGap"
  = match timing !! "liveGap" with
    | Some v => Some v
    | None => Some (VNum (computedLiveGap getMaximumBufferPosition manifest timing))
    end.
Proof.
  unfold augmentTiming_ts, objectAssign. rewrite lookup_union.
  rewrite lookup_singleton_eq. destruct (timing !! "liveGap"); reflexivity.
Qed.

(** C10, as amended: on a tick that has no [liveGap] property of its own,
    as the tick interface declares, both versions compute the same tick: its
    [liveGap] is [getMaximumBufferPosition(manifest) - currentTime] when the
    manifest is live and [Infinity] otherwise, and every other property is
    the input's. *)
Theorem augmentTiming_js_ts_agree (manifest : Manifest) (timing : obj) :
  timing !! "liveGap" = None ->
  augmentTiming_js getMaximumBufferPosition manifest timing
  = augmentTiming_ts getMaximumBufferPosition manifest timing
  /\ augmentTiming_ts getMaximumBufferPosition manifest timing !! "liveGap"
     = Some (VNum (if isLive manifest
                   then (getMaximumBufferPosition manifest
                         - to_number (get timing "currentTime"))%num
                   else PInf))
  /\ forall k : string,
       k <> "liveGap" ->
       augmentTiming_ts getMaximumBufferPosition manifest timing !! k
       = timing !! k.
Proof.
  intros Hnone. split; [|split].
  - apply map_eq. intros k.
    unfold augmentTiming_js, augmentTiming_ts. rewrite objectAssign_empty.
    unfold objectAssign. rewrite lookup_union.
    destruct (decide (k = "liveGap")) as [->|Hk].
    + rewrite lookup_insert_eq, lookup_singleton_eq, Hnone. reflexivity.
    + rewrite lookup_insert_ne by congruence.
      rewrite lookup_singleton_ne by congruence.
      destruct (timing !! k); reflexivity.
  - rewrite augmentTiming_ts_liveGap, Hnone. reflexivity.
  - intros k Hk. unfold augmentTiming_ts, objectAssign.
    rewrite lookup_union, lookup_singleton_ne by congruence.
    destruct (timing !! k); reflexivity.
Qed.

(** The whole augmented stream is then the same in both versions. *)
Lemma createTimingsAndSeekingsObservables_same_timings
  (manifest : Manifest) (tr : Trace obj) :
  Forall (fun e => e.2 !! "liveGap" = None) tr ->
  timings _ (createTimingsAndSeekingsObservables_js getMaximumBufferPosition manifest tr)
  = timings _ (createTimingsAndSeekingsObservables_ts getMaximumBufferPosition manifest tr).
Proof.
  intros H. simpl. unfold map.
  induction H as [|e tr He _ IH]; [reflexivity|].
  simpl. rewrite IH. do 2 f_equal.
  apply (augmentTiming_js_ts_agree manifest e.2 He).
Qed.

End AugmentedTimings.

Section AugmentedTimingsExamples.
Import Js Timings.

(** C10, counterexample: on a tick that carries a [liveGap] of 5 and an
    on-demand manifest, the JavaScript version answers a [liveGap] of
    [Infinity] and the TypeScript version keeps the 5. *)
Lemma augmentTiming_js_ts_differ :
  augmentTiming_js (fun _ => 0%num) onDemandManifest tickWithLiveGap !! "liveGap"
    = Some (VNum PInf)
  /\ augmentTiming_ts (fun _ => 0%num) onDemandManifest tickWithLiveGap !! "liveGap"
    = Some (VNum 5%num)
  /\ augmentTiming_js (fun _ => 0%num) onDemandManifest tickWithLiveGap
     <> augmentTiming_ts (fun _ => 0%num) onDemandManifest tickWithLiveGap.
Proof.
  assert (Hjs : augmentTiming_js (fun _ => 0%num) onDemandManifest tickWithLiveGap
                  !! "liveGap" = Some (VNum PInf)).
  { rewrite augmentTiming_js_liveGap. reflexivity. }
  assert (Hts : augmentTiming_ts (fun _ => 0%num) onDemandManifest tickWithLiveGap
                  !! "liveGap" = Some (VNum 5%num)).
  { rewrite augmentTiming_ts_liveGap. reflexivity. }
  split; [exact Hjs|]. split; [exact Hts|].
  intros Heq. rewrite Heq, Hts in Hjs. discriminate.
Qed.

(** C10, at a live manifest whose maximum buffer position is 60 s and a
    tick at 10 s: both versions answer a [liveGap] of 50 s. *)
Lemma augmentTiming_js_ts_agree_witness :
  augmentTiming_js (fun _ => 60%num) liveManifest plainTick
  = augmentTiming_ts (fun _ => 60%num) liveManifest plainTick
  /\ augmentTiming_ts (fun _ => 60%num) liveManifest plainTick !! "liveGap"
     = Some (VNum (if isLive liveManifest
                   then (60 - to_number (get plainTick "currentTime"))%num
                   else PInf))
  /\ forall k : string,
       k <> "liveGap" ->
       augmentTiming_ts (fun _ => 60%num) liveManifest plainTick !! k
       = plainTick !! k.
Proof.
  apply (augmentTiming_js_ts_agree (fun _ => 60%num) liveManifest plainTick).
  reflexivity.
Defined.

End AugmentedTimingsExamples.

(** ** The ABR manager's bitrate settings *)

Section ManagerBitrates.
Import Js ABR.
Context (__DEV__ : bool).

Lemma assertType_known {A} (type : string) (k : A) :
  knownType type -> assertType __DEV__ type k = Some k.
Proof.
  intros H. unfold assertType.
  assert (arrayIncludes KNOWN_TYPES type = true) as ->.
  { unfold arrayIncludes. apply existsb_exists. exists type. split; [exact H|].
    apply String.eqb_refl. }
  rewrite andb_false_r. reflexivity.
Qed.

(** [setMaxAutoBitrate] then [getMaxAutoBitrate] answers the bitrate that
    was set, with a chooser for the type and without. *)
Lemma setMaxAutoBitrate_getMaxAutoBitrate
  (this : ABRManager) (type : string) (bitrate : value) :
  knownType type ->
  setThenGetMaxAutoBitrate __DEV__ this type bitrate = Some bitrate.
Proof.
  intros H. unfold setThenGetMaxAutoBitrate, setMaxAutoBitrate, getMaxAutoBitrate.
  rewrite !assertType_known by exact H.
  destruct (_choosers this !! type) as [chooser|] eqn:E; simpl.
  - rewrite lookup_insert_eq. reflexivity.
  - rewrite E. unfold get. rewrite lookup_insert_eq. reflexivity.
Qed.

(** [setManualBitrate] then [getManualBitrate] answers the bitrate that was
    set once a chooser exists for the type. *)
Lemma setManualBitrate_getManualBitrate_chooser
  (this : ABRManager) (type : string) (bitrate : value) :
  knownType type -> is_Some (_choosers this !! type) ->
  setThenGetManualBitrate __DEV__ this type bitrate = Some bitrate.
Proof.
  intros H [chooser E].
  unfold setThenGetManualBitrate, setManualBitrate, getManualBitrate.
  rewrite !assertType_known by exact H.
  rewrite E. simpl. rewrite lookup_insert_eq. reflexivity.
Qed.

(** Without a chooser for the type, [setManualBitrate] writes the initial
    bitrates and [getManualBitrate] reads the manual ones: the answer is
    what the manual bitrates held before. *)
Lemma setManualBitrate_getManualBitrate_no_chooser
  (this : ABRManager) (type : string) (bitrate : value) :
  knownType type -> _choosers this !! type = None ->
  setThenGetManualBitrate __DEV__ this type bitrate
  = Some (get (manualBitrates (_chooserInstanceOptions this)) type).
Proof.
  intros H E.
  unfold setThenGetManualBitrate, setManualBitrate, getManualBitrate.
  rewrite !assertType_known by exact H.
  rewrite E. simpl. rewrite E. reflexivity.
Qed.

(** C9, at the failing input: on a manager built without options, before
    any chooser exists, [setManualBitrate("video", 1000)] followed by
    [getManualBitrate("video")] answers [undefined], not 1000; the bitrate
    went to the initial bitrates, which the getter does not read. *)
Theorem setManualBitrate_lost_without_chooser :
  setThenGetManualBitrate __DEV__ (new emptyOptions) "video" (VNum 1000%num)
  = Some VUndef
  /\ option_map
       (fun this' => get (initialBitrates (_chooserInstanceOptions this')) "video")
       (setManualBitrate __DEV__ (new emptyOptions) "video" (VNum 1000%num))
     = Some (VNum 1000%num)
  /\ setThenGetMaxAutoBitrate __DEV__ (new emptyOptions) "video" (VNum 1000%num)
     = Some (VNum 1000%num).
Proof.
  assert (Hk : knownType "video") by (right; left; reflexivity).
  split; [|split].
  - rewrite setManualBitrate_getManualBitrate_no_chooser; [reflexivity|exact Hk|reflexivity].
  - unfold setManualBitrate. rewrite assertType_known by exact Hk. reflexivity.
  - apply setMaxAutoBitrate_getMaxAutoBitrate. exact Hk.
Qed.

End ManagerBitrates.

(** ** Appending a segment: the garbage collector and the retry *)

Section AppendAndRetry.
Import Ranges Buffer Scheduler.
Context {I : Type}.
Implicit Types (timing : Timing) (blob : string) (infos : I).

(** An append that succeeds emits the segment's infos. *)
Lemma appendSegment_success timing blob infos rest :
  runAppend timing blob infos (None :: rest)
  = (None, [Appended blob; Emitted infos]).
Proof. reflexivity. Qed.

(** An append that fails with an error of another name is not tried
    again and nothing is removed: the error is propagated. *)
Lemma appendSegment_other_error_propagated timing blob infos
  (err : SinkError) rest :
  String.eqb (name err) "QuotaExceededError" = false ->
  runAppend timing blob infos (Some err :: rest) = (Some err, [Appended blob]).
Proof.
  intros H. unfold runAppend, appendSegment, Rx.mapTo, Rx.map, Rx.catch. simpl.
  rewrite H. reflexivity.
Qed.

(** When the first append fails on the quota and every later operation
    succeeds, the append is tried again after each range the collector
    removed: as many retries as removed ranges. *)
Lemma appendSegment_retries_per_removed_range timing blob infos :
  runAppend timing blob infos [Some quotaExceededError]
  = (None,
     Appended blob ::
     flat_map (fun r => [Removed (start r) (end_ r); Appended blob; Emitted infos])
       (gcRanges timing)).
Proof.
  unfold runAppend, appendSegment, Rx.mapTo, Rx.map, Rx.catch, Rx.flatMap,
    bufferGarbageCollector, Rx.of_, Rx.flatMap.
  simpl. generalize (gcRanges timing) as l.
  assert (H : forall (l : list Range) (tr : list (Event I)),
    Rx.concatAll (List.map lockedRemoveBuffer l)
      (fun _ : unit => lockedAppendBuffer blob (fun _ : unit => subscriber infos))
      (mkWorld [] tr)
    = (None, mkWorld []
        (tr ++ flat_map
           (fun r => [Removed (start r) (end_ r); Appended blob; Emitted infos]) l))).
  { induction l as [|r l IH]; intros tr.
    - simpl. rewrite app_nil_r. reflexivity.
    - simpl. unfold Rx.concat. simpl. rewrite IH. simpl.
      rewrite <- !app_assoc. reflexivity. }
  intros l. rewrite H. reflexivity.
Qed.

(** C4, as amended: when the first append fails, the collector is run and
    the append retried if and only if the error's name is
    ["QuotaExceededError"]; any other error is propagated after that single
    append; when the collector removes one range, the append is retried
    exactly once, and an error of that retry, whatever its name, is
    propagated without another collection or append. *)
Theorem appendSegment_quota_gc_single_retry
  timing blob infos (err : SinkError) (r : Range)
  (retry : option SinkError) (rest : list (option SinkError)) :
  gcRanges timing = [r] ->
  runAppend timing blob infos (Some err :: None :: retry :: rest)
  = if String.eqb (name err) "QuotaExceededError"
    then (retry,
          [Appended blob; Removed (start r) (end_ r); Appended blob]
          ++ match retry with
             | None => [Emitted infos]
             | Some _ => []
             end)
    else (Some err, [Appended blob]).
Proof.
  intros Hgc.
  unfold runAppend, appendSegment, Rx.mapTo, Rx.map, Rx.catch. simpl.
  destruct (String.eqb (name err) "QuotaExceededError").
  - unfold Rx.flatMap, bufferGarbageCollector, Rx.flatMap, Rx.of_.
    rewrite Hgc. simpl. unfold Rx.concat. simpl.
    destruct retry; reflexivity.
  - reflexivity.
Qed.

End AppendAndRetry.

Section AppendAndRetryExamples.
Import Ranges Buffer Scheduler.

(** C4, counterexample: an append that fails with an error named
    ["QuotaExceeded"] is propagated as it is: no range is removed and the
    append is not tried again, although the source buffer would have accepted
    the retry. *)
Lemma appendSegment_QuotaExceeded_not_retried :
  runAppend oneRangeTiming "blob" tt [Some quotaExceeded; None; None]
  = (Some quotaExceeded, [Appended "blob"]).
Proof. reflexivity. Qed.

(** C4 at a concrete buffer: the append fails with a QuotaExceededError,
    the collector removes [[130, 200)], the retry fails on the quota again
    and is propagated. *)
Lemma appendSegment_quota_gc_single_retry_witness :
  runAppend oneRangeTiming "blob" tt
    [Some quotaExceededError; None; Some quotaExceededError]
  = (Some quotaExceededError,
     [Appended "blob"; Removed 130%num 200%num; Appended "blob"]).
Proof.
  apply (appendSegment_quota_gc_single_retry oneRangeTiming "blob" tt
           quotaExceededError
           {| start := 130%num; end_ := 200%num; bitrate := None |}
           (Some quotaExceededError) []).
  reflexivity.
Defined.

End AppendAndRetryExamples.

(** ** Adding segments to the timeline *)

Section AddSegmentInfos.
Import Timeline.
Implicit Types (index : Index) (newSegment : NewSegment)
  (currentSegment : option CurrentSegment) (last : Entry).

Lemma last_rev {A} (l : list A) (x : A) :
  last l = Some x <-> exists before, rev l = x :: before.
Proof.
  split.
  - intros H. destruct (rev l) as [|y before] eqn:E.
    + apply (f_equal (@rev A)) in E. rewrite rev_involutive in E.
      subst l. discriminate.
    + exists before. apply (f_equal (@rev A)) in E. rewrite rev_involutive in E.
      subst l. simpl in H. rewrite last_snoc in H. congruence.
  - intros [before E]. apply (f_equal (@rev A)) in E.
    rewrite rev_involutive in E. subst l. simpl. apply last_snoc.
Qed.

(** A finite difference is at most zero exactly when the first operand
    is at most the second. *)
Lemma sub_nonpositive (x y : Q) :
  (Fin x - Fin y <=? 0)%num = true <-> (x <= y)%Q.
Proof.
  simpl. rewrite Qle_bool_iff. split; intros H; lra.
Qed.

(** C5, counterexample: the last element is [{ts: 100, d: 4, r: 0}] and
    ends at 104; deducing from the segment at 98 with duration 4 gives 102,
    which is not after that end, yet the call returns true and pushes an
    open-ended element at 102. *)
Lemma addSegmentInfos_deduces_inside_last_element :
  shouldDeductNextSegment (indexOf 1 [closed 100 4 0]) (newSeg 98 4)
    (Some (curSeg 98)) = true
  /\ (scaledTime (indexOf 1 [closed 100 4 0]) (newSeg 98 4)
      + scaledDuration (indexOf 1 [closed 100 4 0]) (newSeg 98 4)
      <=? getTimelineRangeEnd (closed 100 4 0))%num = true
  /\ _addSegmentInfos (indexOf 1 [closed 100 4 0]) (newSeg 98 4) (Some (curSeg 98))
     = Some (true, indexOf 1 [closed 100 4 0; closed 102 (-1) 0]).
Proof. repeat split; reflexivity. Qed.

(** C5, as amended: in deduction mode the call returns false and leaves
    the timeline as it is whenever the deduced start,
    [currentSegment.time + newSegment.duration] in the index's timescale, is
    at most [last.ts + last.d * last.r], the start of the last segment of
    the last element. *)
Theorem addSegmentInfos_deduction_not_after_last
  index newSegment currentSegment last (deduced lastStart : Q) :
  list.last (timeline index) = Some last ->
  shouldDeductNextSegment index newSegment currentSegment = true ->
  (scaledTime index newSegment + scaledDuration index newSegment)%num = Fin deduced ->
  lastSegmentTs last = Fin lastStart ->
  (deduced <= lastStart)%Q ->
  _addSegmentInfos index newSegment currentSegment = Some (false, index).
Proof.
  intros Hlast Hmode Hded Hstart Hle.
  apply last_rev in Hlast as [before Hrev].
  unfold _addSegmentInfos. rewrite Hrev, Hmode, Hded, Hstart.
  apply sub_nonpositive in Hle. rewrite Hle. reflexivity.
Qed.

(** C5 on the live timeline of the specification's scenario: once the
    open-ended element starts at 104, deducing 104 again changes nothing. *)
Lemma addSegmentInfos_deduction_not_after_last_witness :
  _addSegmentInfos (indexOf 1 [closed 100 4 0; closed 104 (-1) 0]) (newSeg 100 4)
    (Some (curSeg 100))
  = Some (false, indexOf 1 [closed 100 4 0; closed 104 (-1) 0]).
Proof.
  apply (addSegmentInfos_deduction_not_after_last
           (indexOf 1 [closed 100 4 0; closed 104 (-1) 0]) (newSeg 100 4)
           (Some (curSeg 100)) (closed 104 (-1) 0) 104 104);
    [reflexivity | reflexivity | reflexivity | reflexivity | ].
  unfold Qle. simpl. lia.
Defined.



(** A call that returns false has left the index as it was. *)
Lemma addSegmentInfos_false_unchanged
  index newSegment currentSegment (index1 : Index) :
  _addSegmentInfos index newSegment currentSegment = Some (false, index1) ->
  index1 = index.
Proof.
  unfold _addSegmentInfos. destruct (rev (timeline index)) as [|last before];
    [discriminate|].
  repeat match goal with
         | |- context [if ?c then _ else _] => destruct c
         end; intros [= H]; congruence.
Qed.




End AddSegmentInfos.

(** ** Discontinuities *)

Section Discontinuity.
Import Timeline.

(** [checkDiscontinuity] answers -1 for a time that is not positive. *)
Lemma checkDiscontinuity_not_positive (index : Index) (_time : num) :
  (_time * match timescale index with Some s => s | None => 1%num end <=? 0)%num
  = true ->
  checkDiscontinuity index _time = (-1)%num.
Proof. intros H. unfold checkDiscontinuity. rewrite H. reflexivity. Qed.

(** C8, at the failing input: at 2.5 s, tick 25, the time is in the element
    [{ts: 25, d: 1, r: 0}], less than a second before its end, and the next
    element starts at 40, not at 26: the discontinuity asked for is the next
    start, 4 s.  The search answers element 0, which ends at 20, and
    [checkDiscontinuity] answers -1.  A twentieth of a second later it
    answers 4 s. *)
Theorem checkDiscontinuity_misses_element_start :
  spec_discontinuityAfter gappedIndex 25%num 1 = true
  /\ getSegmentIndex gappedIndex 25%num = 0%nat
  /\ checkDiscontinuity gappedIndex (Fin (5 # 2)) = (-1)%num
  /\ same (checkDiscontinuity gappedIndex (Fin (51 # 20))) 4%num.
Proof. repeat split; vm_compute; reflexivity. Qed.

End Discontinuity.

(** ** Printing numbers: different numbers, different strings *)

Section Printing.
Import NumString.

Lemma append_inv_head (p a b : string) : p +:+ a = p +:+ b -> a = b.
Proof.
  induction p as [|c p IH]; simpl; intros H; [exact H|].
  injection H as H. exact (IH H).
Qed.

Lemma slashFree_split (a a' b b' : string) :
  slashFree a -> slashFree a' ->
  a +:+ String slash b = a' +:+ String slash b' -> a = a' /\ b = b'.
Proof.
  revert a'. induction a as [|c a IH]; intros [|c' a'] Ha Ha'; simpl; intros H.
  - injection H as H. auto.
  - injection H as Hc _. destruct Ha' as [Hc' _]. congruence.
  - injection H as Hc _. destruct Ha as [Hc' _]. congruence.
  - injection H as Hc H. destruct Ha as [_ Ha], Ha' as [_ Ha'].
    destruct (IH a' Ha Ha' H) as [-> ->]. subst c'. auto.
Qed.

Lemma slashFree_no_slash (a a' b : string) :
  slashFree a -> a <> a' +:+ String slash b.
Proof.
  revert a'. induction a as [|c a IH]; intros [|c' a'] Ha; simpl; intros H;
    try discriminate.
  - injection H as Hc _. destruct Ha as [Hc' _]. congruence.
  - injection H as _ H. destruct Ha as [_ Ha]. exact (IH a' Ha H).
Qed.

Lemma slashFree_uint (u : Decimal.uint) :
  slashFree (NilEmpty.string_of_uint u).
Proof.
  induction u; simpl; try exact I; (split; [discriminate | assumption]).
Qed.

Lemma slashFree_Z (z : Z) : slashFree (Z_to_string z).
Proof.
  unfold Z_to_string, NilZero.string_of_int, NilZero.string_of_uint.
  destruct (Z.to_int z) as [u|u]; destruct u;
    try (simpl; repeat split; try discriminate; apply slashFree_uint).
Qed.

Lemma Z_to_string_inj (z1 z2 : Z) : Z_to_string z1 = Z_to_string z2 -> z1 = z2.
Proof.
  unfold Z_to_string. intros H.
  assert (Hnn : forall z, Z.to_int z <> Decimal.Pos Decimal.Nil
                          /\ Z.to_int z <> Decimal.Neg Decimal.Nil).
  { intros [|p|p]; simpl; split; try discriminate;
      intros [= E]; exact (DecimalPos.Unsigned.to_uint_nonnil p E). }
  destruct (Hnn z1) as [H1 H1'], (Hnn z2) as [H2 H2'].
  pose proof (NilZero.isi _ H1 H1') as E1.
  pose proof (NilZero.isi _ H2 H2') as E2.
  rewrite H in E1. rewrite E1 in E2. injection E2 as E2.
  rewrite <- (DecimalZ.of_to z1), <- (DecimalZ.of_to z2). congruence.
Qed.

(** The printed form of a finite number determines it. *)
Lemma Q_to_string_inj (q1 q2 : Q) :
  Q_to_string q1 = Q_to_string q2 -> (q1 == q2)%Q.
Proof.
  unfold Q_to_string. intros H. apply Qred_eq_iff.
  destruct (Qred q1) as [n1 d1], (Qred q2) as [n2 d2]. simpl in H.
  assert (Hfrac : forall n n' dd dd',
            Z_to_string n +:+ "/" +:+ Z_to_string (Z.pos dd)
            = Z_to_string n' +:+ "/" +:+ Z_to_string (Z.pos dd') ->
            n = n' /\ dd = dd').
  { intros n n' dd dd' E.
    apply slashFree_split in E as [En Ed]; try apply slashFree_Z.
    apply Z_to_string_inj in En, Ed. split; congruence. }
  assert (Hmix : forall n n' dd,
            Z_to_string n <> Z_to_string n' +:+ "/" +:+ Z_to_string (Z.pos dd)).
  { intros n n' dd. apply slashFree_no_slash, slashFree_Z. }
  destruct d1, d2;
    try (apply Hfrac in H as [-> [= ->]]; reflexivity);
    try (exfalso; exact (Hmix _ _ _ H));
    try (exfalso; symmetry in H; exact (Hmix _ _ _ H)).
  apply Z_to_string_inj in H. subst. reflexivity.
Qed.

End Printing.

(** ** The segments of a timeline *)

Section GetSegmentsFacts.
Import NumString Timeline.

Lemma StronglySorted_snoc {A} (R : A -> A -> Prop) (l : list A) (x : A) :
  StronglySorted R l -> Forall (fun y => R y x) l -> StronglySorted R (l ++ [x]).
Proof.
  induction 1 as [|y l Hl IH Hy]; intros Hx; simpl.
  - constructor; constructor.
  - apply Forall_cons_1 in Hx as [Hyx Hx]. constructor.
    + exact (IH Hx).
    + apply Forall_app. split; [exact Hy|]. constructor; [exact Hyx|constructor].
Qed.

(** The number of repetitions to skip is a natural number [k], and
    repetition [k] of the element ends after [up]. *)
Lemma getSegmentNumber_closed (upq tsq dq : Q) :
  (0 < dq)%Q ->
  exists k : Z,
    getSegmentNumber (Fin upq) (Fin tsq) (Fin dq) = of_Z k
    /\ (0 <= k)%Z /\ (upq - dq < tsq + inject_Z k * dq)%Q.
Proof.
  intros Hd. unfold getSegmentNumber, gtb. simpl.
  destruct (Qltb 0 (upq + - tsq)) eqn:Hdiff; qprop.
  - assert (Hz : Qeq_bool dq 0 = false) by (qprop; lra).
    rewrite Hz. simpl.
    set (x := ((upq + - tsq) / dq)%Q).
    assert (Hx : (upq + - tsq == x * dq)%Q) by (unfold x; field; lra).
    exists (Qfloor x). split; [reflexivity|]. split.
    + change 0%Z with (Qfloor 0). apply Qfloor_resp_le.
      destruct (Qlt_le_dec x 0) as [Hneg|Hpos]; [|exact Hpos]. nra.
    + pose proof (Qlt_floor x) as Hfl. rewrite inject_Z_plus in Hfl.
      change (inject_Z 1) with 1%Q in Hfl. nra.
  - exists 0%Z. split; [reflexivity|]. split; [lia|].
    change (inject_Z 0) with 0%Q. lra.
Qed.

(** A repeat count that is a natural number is taken as it is. *)
Lemma getRepeat_closed (e : Entry) (nextSeg : option Entry) (rq : Q) (rz : Z) :
  r e = Fin rq -> (rq == inject_Z rz)%Q -> (0 <= rz)%Z ->
  exists rq', getRepeat e nextSeg = Fin rq' /\ (rq' == inject_Z rz)%Q.
Proof.
  intros Hr Hrq Hrz. unfold getRepeat, or_else, truthy. rewrite Hr.
  assert (Hnn : (0 <= inject_Z rz)%Q).
  { change 0%Q with (inject_Z 0). rewrite <- Zle_Qle. exact Hrz. }
  destruct (Qeq_bool rq 0) eqn:Hz; simpl; qprop.
  - exists 0%Q. split; [reflexivity|]. lra.
  - assert (Hlt : Qltb rq 0 = false) by (qprop; lra).
    rewrite Hlt. exists rq. split; [reflexivity|exact Hrq].
Qed.

Section While.
Context (repId : string) (index : Index) (upq toq M : Q).
Context (e : Entry) (tsq dq rq : Q) (rz : Z).
Context (Hts : ts e = Fin tsq) (Hd : d e = Fin dq) (Hdpos : (0 < dq)%Q)
  (HdM : (dq <= M)%Q) (Hrq : (rq == inject_Z rz)%Q).

(** The inner loop on a closed element, entered at repetition [k]: with
    fuel for the repetitions left it ends, at a repetition [k'] no further
    than one past the last, having pushed segments in ascending time, in the
    window, before repetition [k']. *)
Lemma whileBeforeTo_closed (fuel : nat) :
  forall (k : Z) (sq : Q) (number : num) (segments : list Segment),
    (sq == inject_Z k)%Q -> (0 <= k <= rz + 1)%Z ->
    (Z.to_nat (rz + 2 - k) <= fuel)%nat ->
    (upq - dq < tsq + sq * dq)%Q ->
    pushedSoFar repId upq toq M (tsq + sq * dq) segments ->
    exists (exit : Exit) (number' : num) (segments' : list Segment) (k' : Z),
      whileBeforeTo repId index (Fin toq) fuel e (Fin rq) (Fin sq) number segments
      = Some (exit, number', segments')
      /\ (k <= k' <= rz + 1)%Z
      /\ pushedSoFar repId upq toq M (tsq + inject_Z k' * dq) segments'.
Proof using Hts Hd Hdpos HdM Hrq.
  induction fuel as [|fuel IH]; intros k sq number segments Hsq Hk Hfuel Hup Hacc.
  - exfalso. lia.
  - simpl. rewrite Hts, Hd. simpl.
    assert (Hsame : pushedSoFar repId upq toq M (tsq + inject_Z k * dq) segments).
    { destruct Hacc as (Hs & Hc & Hb). repeat split; try assumption.
      eapply List.Forall_impl; [|exact Hb]. intros s (tq & Ht & Hlt).
      exists tq. split; [exact Ht|]. rewrite <- Hsq. exact Hlt. }
    destruct (Qltb (tsq + sq * dq) toq) eqn:Hto.
    2:{ exists Break, number, segments, k. repeat split; try lia; apply Hsame. }
    destruct (Qle_bool sq rq) eqn:Hrep.
    2:{ exists ContinueLoop, number, segments, k.
        repeat split; try lia; apply Hsame. }
    qprop.
    assert (Hkr : (k <= rz)%Z).
    { rewrite Zle_Qle. lra. }
    destruct (IH (k + 1)%Z (sq + 1)%Q (number + 1)%num
                (segments ++ [closedSegment repId index e (Fin (tsq + sq * dq))
                                (number + 1)%num]))
      as (exit & number' & segments' & k' & Hrun & Hk' & Hacc').
    + rewrite inject_Z_plus, Hsq. reflexivity.
    + lia.
    + lia.
    + nra.
    + destruct Hacc as (Hs & Hc & Hb). repeat split.
      * apply StronglySorted_snoc; [exact Hs|].
        eapply List.Forall_impl; [|exact Hb]. intros s (tq & Ht & Hlt).
        unfold timeLt. rewrite Ht. simpl. qprop. exact Hlt.
      * apply Forall_app. split; [exact Hc|]. constructor; [|constructor].
        split; [reflexivity|]. split; [simpl; discriminate|].
        exists (tsq + sq * dq)%Q. split; [reflexivity|]. split; lra.
      * apply Forall_app. split.
        -- eapply List.Forall_impl; [|exact Hb]. intros s (tq & Ht & Hlt).
           exists tq. split; [exact Ht|]. nra.
        -- constructor; [|constructor].
           exists (tsq + sq * dq)%Q. split; [reflexivity|]. nra.
    + exists exit, number', segments', k'. split; [exact Hrun|].
      split; [lia|exact Hacc'].
Qed.

End While.

Lemma entryFuel_closed (e : Entry) (rq : Q) (rz : Z) :
  r e = Fin rq -> (rq == inject_Z rz)%Q -> entryFuel e = Z.to_nat (rz + 2).
Proof.
  intros Hr Hrq. unfold entryFuel. rewrite Hr.
  rewrite (Qceiling_comp _ _ Hrq), Qceiling_Z. reflexivity.
Qed.

(** A closed element ends, and so starts, before the next one starts. *)
Lemma endsBefore_closed (e next : Entry) (tsq dq rq tn : Q) :
  ts e = Fin tsq -> d e = Fin dq -> r e = Fin rq -> (0 < dq)%Q ->
  endsBefore e next -> ts next = Fin tn ->
  (tsq + (rq + 1) * dq <= tn)%Q.
Proof.
  intros Hts Hd Hr Hpos Hends Hn.
  unfold endsBefore, getTimelineRangeEnd in Hends.
  rewrite Hts, Hd, Hr, Hn in Hends. simpl in Hends.
  assert (Hc : Qeq_bool dq (-1) = false) by (qprop; lra).
  rewrite Hc in Hends. simpl in Hends. qprop. exact Hends.
Qed.

Lemma isOpen_or_closed_start (e : Entry) :
  isClosed e \/ isOpen e -> exists tsq, ts e = Fin tsq.
Proof.
  intros [(tsq & ? & ? & ? & H & _)|(tsq & ? & H & _)]; exists tsq; exact H.
Qed.

Lemma below_weaken (B B' : Q) (segments : list Segment) :
  (B <= B')%Q -> Forall (below B) segments -> Forall (below B') segments.
Proof.
  intros HB H. eapply List.Forall_impl; [|exact H].
  intros s (tq & Ht & Hlt). exists tq. split; [exact Ht|lra].
Qed.

Section For.
Context (repId : string) (index : Index) (upq toq M : Q).

(** The outer loop on a timeline that keeps the invariants: with fuel for
    the largest repeat count it ends, and returns segments of the shape
    above. *)
Lemma forTimeline_closed (fuel : nat) (rest : list Entry) :
  forall (maxDuration number : num) (segments : list Segment),
    timelineInvariant rest ->
    Forall (fun e => forall dq, d e = Fin dq -> (dq <= M)%Q) rest ->
    (fuelBound rest <= fuel)%nat ->
    pushedBefore repId upq toq M rest segments ->
    exists out,
      forTimeline repId index (Fin upq) (Fin toq) fuel rest maxDuration number
        segments = Some out
      /\ resultShape repId index upq toq M rest out.
Proof.
  induction rest as [|e rest' IH];
    intros maxDuration number segments Hinv HM Hfuel (Hs & Hc & Hb).
  - exists segments. split; [reflexivity|].
    exists segments, []. rewrite app_nil_r. auto.
  - destruct Hinv as [He Hinv'].
    apply Forall_cons_1 in HM as [HeM HM'].
    simpl in Hfuel.
    assert (Hstart : exists tsq, ts e = Fin tsq).
    { destruct rest'; [apply isOpen_or_closed_start; exact He|].
      apply isOpen_or_closed_start. left. apply He. }
    destruct Hstart as [tsq Hts].
    specialize (Hb e tsq eq_refl Hts).
    assert (Hcase : isClosed e \/ (isOpen e /\ rest' = [])).
    { destruct rest'; [destruct He; auto|left; apply He]. }
    destruct Hcase as [(tsq' & dq & rq & rz & Hts' & Hd & Hr & Hrq & Hdpos & Hrz)
                      |[(tsq' & dq & Hts' & Hd & Hdq) ->]].
    + (* a closed element *)
      rewrite Hts in Hts'. injection Hts' as <-.
      simpl. rewrite Hd. simpl.
      assert (Hneg : Qltb dq 0 = false) by (qprop; lra).
      rewrite Hneg.
      destruct (getRepeat_closed e (head rest') rq rz Hr Hrq Hrz)
        as (rq' & Hrep & Hrq').
      rewrite Hrep, <- Hd, Hts, Hd.
      destruct (getSegmentNumber_closed upq tsq dq Hdpos) as (k & Hk & Hk0 & Hup).
      rewrite Hk.
      assert (Hnext : forall segments' (B : Q),
                StronglySorted timeLt segments' ->
                Forall (closedOk repId upq toq M) segments' ->
                Forall (below B) segments' ->
                (B <= tsq + (rq + 1) * dq)%Q ->
                pushedBefore repId upq toq M rest' segments').
      { intros segments' B Hs' Hc' Hb' HB. repeat split; try assumption.
        intros next tn Hhead Htn. destruct rest' as [|next' rest'']; [discriminate|].
        injection Hhead as ->. destruct He as [_ Hends].
        pose proof (endsBefore_closed e next tsq dq rq tn Hts Hd Hr Hdpos Hends Htn).
        apply (below_weaken B); [lra|exact Hb']. }
      assert (Hshape : forall out,
                resultShape repId index upq toq M rest' out ->
                resultShape repId index upq toq M (e :: rest') out).
      { intros out (cl & op & Hout & Hcs & Hcc & Hop).
        exists cl, op. repeat split; try assumption.
        destruct Hop as [->|(e0 & n0 & -> & Hlast & Hopen & Hbel)]; [left; reflexivity|].
        right. exists e0, n0. repeat split; try assumption.
        destruct rest'; [discriminate|]. exact Hlast. }
      assert (Hrq0 : (0 <= rq)%Q).
      { rewrite Hrq. change 0%Q with (inject_Z 0). rewrite <- Zle_Qle. exact Hrz. }
      unfold gtb, of_Z. simpl.
      destruct (Qltb rq' (inject_Z k)) eqn:Hskip.
      * (* the wanted time is after the element: skip it *)
        qprop.
        destruct (IH (Num.max maxDuration (Fin dq)) (number + 1 + Fin rq')%num
                    segments Hinv' HM') as (out & Hrun & Hout).
        { lia. }
        { apply (Hnext segments tsq Hs Hc Hb). nra. }
        exists out. split; [exact Hrun|exact (Hshape out Hout)].
      * (* some repetition may be wanted: the inner loop *)
        qprop.
        assert (Hkr : (k <= rz)%Z) by (rewrite Zle_Qle; lra).
        destruct (whileBeforeTo_closed repId index upq toq M e tsq dq rq' rz
                    Hts Hd Hdpos (HeM dq Hd) Hrq' fuel k (inject_Z k)
                    (number + 1)%num segments)
          as (exit & number' & segments' & k' & Hrun & Hk' & Hs' & Hc' & Hb').
        { reflexivity. }
        { lia. }
        { rewrite (entryFuel_closed e rq rz Hr Hrq) in Hfuel. lia. }
        { exact Hup. }
        { repeat split; try assumption.
          apply (below_weaken tsq); [|exact Hb].
          assert (0 <= inject_Z k)%Q
            by (change 0%Q with (inject_Z 0); rewrite <- Zle_Qle; exact Hk0).
          nra. }
        rewrite Hrun. destruct exit.
        -- exists segments'. split; [reflexivity|].
           exists segments', []. rewrite app_nil_r. auto.
        -- destruct (IH (Num.max maxDuration (Fin dq)) number' segments' Hinv' HM')
             as (out & Hrun' & Hout).
           { lia. }
           { apply (Hnext segments' (tsq + inject_Z k' * dq)%Q Hs' Hc' Hb').
             assert (inject_Z k' <= inject_Z rz + 1)%Q.
             { change 1%Q with (inject_Z 1). rewrite <- inject_Z_plus, <- Zle_Qle. lia. }
             nra. }
           exists out. split; [exact Hrun'|exact (Hshape out Hout)].
    + (* the open-ended last element *)
      rewrite Hts in Hts'. injection Hts' as <-.
      simpl. rewrite Hd, Hts.
      assert (Hneg : (Fin dq <? 0)%num = true) by (simpl; qprop; lra).
      rewrite Hneg.
      assert (Hopen : isOpen e) by (exists tsq, dq; auto).
      destruct ((Fin tsq + Num.max maxDuration (Fin dq) <? Fin toq)%num).
      * eexists. split; [reflexivity|].
        exists segments, [openSegment repId index e (number + 1)%num].
        repeat split; try assumption.
        right. exists e, (number + 1)%num. repeat split; try assumption.
        intros tsq' Hts'. rewrite Hts in Hts'. injection Hts' as <-. exact Hb.
      * exists segments. split; [reflexivity|].
        exists segments, []. rewrite app_nil_r. auto.
Qed.

End For.

Lemma timelineInvariant_drop (i : nat) (tl : list Entry) :
  timelineInvariant tl -> timelineInvariant (drop i tl).
Proof.
  revert tl. induction i as [|i IH]; intros tl H; [rewrite drop_0; exact H|].
  destruct tl as [|e tl]; [exact I|]. simpl. apply IH. apply H.
Qed.

Lemma fuelBound_drop (i : nat) (tl : list Entry) :
  (fuelBound (drop i tl) <= fuelBound tl)%nat.
Proof.
  revert tl. induction i as [|i IH]; intros tl; [rewrite drop_0; lia|].
  destruct tl as [|e tl]; [simpl; lia|]. simpl. specialize (IH tl). lia.
Qed.

Lemma last_drop_Some {A} (i : nat) (l : list A) (x : A) :
  list.last (drop i l) = Some x -> list.last l = Some x.
Proof.
  revert l. induction i as [|i IH]; intros l H; [rewrite drop_0 in H; exact H|].
  destruct l as [|y l]; [discriminate|]. simpl in H.
  specialize (IH l H). destruct l; [discriminate|exact IH].
Qed.

(** On a timeline that keeps the invariants the maximum duration is a
    finite number, not negative, that bounds every duration. *)
Lemma maxEntryDuration_bounds (tl : list Entry) :
  timelineInvariant tl ->
  exists M : Q,
    maxEntryDuration tl = Fin M /\ (0 <= M)%Q
    /\ Forall (fun e => forall dq, d e = Fin dq -> (dq <= M)%Q) tl.
Proof.
  induction tl as [|e tl IH]; intros H.
  - exists 0%Q. repeat split; [lra|constructor].
  - destruct H as [He H]. destruct (IH H) as (M' & HM' & Hpos & Hall).
    assert (Hd : exists dq, d e = Fin dq).
    { destruct tl as [|next tl].
      - destruct He as [(? & dq & ? & ? & ? & Hd & _)|(? & dq & ? & Hd & _)];
          exists dq; exact Hd.
      - destruct He as [(? & dq & ? & ? & ? & Hd & _) _]. exists dq; exact Hd. }
    destruct Hd as [dq Hd]. simpl. rewrite HM', Hd. simpl.
    destruct (Qle_bool dq M') eqn:Hle; qprop.
    + exists M'. repeat split; [exact Hpos|]. constructor; [|exact Hall].
      intros dq' Hd'. rewrite Hd in Hd'. injection Hd' as <-. exact Hle.
    + exists dq. repeat split; [lra|]. constructor.
      * intros dq' Hd'. rewrite Hd in Hd'. injection Hd' as <-. lra.
      * eapply List.Forall_impl; [|exact Hall]. intros e' He' dq' Hd'.
        specialize (He' dq' Hd'). lra.
Qed.

(** Segments named after their times, in strictly ascending time, have
    pairwise different ids. *)
Lemma ascending_times_distinct_ids (repId : string) (l : list Segment) :
  StronglySorted timeLt l ->
  Forall (fun s => id s = segmentId repId (time s)
                   /\ exists tq, time s = Fin tq) l ->
  List.NoDup (List.map id l).
Proof.
  induction 1 as [|x l Hl IH Hx]; intros Hn; simpl; [constructor|].
  apply Forall_cons_1 in Hn as [(Hidx & tx & Htx) Hn].
  constructor; [|exact (IH Hn)].
  intros Hin. apply in_map_iff in Hin as (y & Hid & Hy).
  rewrite Forall_forall in Hx, Hn.
  apply list_elem_of_In in Hy.
  destruct (Hn y Hy) as (Hidy & ty & Hty).
  specialize (Hx y Hy). unfold timeLt in Hx. rewrite Htx, Hty in Hx.
  simpl in Hx. qprop.
  rewrite Hidx, Hidy, Htx, Hty in Hid. unfold segmentId in Hid.
  apply append_inv_head, append_inv_head in Hid. simpl in Hid.
  apply Q_to_string_inj in Hid. lra.
Qed.

(** C3, as amended: on a timeline whose elements have finite starts,
    every one but possibly the last having a positive duration and a natural
    repeat count and ending, at [ts + (r+1)*d], no later than the next one
    starts, the last being such an element or open-ended ([d = -1]), and for
    bounds that are finite once in ticks, [getSegments] (with fuel for the
    largest repeat count) returns segments in strictly ascending time with
    pairwise different ids; every segment that has a duration starts in
    [[up - maxD, to)], where [up] and [to] are the bounds in ticks and [maxD]
    the maximum element duration; a segment without duration, pushed for the
    open-ended last element of a live timeline, can only come last, and
    starts where that element starts. *)
Theorem getSegments_sorted_distinct_in_window
  (fuel : nat) (repId : string) (index : Index) (_up _to : num) (upq toq : Q) :
  timelineInvariant (timeline index) ->
  normalizeRange index _up _to = (Fin upq, Fin toq) ->
  (fuelBound (timeline index) <= fuel)%nat ->
  exists segments : list Segment,
    getSegments fuel repId index _up _to = Some segments
    /\ StronglySorted timeLt segments
    /\ List.NoDup (List.map id segments)
    /\ Forall (fun s => duration s <> None ->
                       inWindow (Fin upq - maxEntryDuration (timeline index))%num
                         (Fin toq) s) segments
    /\ Forall (fun s => duration s = None ->
                       list.last segments = Some s
                       /\ exists e, list.last (timeline index) = Some e
                                    /\ isOpen e /\ time s = ts e) segments.
Proof.
  intros Hinv Hrange Hfuel.
  destruct (maxEntryDuration_bounds (timeline index) Hinv) as (M & HM & HMpos & HMall).
  unfold getSegments. rewrite Hrange.
  set (i := getSegmentIndex index (Fin upq)).
  destruct (forTimeline_closed repId index upq toq M fuel (drop i (timeline index))
              (initialMaxDuration (timeline index))
              (match startNumber index with Some n => n | None => 0 end - 1)%num [])
    as (out & Hrun & cl & op & Hout & Hs & Hc & Hop).
  { apply timelineInvariant_drop, Hinv. }
  { apply Forall_drop, HMall. }
  { pose proof (fuelBound_drop i (timeline index)). lia. }
  { repeat split; constructor. }
  exists out. split; [exact Hrun|].
  assert (Hnamed : Forall (fun s => id s = segmentId repId (time s)
                                    /\ exists tq, time s = Fin tq) cl).
  { eapply List.Forall_impl; [|exact Hc].
    intros s (Hid & _ & tq & Ht & _). split; [exact Hid|exists tq; exact Ht]. }
  assert (Hwin : Forall (fun s => duration s <> None ->
                   inWindow (Fin upq - maxEntryDuration (timeline index))%num
                     (Fin toq) s) cl).
  { eapply List.Forall_impl; [|exact Hc].
    intros s (_ & _ & tq & Ht & Hlo & Hhi) _. unfold inWindow.
    rewrite HM, Ht. simpl. split; qprop; lra. }
  assert (Hdur : Forall (fun s => duration s = None ->
                   list.last out = Some s
                   /\ exists e, list.last (timeline index) = Some e
                                /\ isOpen e /\ time s = ts e) cl).
  { eapply List.Forall_impl; [|exact Hc].
    intros s (_ & Hsome & _) Hnone. contradiction. }
  destruct Hop as [->|(e & n & -> & Hlast & Hopen & Hbel)].
  - rewrite app_nil_r in Hout. subst out. repeat split; try assumption.
    apply (ascending_times_distinct_ids repId); assumption.
  - subst out.
    destruct Hopen as (tsq & dq & Hts & Hd & Hdq).
    specialize (Hbel tsq Hts).
    assert (Hsorted : StronglySorted timeLt (cl ++ [openSegment repId index e n])).
    { apply StronglySorted_snoc; [exact Hs|].
      eapply List.Forall_impl; [|exact Hbel]. intros s (tq & Ht & Hlt).
      unfold timeLt. simpl. rewrite Ht, Hts. simpl. qprop. exact Hlt. }
    repeat split.
    + exact Hsorted.
    + apply (ascending_times_distinct_ids repId); [exact Hsorted|].
      apply Forall_app. split; [exact Hnamed|].
      constructor; [|constructor]. split; [reflexivity|].
      exists tsq. exact Hts.
    + apply Forall_app. split; [exact Hwin|].
      constructor; [|constructor]. intros Hne. simpl in Hne. contradiction.
    + apply Forall_app. split; [exact Hdur|].
      constructor; [|constructor]. intros _. split; [apply last_snoc|].
      exists e. split; [exact (last_drop_Some i _ e Hlast)|].
      split; [exists tsq, dq; auto|reflexivity].
Qed.

Lemma isClosed_closed (tsz dz rz : Z) :
  (0 < dz)%Z -> (0 <= rz)%Z -> isClosed (closed tsz dz rz).
Proof.
  intros Hd Hr. exists (inject_Z tsz), (inject_Z dz), (inject_Z rz), rz.
  repeat split; try reflexivity; try assumption.
  change 0%Q with (inject_Z 0). rewrite <- Zlt_Qlt. exact Hd.
Qed.

Lemma isOpen_closed (tsz rz : Z) : isOpen (closed tsz (-1) rz).
Proof. exists (inject_Z tsz), (inject_Z (-1)). repeat split. Qed.

Lemma liveIndex_invariant : timelineInvariant (timeline liveIndex).
Proof.
  simpl. repeat split.
  - apply isClosed_closed; lia.
  - right. apply isOpen_closed.
Qed.

Lemma mixedIndex_invariant : timelineInvariant (timeline mixedIndex).
Proof.
  simpl. repeat split; try (apply isClosed_closed; lia).
  right. apply isOpen_closed.
Qed.

(** C3, counterexample: the timeline [{ts: 0, d: 4, r: 0}, {ts: 4, d: -1}]
    keeps the invariants and its maximum duration is 4; asked for
    [[1000, 1010)], [getSegments] returns the open-ended segment, which
    starts at 4, before 1000 - 4. *)
Lemma getSegments_open_segment_before_window :
  timelineInvariant (timeline liveIndex)
  /\ maxEntryDuration (timeline liveIndex) = 4%num
  /\ option_map (List.map (fun s => (id s, time s, duration s)))
       (getSegments 2 "video" liveIndex 1000%num 1010%num)
     = Some [("video_4"%string, 4%num, None)]
  /\ (1000 - maxEntryDuration (timeline liveIndex) <=? 4)%num = false.
Proof.
  split; [exact liveIndex_invariant|]. repeat split; vm_compute; reflexivity.
Qed.

(** Why the elements must not overlap: on [{ts: 0, d: 4, r: 2}, {ts: 5,
    d: 4, r: 0}], whose starts increase but whose first element ends at 12,
    after the second starts, [getSegments] asked for [[0, 20)] answers the
    times 0, 4, 8, 5, which are not ascending. *)
Lemma getSegments_overlapping_elements_unsorted :
  option_map (List.map time)
    (getSegments 10 "video" overlappingIndex 0%num 20%num)
  = Some [0%num; 4%num; 8%num; 5%num]
  /\ ~ timelineInvariant (timeline overlappingIndex).
Proof.
  split; [vm_compute; reflexivity|].
  intros [[_ Hends] _]. vm_compute in Hends. discriminate.
Qed.

(** C3 on a timeline of three four-second segments, two three-second ones
    and an open-ended element, asked for [[5, 30)]. *)
Lemma getSegments_sorted_distinct_in_window_witness :
  exists segments : list Segment,
    getSegments 10 "video" mixedIndex 5%num 30%num = Some segments
    /\ StronglySorted timeLt segments
    /\ List.NoDup (List.map id segments)
    /\ Forall (fun s => duration s <> None ->
                       inWindow (Fin 5 - maxEntryDuration (timeline mixedIndex))%num
                         (Fin 30) s) segments
    /\ Forall (fun s => duration s = None ->
                       list.last segments = Some s
                       /\ exists e, list.last (timeline mixedIndex) = Some e
                                    /\ isOpen e /\ time s = ts e) segments.
Proof.
  apply (getSegments_sorted_distinct_in_window 10 "video" mixedIndex
           5%num 30%num 5 30).
  - exact mixedIndex_invariant.
  - reflexivity.
  - vm_compute. lia.
Defined.

(** What it returns there. *)
Lemma getSegments_mixedIndex :
  option_map (List.map (fun s => (id s, time s, duration s)))
    (getSegments 10 "video" mixedIndex 5%num 30%num)
  = Some [("video_4"%string, 4%num, Some 4%num);
          ("video_8"%string, 8%num, Some 4%num);
          ("video_12"%string, 12%num, Some 3%num);
          ("video_15"%string, 15%num, Some 3%num);
          ("video_18"%string, 18%num, None)].
Proof. vm_compute. reflexivity. Qed.

End GetSegmentsFacts.

(** ** The search in the timeline *)

Section SegmentIndex.
Import Timeline.

(** The bisection finds the boundary of a predicate that holds below it
    and fails from it on. *)
Lemma bisect_boundary (below : nat -> bool) (n low high : nat) :
  (low <= n <= high)%nat ->
  (forall j, (low <= j < n)%nat -> below j = true) ->
  (forall j, (n <= j < high)%nat -> below j = false) ->
  bisect below low high = n.
Proof.
  revert n. funelim (bisect below low high); intros m Hm Htrue Hfalse.
  - pose proof (mid_bounds low high l) as Hmid.
    destruct (below0 ((low + high) / 2)%nat) eqn:Hb.
    + apply H; [|intros j Hj; apply Htrue; lia|exact Hfalse].
      destruct (le_lt_dec m ((low + high) / 2)) as [Hle|Hlt]; [|lia].
      rewrite Hfalse in Hb by lia. discriminate.
    + apply H0; [|exact Htrue|intros j Hj; apply Hfalse; lia].
      destruct (le_lt_dec m ((low + high) / 2)) as [Hle|Hlt]; [lia|].
      rewrite Htrue in Hb by lia. discriminate.
  - lia.
Qed.

(** On a timeline that keeps the invariants the starts are finite and
    increase strictly. *)
Lemma timeline_starts_after_head (e : Entry) (rest : list Entry) :
  timelineInvariant (e :: rest) ->
  forall k ek, rest !! k = Some ek ->
    exists tq tk, ts e = Fin tq /\ ts ek = Fin tk /\ (tq < tk)%Q.
Proof.
  revert e. induction rest as [|next rest IH]; intros e Hinv k ek Hk;
    [discriminate|].
  destruct Hinv as [[(tq & dq & rq & rz & Hts & Hd & Hr & Hrq & Hdpos & Hrz) Hends]
                    Hinv'].
  assert (Hn : exists tn, ts next = Fin tn).
  { destruct Hinv' as [Hnext _]. destruct rest.
    - apply isOpen_or_closed_start. exact Hnext.
    - apply isOpen_or_closed_start. left. apply Hnext. }
  destruct Hn as [tn Htn].
  pose proof (endsBefore_closed e next tq dq rq tn Hts Hd Hr Hdpos Hends Htn) as Hle.
  assert (Hrq0 : (0 <= rq)%Q).
  { rewrite Hrq. change 0%Q with (inject_Z 0). rewrite <- Zle_Qle. exact Hrz. }
  destruct k as [|k].
  - injection Hk as <-. exists tq, tn. repeat split; try assumption. nra.
  - destruct (IH next Hinv' k ek Hk) as (tn' & tk & Htn' & Htk & Hlt).
    rewrite Htn in Htn'. injection Htn' as <-.
    exists tq, tk. repeat split; try assumption. nra.
Qed.

Lemma timeline_starts_increase (tl : list Entry) :
  timelineInvariant tl ->
  forall j k ej ek, (j < k)%nat -> tl !! j = Some ej -> tl !! k = Some ek ->
    exists tj tk, ts ej = Fin tj /\ ts ek = Fin tk /\ (tj < tk)%Q.
Proof.
  induction tl as [|e tl IH]; intros Hinv j k ej ek Hjk Hj Hk; [discriminate|].
  destruct k as [|k]; [lia|]. destruct j as [|j].
  - injection Hj as <-. exact (timeline_starts_after_head e tl Hinv k ek Hk).
  - apply (IH (proj2 Hinv) j k ej ek); [lia|exact Hj|exact Hk].
Qed.

(** [getSegmentIndex] answers the element whose start is strictly before
    the time while the next one, if any, does not start before it. *)
Lemma getSegmentIndex_after_start (index : Index) (x : Q) (i : nat) (e : Entry) :
  timelineInvariant (timeline index) ->
  timeline index !! i = Some e ->
  (ts e <? Fin x)%num = true ->
  (forall next, timeline index !! S i = Some next -> (ts next <? Fin x)%num = false) ->
  getSegmentIndex index (Fin x) = i.
Proof.
  intros Hinv Hi Hlt Hnext. unfold getSegmentIndex.
  rewrite (bisect_boundary _ (S i) 0 (length (timeline index))).
  - simpl. f_equal. lia.
  - apply lookup_lt_Some in Hi. lia.
  - intros j Hj. destruct (timeline index !! j) as [ej|] eqn:Hjl.
    + destruct (decide (j = i)) as [->|Hne].
      * rewrite Hi in Hjl. injection Hjl as <-. exact Hlt.
      * destruct (timeline_starts_increase _ Hinv j i ej e) as (tj & ti & Htj & Hti & Hji);
          [lia|exact Hjl|exact Hi|].
        rewrite Hti in Hlt. rewrite Htj. simpl in *. qprop. lra.
    + apply lookup_ge_None in Hjl. apply lookup_lt_Some in Hi. lia.
  - intros j Hj. destruct (timeline index !! j) as [ej|] eqn:Hjl; [|reflexivity].
    destruct (timeline index !! S i) as [next|] eqn:Hn.
    + specialize (Hnext next eq_refl).
      destruct (decide (j = S i)) as [->|Hne].
      * rewrite Hn in Hjl. injection Hjl as <-. exact Hnext.
      * destruct (timeline_starts_increase _ Hinv (S i) j next ej)
          as (tn & tj & Htn & Htj & Hnj); [lia|exact Hn|exact Hjl|].
        rewrite Htn in Hnext. rewrite Htj. simpl in *. qprop. lra.
    + apply lookup_ge_None in Hn. apply lookup_lt_Some in Hjl. lia.
Qed.

(** After the start of an element that is not the last, and not after its
    end, [checkDiscontinuity] answers the start of the next element, in
    seconds, when the time is less than a second before the end of the element
    and the next element does not start at that end, and -1 otherwise. *)
Lemma checkDiscontinuity_after_start
  (index : Index) (x sq : Q) (i : nat) (e next : Entry) :
  timelineInvariant (timeline index) ->
  timescale index = Some (Fin sq) -> (0 < sq)%Q -> (0 < x)%Q ->
  timeline index !! i = Some e -> timeline index !! S i = Some next ->
  (ts e <? Fin (x * sq))%num = true ->
  (Fin (x * sq) <=? getTimelineRangeEnd e)%num = true ->
  checkDiscontinuity index (Fin x)
  = if (getTimelineRangeEnd e - Fin (x * sq) <? Fin sq)%num
       && negb (getTimelineRangeEnd e =? ts next)%num
    then (ts next / Fin sq)%num
    else (-1)%num.
Proof.
  intros Hinv Hscale Hsq Hx Hi Hn Hstart Hend.
  unfold checkDiscontinuity. rewrite Hscale. simpl Num.mul.
  assert (Hpos : (Fin (x * sq) <=? 0)%num = false) by (simpl; qprop; nra).
  rewrite Hpos.
  assert (Hclosed : isClosed e /\ endsBefore e next).
  { clear - Hinv Hi Hn. revert i Hi Hn.
    induction (timeline index) as [|e0 tl IH]; intros i Hi Hn; [discriminate|].
    destruct i as [|i].
    - injection Hi as ->. destruct tl as [|n0 tl]; [discriminate|].
      injection Hn as ->. apply Hinv.
    - apply (IH (proj2 Hinv) i Hi Hn). }
  destruct Hclosed as [(tq & dq & rq & rz & Hts & Hd & Hr & Hrq & Hdpos & Hrz) Hends].
  assert (Hidx : getSegmentIndex index (Fin (x * sq)) = i).
  { apply (getSegmentIndex_after_start index (x * sq) i e Hinv Hi Hstart).
    intros next' Hn'. rewrite Hn in Hn'. injection Hn' as <-.
    unfold endsBefore in Hends.
    destruct (getTimelineRangeEnd e) as [| |en|], (ts next) as [| |tn|];
      simpl in *; try discriminate; try reflexivity.
    qprop. lra. }
  rewrite Hidx.
  assert (Hlen : (Z.of_nat (length (timeline index)) - 1 <=? Z.of_nat i)%Z = false).
  { apply lookup_lt_Some in Hn. apply Z.leb_gt. lia. }
  rewrite Hlen, Hi, Hn.
  assert (Hopen : (d e =? -1)%num = false).
  { rewrite Hd. simpl. qprop. lra. }
  rewrite Hopen. unfold geb. rewrite Hend.
  assert (Hge : (ts e <=? Fin (x * sq))%num = true).
  { rewrite Hts in *. simpl in *. qprop. lra. }
  rewrite Hge.
  destruct (getTimelineRangeEnd e =? ts next)%num; simpl;
    [rewrite andb_false_r; reflexivity|].
  rewrite andb_true_r. reflexivity.
Qed.

Lemma eqb_sym (a b : num) : (a =? b)%num = (b =? a)%num.
Proof.
  destruct a, b; simpl; try reflexivity. apply Qeq_bool_comm.
Qed.

(** There the code answers what the specification asks. *)
Lemma checkDiscontinuity_after_start_spec
  (index : Index) (x sq : Q) (i : nat) (e next : Entry) :
  timelineInvariant (timeline index) ->
  timescale index = Some (Fin sq) -> (0 < sq)%Q -> (0 < x)%Q ->
  timeline index !! i = Some e -> timeline index !! S i = Some next ->
  (ts e <? Fin (x * sq))%num = true ->
  (Fin (x * sq) <=? getTimelineRangeEnd e)%num = true ->
  checkDiscontinuity index (Fin x)
  = if spec_discontinuityAfter index (Fin (x * sq)) i
    then (ts next / Fin sq)%num
    else (-1)%num.
Proof.
  intros Hinv Hscale Hsq Hx Hi Hn Hstart Hend.
  rewrite (checkDiscontinuity_after_start index x sq i e next) by assumption.
  unfold spec_discontinuityAfter. rewrite Hscale, Hi, Hn.
  assert (Hne : (d e =? -1)%num = false).
  { unfold getTimelineRangeEnd in Hend.
    destruct (d e =? -1)%num eqn:Hd; [|reflexivity].
    destruct (ts e) as [| |a|]; simpl in *; try discriminate. qprop. lra. }
  assert (Hrange : getTimelineRangeEnd e = (ts e + (r e + 1) * d e)%num).
  { unfold getTimelineRangeEnd. rewrite Hne. reflexivity. }
  rewrite <- Hrange, Hend.
  assert (Hge : (ts e <=? Fin (x * sq))%num = true).
  { destruct (ts e) as [| |a|]; simpl in *; try discriminate; try reflexivity.
    qprop. lra. }
  rewrite Hge, (eqb_sym (ts next)). reflexivity.
Qed.

End SegmentIndex.

(* ================================================================== *)
(** * Further properties of the code                                   *)
(* ================================================================== *)

(** ** The logger *)

Section LoggerFacts.
Import Log.
Context (inherited : string -> bool).

Lemma own_None (l : list (string * num)) (key : string) :
  ~ In key (List.map fst l) -> own l key = None.
Proof.
  induction l as [|[k v] l IH]; intros H; [reflexivity|]. simpl in *.
  destruct (String.eqb_spec k key) as [E|E]; [exfalso; apply H; auto|].
  apply IH. intros Hin. apply H. auto.
Qed.

Lemma own_In (l : list (string * num)) (key : string) (n : num) :
  own l key = Some n -> In n (List.map snd l).
Proof.
  induction l as [|[k v] l IH]; intros H; [discriminate|]. simpl in *.
  destruct (String.eqb k key); [injection H as <-; auto|]. right. exact (IH H).
Qed.

(** X1: whatever the level asked for and whatever the logger was before,
    after [setLevel] the methods that print are the most severe ones: once
    one of [error], [warn], [info], [debug], in this order, is silent, those
    after it are silent too. *)
Theorem setLevel_silent_from_first_silent (levelStr : string) (this : Logger) :
  silentFromFirstSilent (methods (setLevel inherited levelStr this)).
Proof.
  unfold setLevel, lookup, methods.
  destruct (own LEVELS levelStr) as [n|] eqn:Hown.
  - assert (Hn : In n [0%num; 1%num; 2%num; 3%num; 4%num]).
    { exact (own_In LEVELS levelStr n Hown). }
    simpl in Hn.
    destruct Hn as [<-|[<-|[<-|[<-|[<-|[]]]]]]; vm_compute;
      repeat split; intros; try discriminate; repeat constructor.
  - destruct (inherited levelStr); vm_compute;
      repeat split; intros; repeat constructor.
Qed.

(** X2: [getLevel] after [setLevel] answers the level asked for when it is
    one of ERROR, WARNING, INFO and DEBUG, and "NONE" when it is "NONE" or
    any string that names no property of [LEVELS], its own or inherited. *)
Theorem setLevel_getLevel (levelStr : string) (this : Logger) :
  (In levelStr ["ERROR"; "WARNING"; "INFO"; "DEBUG"]%string ->
   getLevel (setLevel inherited levelStr this) = levelStr)
  /\ (levelStr = "NONE"%string
      \/ (~ In levelStr levelNames /\ inherited levelStr = false) ->
      getLevel (setLevel inherited levelStr this) = "NONE"%string).
Proof.
  split.
  - simpl. intros [<-|[<-|[<-|[<-|[]]]]]; reflexivity.
  - intros [->|[Hnot Hinh]]; [reflexivity|].
    unfold getLevel, setLevel, lookup. rewrite Hinh.
    rewrite (own_None LEVELS levelStr Hnot). reflexivity.
Qed.

(** X3: [setLevel] with a level name of [LEVELS] binds exactly the methods
    whose level is at most the level asked for, each to its method of the
    console ([debug] to [console.log]), and sets the others to [noop]. *)
Theorem setLevel_threshold (name : string) (n : num) (this : Logger) :
  In (name, n) LEVELS ->
  let l := setLevel inherited name this in
  error l = (if (1 <=? n)%num then console_error else noop)
  /\ warn l = (if (2 <=? n)%num then console_warn else noop)
  /\ info l = (if (3 <=? n)%num then console_info else noop)
  /\ debug l = (if (4 <=? n)%num then console_log else noop).
Proof.
  simpl. intros [[= <- <-]|[[= <- <-]|[[= <- <-]|[[= <- <-]|[[= <- <-]|[]]]]]];
    repeat split; reflexivity.
Qed.

(** X4: [setLevel] with the name of a property that [LEVELS] inherits, and
    that is no level, silences every method, and [getLevel] then answers that
    name, which is not a level. *)
Theorem setLevel_inherited_name (levelStr : string) (this : Logger) :
  ~ In levelStr levelNames -> inherited levelStr = true ->
  getLevel (setLevel inherited levelStr this) = levelStr
  /\ Forall (fun f => prints f = false) (methods (setLevel inherited levelStr this)).
Proof.
  intros Hnot Hinh. unfold getLevel, setLevel, lookup. rewrite Hinh.
  rewrite (own_None LEVELS levelStr Hnot). simpl. split; [reflexivity|]. repeat constructor.
Qed.

End LoggerFacts.

Section LoggerExamples.
Import Log.

Lemma setLevel_getLevel_witness :
  getLevel (setLevel inheritedName "INFO" logger) = "INFO"%string.
Proof.
  apply (proj1 (setLevel_getLevel inheritedName "INFO" logger)).
  simpl. tauto.
Defined.

Lemma setLevel_threshold_witness :
  let l := setLevel inheritedName "WARNING" logger in
  error l = console_error /\ warn l = console_warn
  /\ info l = noop /\ debug l = noop.
Proof.
  apply (setLevel_threshold inheritedName "WARNING" 2%num logger).
  simpl. tauto.
Defined.

Lemma setLevel_inherited_name_witness :
  getLevel (setLevel inheritedName "toString" logger) = "toString"%string
  /\ Forall (fun f => prints f = false)
       (methods (setLevel inheritedName "toString" logger)).
Proof.
  apply (setLevel_inherited_name inheritedName "toString" logger).
  - simpl. intros H. repeat (destruct H as [H|H]; [discriminate|]). exact H.
  - reflexivity.
Defined.

End LoggerExamples.

(** ** The search in the timeline, again *)

Section SegmentIndexFacts.
Import Timeline.

Lemma bisect_range (below : nat -> bool) (low high : nat) :
  (low <= high)%nat -> (low <= bisect below low high <= high)%nat.
Proof.
  funelim (bisect below low high); intros Hle.
  - pose proof (mid_bounds low high l) as Hmid.
    destruct (below0 ((low + high) / 2)%nat).
    + assert (((low + high) / 2 + 1 <= high)%nat) as Hm by lia.
      specialize (H Hm). lia.
    + assert ((low <= (low + high) / 2)%nat) as Hm by lia.
      specialize (H0 Hm). lia.
  - lia.
Qed.

(** X5: on a timeline that is not empty, whatever the order of its
    elements and whatever the time, [getSegmentIndex] answers the index of an
    element of the timeline. *)
Theorem getSegmentIndex_in_timeline (index : Index) (ts_ : num) :
  timeline index <> [] ->
  is_Some (timeline index !! getSegmentIndex index ts_).
Proof.
  intros Hne. apply lookup_lt_is_Some. unfold getSegmentIndex.
  match goal with
  | |- context [bisect ?f 0 ?h] =>
      pose proof (bisect_range f 0 h ltac:(lia)) as Hb; set (low := bisect f 0 h) in *
  end.
  assert (0 < length (timeline index))%nat.
  { destruct (timeline index); [contradiction|simpl; lia]. }
  destruct (0 <? low)%nat eqn:Hlow.
  - apply Nat.ltb_lt in Hlow. lia.
  - apply Nat.ltb_ge in Hlow. lia.
Qed.

(** A predicate on the indices below [len] that, once false, stays false,
    has a boundary. *)
Lemma antitone_boundary (f : nat -> bool) (len : nat) :
  (forall j k, (j < k < len)%nat -> f k = true -> f j = true) ->
  exists n, (n <= len)%nat
    /\ (forall j, (j < n)%nat -> f j = true)
    /\ (forall j, (n <= j < len)%nat -> f j = false).
Proof.
  induction len as [|m IH]; intros Hanti.
  - exists 0%nat. repeat split; intros; lia.
  - destruct IH as (n & Hn & Htrue & Hfalse).
    { intros j k Hjk. apply Hanti. lia. }
    destruct (f m) eqn:Hm.
    + exists (S m). repeat split; [lia| |intros; lia].
      intros j Hj. destruct (decide (j = m)) as [->|Hne]; [exact Hm|].
      apply (Hanti j m); [lia|exact Hm].
    + exists n. repeat split; [lia|exact Htrue|].
      intros j Hj. destruct (decide (j = m)) as [->|Hne]; [exact Hm|].
      apply Hfalse. lia.
Qed.

(** X6: on a timeline that keeps the invariants, [getSegmentIndex] answers
    the last element that starts strictly before the time, and element 0
    when none does: no element after the answer starts before the time, and
    an element that starts before the time is at the answer or before it,
    the answer starting before the time as well. *)
Theorem getSegmentIndex_last_before (index : Index) (x : Q) :
  timelineInvariant (timeline index) ->
  let i := getSegmentIndex index (Fin x) in
  (forall j e, (i < j)%nat -> timeline index !! j = Some e ->
     (ts e <? Fin x)%num = false)
  /\ (forall j e, timeline index !! j = Some e -> (ts e <? Fin x)%num = true ->
        (j <= i)%nat
        /\ exists ei, timeline index !! i = Some ei /\ (ts ei <? Fin x)%num = true).
Proof.
  intros Hinv. cbv zeta. unfold getSegmentIndex.
  set (below := fun mid : nat =>
                  match timeline index !! mid with
                  | Some e => (ts e <? Fin x)%num
                  | None => false
                  end).
  destruct (antitone_boundary below (length (timeline index)))
    as (n & Hn & Htrue & Hfalse).
  { intros j k Hjk Hk. unfold below in *.
    destruct (timeline index !! k) as [ek|] eqn:Ek; [|discriminate].
    destruct (lookup_lt_is_Some_2 (timeline index) j ltac:(lia)) as [ej Ej].
    rewrite Ej.
    destruct (timeline_starts_increase _ Hinv j k ej ek ltac:(lia) Ej Ek)
      as (tj & tk & Htj & Htk & Hlt).
    rewrite Htk in Hk. rewrite Htj. simpl in *. qprop. lra. }
  rewrite (bisect_boundary below n 0 (length (timeline index)));
    [|lia|intros; apply Htrue; lia|intros; apply Hfalse; lia].
  assert (Hbelow : forall j e, timeline index !! j = Some e ->
                     below j = (ts e <? Fin x)%num).
  { intros j e E. unfold below. rewrite E. reflexivity. }
  split.
  - intros j e Hj E. rewrite <- (Hbelow j e E). apply Hfalse.
    apply lookup_lt_Some in E.
    destruct (0 <? n)%nat eqn:H0; [apply Nat.ltb_lt in H0|apply Nat.ltb_ge in H0]; lia.
  - intros j e E Hlt. rewrite <- (Hbelow j e E) in Hlt.
    assert (Hjn : (j < n)%nat).
    { destruct (le_lt_dec n j) as [Hge|Hl]; [|exact Hl].
      apply lookup_lt_Some in E. rewrite Hfalse in Hlt by lia. discriminate. }
    assert (H0 : (0 <? n)%nat = true) by (apply Nat.ltb_lt; lia).
    rewrite H0. split; [lia|].
    destruct (lookup_lt_is_Some_2 (timeline index) (n - 1) ltac:(lia)) as [ei Ei].
    exists ei. split; [exact Ei|]. rewrite <- (Hbelow _ _ Ei). apply Htrue. lia.
Qed.

(** The repetition [getSegmentNumber] answers, for a positive duration. *)
Lemma getSegmentNumber_bounds (upq tsq dq : Q) :
  (0 < dq)%Q ->
  exists k : Z,
    getSegmentNumber (Fin upq) (Fin tsq) (Fin dq) = of_Z k
    /\ (0 <= k)%Z
    /\ ((upq <= tsq)%Q -> k = 0%Z)
    /\ ((tsq < upq)%Q ->
        (tsq + inject_Z k * dq <= upq)%Q /\ (upq < tsq + (inject_Z k + 1) * dq)%Q).
Proof.
  intros Hd. unfold getSegmentNumber, gtb. simpl.
  destruct (Qltb 0 (upq + - tsq)) eqn:Hdiff; qprop.
  - assert (Hz : Qeq_bool dq 0 = false) by (qprop; lra).
    rewrite Hz. simpl.
    set (y := ((upq + - tsq) / dq)%Q).
    assert (Hy : (upq + - tsq == y * dq)%Q) by (unfold y; field; lra).
    exists (Qfloor y).
    assert (Hy0 : (0 <= y)%Q).
    { destruct (Qlt_le_dec y 0) as [Hneg|Hpos]; [|exact Hpos]. nra. }
    pose proof (Qfloor_le y) as Hlo. pose proof (Qlt_floor y) as Hhi.
    rewrite inject_Z_plus in Hhi. change (inject_Z 1) with 1%Q in Hhi.
    repeat split.
    + change 0%Z with (Qfloor 0). apply Qfloor_resp_le. exact Hy0.
    + intros Hle. lra.
    + nra.
    + nra.
  - exists 0%Z. repeat split; try lia; intros; lra.
Qed.

(** X7: for a positive duration, [getSegmentNumber] answers a natural
    number [k]: 0 when the wanted time is not after the start of the element,
    and otherwise the repetition that holds the wanted time,
    [ts + k*d <= up < ts + (k+1)*d]. *)
Theorem getSegmentNumber_holds_wanted_time (upq tsq dq : Q) :
  (0 < dq)%Q ->
  exists k : Z,
    getSegmentNumber (Fin upq) (Fin tsq) (Fin dq) = of_Z k
    /\ (0 <= k)%Z
    /\ ((upq <= tsq)%Q -> k = 0%Z)
    /\ ((tsq < upq)%Q ->
        (tsq + inject_Z k * dq <= upq)%Q /\ (upq < tsq + (inject_Z k + 1) * dq)%Q).
Proof. exact (getSegmentNumber_bounds upq tsq dq). Qed.

End SegmentIndexFacts.

Section SegmentIndexExamples.
Import Timeline.

Lemma getSegmentIndex_in_timeline_witness :
  is_Some (timeline mixedIndex !! getSegmentIndex mixedIndex 13%num).
Proof.
  apply (getSegmentIndex_in_timeline mixedIndex 13%num). discriminate.
Defined.

Lemma getSegmentIndex_last_before_witness :
  let i := getSegmentIndex mixedIndex (Fin 13) in
  (forall j e, (i < j)%nat -> timeline mixedIndex !! j = Some e ->
     (ts e <? Fin 13)%num = false)
  /\ (forall j e, timeline mixedIndex !! j = Some e -> (ts e <? Fin 13)%num = true ->
        (j <= i)%nat
        /\ exists ei, timeline mixedIndex !! i = Some ei /\ (ts ei <? Fin 13)%num = true).
Proof.
  apply (getSegmentIndex_last_before mixedIndex 13). exact mixedIndex_invariant.
Defined.

Lemma getSegmentNumber_holds_wanted_time_witness :
  exists k : Z,
    getSegmentNumber (Fin 13) (Fin 0) (Fin 4) = of_Z k
    /\ (0 <= k)%Z
    /\ ((13 <= 0)%Q -> k = 0%Z)
    /\ ((0 < 13)%Q ->
        (0 + inject_Z k * 4 <= 13)%Q /\ (13 < 0 + (inject_Z k + 1) * 4)%Q).
Proof.
  apply (getSegmentNumber_holds_wanted_time 13 0 4). reflexivity.
Defined.

End SegmentIndexExamples.

(** ** Positions, refresh and discontinuities *)

Section PositionFacts.
Import Timeline.

Lemma timelineInvariant_consecutive (tl : list Entry) (i : nat) (e next : Entry) :
  timelineInvariant tl -> tl !! i = Some e -> tl !! S i = Some next ->
  isClosed e /\ endsBefore e next.
Proof.
  revert i. induction tl as [|e0 tl IH]; intros i Hinv Hi Hn; [discriminate|].
  destruct i as [|i].
  - injection Hi as ->. destruct tl as [|n0 tl]; [discriminate|].
    injection Hn as ->. apply Hinv.
  - apply (IH i (proj2 Hinv) Hi Hn).
Qed.

Lemma timelineInvariant_element (tl : list Entry) (i : nat) (e : Entry) :
  timelineInvariant tl -> tl !! i = Some e -> isClosed e \/ isOpen e.
Proof.
  revert i. induction tl as [|e0 tl IH]; intros i Hinv Hi; [discriminate|].
  destruct i as [|i].
  - injection Hi as ->. destruct tl; [apply Hinv|left; apply Hinv].
  - apply (IH i (proj2 Hinv) Hi).
Qed.

(** the end of a closed element *)
Lemma getTimelineRangeEnd_closed (e : Entry) (tsq dq rq : Q) :
  ts e = Fin tsq -> d e = Fin dq -> r e = Fin rq -> (0 < dq)%Q ->
  getTimelineRangeEnd e = Fin (tsq + (rq + 1) * dq).
Proof.
  intros Hts Hd Hr Hpos. unfold getTimelineRangeEnd. rewrite Hts, Hd, Hr. simpl.
  assert (Hc : Qeq_bool dq (-1) = false) by (qprop; lra).
  rewrite Hc. reflexivity.
Qed.

(** X8: on a timeline whose elements have positive durations and natural
    repeat counts and do not overlap (each ends, at [ts + (r+1)*d], no later
    than the next one starts; the last may be open-ended), with a timescale
    that is defined and positive, [checkDiscontinuity] at a finite time
    answers -1 or a time strictly after the time given: a discontinuity it
    reports is ahead. *)
Theorem checkDiscontinuity_ahead (index : Index) (x sq : Q) :
  timelineInvariant (timeline index) ->
  timescale index = Some (Fin sq) -> (0 < sq)%Q ->
  checkDiscontinuity index (Fin x) = (-1)%num
  \/ exists v : Q, checkDiscontinuity index (Fin x) = Fin v /\ (x < v)%Q.
Proof.
  intros Hinv Hscale Hsq. unfold checkDiscontinuity. rewrite Hscale. simpl Num.mul.
  destruct (Fin (x * sq) <=? 0)%num; [left; reflexivity|].
  destruct (Z.of_nat (length (timeline index)) - 1 <=?
            Z.of_nat (getSegmentIndex index (Fin (x * sq))))%Z;
    [left; reflexivity|].
  set (i := getSegmentIndex index (Fin (x * sq))).
  destruct (timeline index !! i) as [range|] eqn:Hi; [|left; reflexivity].
  destruct (timeline index !! S i) as [next|] eqn:Hn; [|left; reflexivity].
  destruct (d range =? -1)%num; [left; reflexivity|].
  destruct (timelineInvariant_consecutive _ i range next Hinv Hi Hn)
    as [(tq & dq & rq & rz & Hts & Hd & Hr & Hrq & Hdpos & Hrz) Hends].
  destruct (timelineInvariant_element _ (S i) next Hinv Hn) as [Hc|Ho].
  all: assert (Htn : exists tn, ts next = Fin tn)
         by (apply isOpen_or_closed_start; auto);
       destruct Htn as [tn Htn];
       pose proof (endsBefore_closed range next tq dq rq tn Hts Hd Hr Hdpos Hends Htn)
         as Hle;
       rewrite (getTimelineRangeEnd_closed range tq dq rq Hts Hd Hr Hdpos), Htn, Hts;
       unfold geb; simpl;
       destruct (negb (Qeq_bool (tq + (rq + 1) * dq) tn)) eqn:Hneq;
         [|left; reflexivity];
       destruct (Qle_bool tq (x * sq)); [|left; reflexivity];
       destruct (Qle_bool (x * sq) (tq + (rq + 1) * dq)) eqn:Hin;
         [|left; reflexivity];
       destruct (Qltb (tq + (rq + 1) * dq + - (x * sq)) sq); [|left; reflexivity];
       simpl;
       assert (Hz : Qeq_bool sq 0 = false) by (qprop; lra);
       rewrite Hz; right; exists (tn / sq)%Q; split; [reflexivity|];
       apply negb_true_iff in Hneq; qprop;
       apply Qlt_shift_div_l; [exact Hsq|lra].
Qed.

(** X9: on a timeline whose elements have positive durations and natural
    repeat counts and do not overlap (each ends, at [ts + (r+1)*d], no later
    than the next one starts; the last may be open-ended), with a timescale
    that is defined and positive: at a positive time strictly after the
    start of an element that is not the last, and not after its end,
    [checkDiscontinuity] answers the start of the next element, in seconds,
    when the time is less than a second before the end of the element and
    the next element does not start at that end, and -1 otherwise. *)
Theorem checkDiscontinuity_inside_element
  (index : Index) (x sq : Q) (i : nat) (e next : Entry) :
  timelineInvariant (timeline index) ->
  timescale index = Some (Fin sq) -> (0 < sq)%Q -> (0 < x)%Q ->
  timeline index !! i = Some e -> timeline index !! S i = Some next ->
  (ts e <? Fin (x * sq))%num = true ->
  (Fin (x * sq) <=? getTimelineRangeEnd e)%num = true ->
  checkDiscontinuity index (Fin x)
  = if (getTimelineRangeEnd e - Fin (x * sq) <? Fin sq)%num
       && negb (getTimelineRangeEnd e =? ts next)%num
    then (ts next / Fin sq)%num
    else (-1)%num.
Proof. exact (checkDiscontinuity_after_start index x sq i e next). Qed.

(** X10: [shouldRefresh] does not read [time] and [up], and it grows with
    [to]: with a timescale that is defined and positive and a presentation
    time offset that is missing or finite, once it answers true for an end it
    answers true for every later end, whatever the timeline and the two other
    arguments. *)
Theorem shouldRefresh_monotone
  (index : Index) (time up time' up' : num) (toq toq' sq : Q) :
  timescale index = Some (Fin sq) -> (0 < sq)%Q ->
  (presentationTimeOffset index = None
   \/ exists p : Q, presentationTimeOffset index = Some (Fin p)) ->
  (toq <= toq')%Q ->
  shouldRefresh index time up (Fin toq) = true ->
  shouldRefresh index time' up' (Fin toq') = true.
Proof.
  intros Hscale Hsq Hpto Hle. unfold shouldRefresh. rewrite Hscale. simpl opt_num.
  destruct (list.last (timeline index)) as [last|]; [|discriminate].
  match goal with
  | |- context [getTimelineRangeEnd ?e] => generalize (getTimelineRangeEnd e)
  end.
  intros lastEnd.
  destruct Hpto as [->|[p ->]]; destruct lastEnd as [| |E|]; simpl;
    try reflexivity; try discriminate;
    rewrite !negb_true_iff; intros H; qprop; nra.
Qed.

(** X11: on a timeline that keeps the invariants and is not empty, with a
    positive timescale, the first and the last position are numbers and the
    first is not after the last. *)
Theorem getFirstPosition_before_getLastPosition (index : Index) (sq : Q) :
  timelineInvariant (timeline index) ->
  timescale index = Some (Fin sq) -> (0 < sq)%Q ->
  timeline index <> [] ->
  exists first last : Q,
    getFirstPosition index = Some (Fin first)
    /\ getLastPosition index = Some (Fin last)
    /\ (first <= last)%Q.
Proof.
  intros Hinv Hscale Hsq Hne.
  unfold getFirstPosition, getLastPosition. rewrite Hscale. simpl opt_num.
  assert (Hz : Qeq_bool sq 0 = false) by (qprop; lra).
  destruct (timeline index) as [|e0 tl] eqn:Htl; [contradiction|].
  destruct (list.last (e0 :: tl)) as [el|] eqn:Hlast;
    [|apply last_None in Hlast; discriminate].
  assert (Hidx : (e0 :: tl) !! length tl = Some el).
  { rewrite last_lookup in Hlast. exact Hlast. }
  assert (H0 : exists t0, ts e0 = Fin t0).
  { apply isOpen_or_closed_start.
    apply (timelineInvariant_element (e0 :: tl) 0 e0 Hinv eq_refl). }
  destruct H0 as [t0 Ht0].
  assert (Hstart : exists tl_, ts el = Fin tl_ /\ (t0 <= tl_)%Q).
  { destruct tl as [|e1 tl'].
    - injection Hidx as <-. exists t0. split; [exact Ht0|lra].
    - destruct (timeline_starts_increase _ Hinv 0 (length (e1 :: tl')) e0 el)
        as (a & b & Ha & Hb & Hab); [simpl; lia|reflexivity|exact Hidx|].
      rewrite Ht0 in Ha. injection Ha as <-. exists b. split; [exact Hb|lra]. }
  destruct Hstart as (tq & Hts & Hle).
  rewrite Ht0. simpl. rewrite Hz.
  destruct (timelineInvariant_element _ _ el Hinv Hidx)
    as [(tq' & dq & rq & rz & Hts' & Hd & Hr & Hrq & Hdpos & Hrz)
       |(tq' & dq & Hts' & Hd & Hdq)];
    rewrite Hts in Hts'; injection Hts' as <-.
  - rewrite (getTimelineRangeEnd_closed el tq dq rq Hts Hd Hr Hdpos). simpl.
    rewrite Hz. eexists _, _. split; [reflexivity|]. split; [reflexivity|].
    assert (Hrq0 : (0 <= rq)%Q).
    { rewrite Hrq. change 0%Q with (inject_Z 0). rewrite <- Zle_Qle. exact Hrz. }
    apply Qle_shift_div_l; [exact Hsq|].
    assert (Hf : (t0 / sq * sq == t0)%Q) by (field; lra).
    rewrite Hf. nra.
  - unfold getTimelineRangeEnd. rewrite Hd, Hts. simpl.
    assert (Hm : Qeq_bool dq (-1) = true) by (qprop; exact Hdq).
    rewrite Hm. simpl. rewrite Hz.
    eexists _, _. split; [reflexivity|]. split; [reflexivity|].
    apply Qle_shift_div_l; [exact Hsq|].
    assert (Hf : (t0 / sq * sq == t0)%Q) by (field; lra).
    rewrite Hf. exact Hle.
Qed.

End PositionFacts.

Section PositionExamples.
Import Timeline.

Lemma gappedIndex_invariant : timelineInvariant (timeline gappedIndex).
Proof. simpl. repeat split; try (apply isClosed_closed; lia). left. apply isClosed_closed; lia. Qed.

Lemma checkDiscontinuity_ahead_witness :
  checkDiscontinuity gappedIndex (Fin (51 # 20)) = (-1)%num
  \/ exists v : Q, checkDiscontinuity gappedIndex (Fin (51 # 20)) = Fin v
                   /\ (51 # 20 < v)%Q.
Proof.
  apply (checkDiscontinuity_ahead gappedIndex (51 # 20) 10).
  - exact gappedIndex_invariant.
  - reflexivity.
  - reflexivity.
Defined.

Lemma checkDiscontinuity_inside_element_witness :
  checkDiscontinuity gappedIndex (Fin (51 # 20))
  = if (getTimelineRangeEnd (closed 25 1 0) - Fin ((51 # 20) * 10) <? Fin 10)%num
       && negb (getTimelineRangeEnd (closed 25 1 0) =? ts (closed 40 20 0))%num
    then (ts (closed 40 20 0) / Fin 10)%num
    else (-1)%num.
Proof.
  apply (checkDiscontinuity_inside_element gappedIndex (51 # 20) 10 1
           (closed 25 1 0) (closed 40 20 0));
    try reflexivity.
  exact gappedIndex_invariant.
Defined.

(** X10 on the timeline whose open-ended last element starts at 18: an
    end at 20 calls for a refresh, and so does an end at 30. *)
Lemma shouldRefresh_monotone_witness :
  shouldRefresh mixedIndex 0%num 0%num (Fin 30) = true.
Proof.
  apply (shouldRefresh_monotone mixedIndex 5%num 7%num 0%num 0%num 20 30 1);
    try reflexivity.
  - left. reflexivity.
  - vm_compute. discriminate.
Defined.

Lemma getFirstPosition_before_getLastPosition_witness :
  exists first last : Q,
    getFirstPosition mixedIndex = Some (Fin first)
    /\ getLastPosition mixedIndex = Some (Fin last)
    /\ (first <= last)%Q.
Proof.
  apply (getFirstPosition_before_getLastPosition mixedIndex 1);
    [exact mixedIndex_invariant|reflexivity|reflexivity|discriminate].
Defined.

End PositionExamples.

(** ** What [_addSegmentInfos] keeps *)

Section AddSegmentInfosInvariants.
Import Timeline.
Implicit Types (index : Index) (newSegment : NewSegment)
  (currentSegment : option CurrentSegment) (last : Entry).

Lemma endsBefore_same_start (e next next' : Entry) :
  ts next = ts next' -> endsBefore e next -> endsBefore e next'.
Proof. unfold endsBefore. intros ->. auto. Qed.

Lemma timelineInvariant_app (pre : list Entry) (e : Entry) (rest : list Entry) :
  timelineInvariant (pre ++ e :: rest)
  <-> chained pre e /\ timelineInvariant (e :: rest).
Proof.
  induction pre as [|p pre IH].
  - simpl. tauto.
  - change ((p :: pre) ++ e :: rest) with (p :: (pre ++ e :: rest)).
    cbn [timelineInvariant chained]. rewrite IH.
    destruct pre as [|p' pre']; simpl; tauto.
Qed.

Lemma chained_same_start (pre : list Entry) (next next' : Entry) :
  ts next = ts next' -> chained pre next -> chained pre next'.
Proof.
  intros Hts. induction pre as [|p pre IH]; [auto|].
  simpl. intros (Hc & He & Hch). repeat split; [exact Hc| |exact (IH Hch)].
  destruct pre; [exact (endsBefore_same_start p next next' Hts He)|exact He].
Qed.

Lemma isClosed_bump (e : Entry) : isClosed e -> isClosed (bump e).
Proof.
  intros (tq & dq & rq & rz & Hts & Hd & Hr & Hrq & Hdpos & Hrz).
  exists tq, dq, (rq + 1)%Q, (rz + 1)%Z. unfold bump. simpl. rewrite Hr.
  repeat split; try assumption; try lia.
  rewrite inject_Z_plus, Hrq. reflexivity.
Qed.

Lemma timelineEnd_snoc (pre : list Entry) (e : Entry) :
  timelineEnd (pre ++ [e]) = Some (getTimelineRangeEnd e).
Proof. unfold timelineEnd. rewrite last_snoc. reflexivity. Qed.



(** An append on a closed last element keeps the invariants and makes the
    timeline end later. *)
Lemma addSegmentInfos_append_invariants
  index newSegment currentSegment (b : bool) (index1 : Index) last
  (time duration : Q) :
  timelineInvariant (timeline index) ->
  list.last (timeline index) = Some last ->
  isClosed last ->
  scaledTime index newSegment = Fin time ->
  scaledDuration index newSegment = Fin duration ->
  (0 < duration)%Q ->
  shouldDeductNextSegment index newSegment currentSegment = false ->
  _addSegmentInfos index newSegment currentSegment = Some (b, index1) ->
  timelineInvariant (timeline index1)
  /\ (b = true ->
      exists oldEnd newEnd : Q,
        timelineEnd (timeline index) = Some (Fin oldEnd)
        /\ timelineEnd (timeline index1) = Some (Fin newEnd)
        /\ (oldEnd < newEnd)%Q).
Proof.
  intros Hinv Hlast Hclosed Ht Hdur Hpos Hmode Hcall.
  pose proof Hclosed as (tq & dq & rq & rz & Hts & Hd & Hr & Hrq & Hdpos & Hrz).
  assert (Hend : getTimelineRangeEnd last = Fin (tq + (rq + 1) * dq)).
  { apply getTimelineRangeEnd_closed; assumption. }
  assert (Hold : timelineEnd (timeline index) = Some (Fin (tq + (rq + 1) * dq))).
  { unfold timelineEnd. rewrite Hlast, Hend. reflexivity. }
  apply last_rev in Hlast as [before Hrev].
  assert (Htl : timeline index = rev before ++ [last]).
  { apply (f_equal (@rev Entry)) in Hrev. rewrite rev_involutive in Hrev.
    exact Hrev. }
  unfold _addSegmentInfos in Hcall. rewrite Hrev, Hmode, Ht, Hdur, Hend in Hcall.
  unfold geb in Hcall. simpl in Hcall.
  destruct (Qle_bool (tq + (rq + 1) * dq) time) eqn:Hge.
  2:{ injection Hcall as <- <-. split; [exact Hinv|discriminate]. }
  qprop. rewrite Htl in Hinv.
  assert (Hch : chained (rev before) last).
  { destruct (rev before) as [|p pre] eqn:E; [exact I|].
    rewrite <- E in *. apply timelineInvariant_app in Hinv. apply Hinv. }
  destruct (d last =? Fin duration)%num eqn:Hsame; injection Hcall as <- <-.
  - (* one more repetition *)
    split.
    + simpl. apply timelineInvariant_app.
      split; [apply (chained_same_start _ last); [reflexivity|exact Hch]|].
      simpl. split; [left; apply isClosed_bump; exact Hclosed|exact I].
    + intros _. exists (tq + (rq + 1) * dq)%Q, (tq + (rq + 1 + 1) * dq)%Q.
      split; [exact Hold|]. split.
      * simpl. rewrite timelineEnd_snoc. f_equal.
        apply getTimelineRangeEnd_closed; try assumption.
        unfold bump. simpl. rewrite Hr. reflexivity.
      * nra.
  - (* a new element *)
    assert (Hnew : isClosed (pushed (Fin duration) (Fin time))).
    { exists time, duration, 0%Q, 0%Z. repeat split; try assumption; try lia. }
    split.
    + simpl. rewrite Htl, <- app_assoc. simpl. apply timelineInvariant_app.
      split; [exact Hch|]. simpl. repeat split; try assumption.
      * unfold endsBefore. rewrite Hend. simpl. qprop. exact Hge.
      * left. exact Hnew.
    + intros _. exists (tq + (rq + 1) * dq)%Q, (time + (0 + 1) * duration)%Q.
      split; [exact Hold|]. split.
      * simpl. rewrite timelineEnd_snoc. f_equal.
        apply getTimelineRangeEnd_closed; try assumption; reflexivity.
      * nra.
Qed.

(** X13: appending a segment of positive duration to a timeline that keeps
    the invariants and whose last element is closed leaves a timeline that
    keeps the invariants; when the call returns true the timeline ends
    strictly later than it did. *)
Theorem addSegmentInfos_append_keeps_invariants
  index newSegment currentSegment (b : bool) (index1 : Index) last
  (time duration : Q) :
  timelineInvariant (timeline index) ->
  list.last (timeline index) = Some last ->
  isClosed last ->
  scaledTime index newSegment = Fin time ->
  scaledDuration index newSegment = Fin duration ->
  (0 < duration)%Q ->
  shouldDeductNextSegment index newSegment currentSegment = false ->
  _addSegmentInfos index newSegment currentSegment = Some (b, index1) ->
  timelineInvariant (timeline index1)
  /\ (b = true ->
      exists oldEnd newEnd : Q,
        timelineEnd (timeline index) = Some (Fin oldEnd)
        /\ timelineEnd (timeline index1) = Some (Fin newEnd)
        /\ (oldEnd < newEnd)%Q).
Proof. exact (addSegmentInfos_append_invariants index newSegment currentSegment b index1 last time duration). Qed.

(** X14: whatever its arguments, a call of [_addSegmentInfos] that returns
    never shrinks the timeline and adds one element at most, leaves every
    element but the last two as it was, and does not touch the timescale, the
    media, the start number or the presentation time offset. *)
Theorem addSegmentInfos_touches_the_end_only
  index newSegment currentSegment (b : bool) (index1 : Index) :
  _addSegmentInfos index newSegment currentSegment = Some (b, index1) ->
  (length (timeline index) <= length (timeline index1)
   <= S (length (timeline index)))%nat
  /\ (forall j, (j + 2 < length (timeline index))%nat ->
        timeline index1 !! j = timeline index !! j)
  /\ timescale index1 = timescale index
  /\ media index1 = media index
  /\ startNumber index1 = startNumber index
  /\ presentationTimeOffset index1 = presentationTimeOffset index.
Proof.
  intros Hcall. unfold _addSegmentInfos in Hcall.
  destruct (rev (timeline index)) as [|last before] eqn:Hrev; [discriminate|].
  assert (Htl : timeline index = rev before ++ [last]).
  { apply (f_equal (@rev Entry)) in Hrev. rewrite rev_involutive in Hrev.
    exact Hrev. }
  assert (Hsame : forall tl,
            (length (timeline index) <= length tl <= S (length (timeline index)))%nat ->
            (forall j, (j + 2 < length (timeline index))%nat ->
               tl !! j = timeline index !! j) ->
            (length (timeline index)
             <= length (timeline (with_timeline index tl))
             <= S (length (timeline index)))%nat
            /\ (forall j, (j + 2 < length (timeline index))%nat ->
                  timeline (with_timeline index tl) !! j = timeline index !! j)
            /\ timescale (with_timeline index tl) = timescale index
            /\ media (with_timeline index tl) = media index
            /\ startNumber (with_timeline index tl) = startNumber index
            /\ presentationTimeOffset (with_timeline index tl)
               = presentationTimeOffset index).
  { intros tl Hlen Hpre. simpl. repeat split; try lia; try exact Hpre. }
  assert (Hid : (length (timeline index) <= length (timeline index)
                 <= S (length (timeline index)))%nat
                /\ (forall j, (j + 2 < length (timeline index))%nat ->
                      timeline index !! j = timeline index !! j)
                /\ timescale index = timescale index /\ media index = media index
                /\ startNumber index = startNumber index
                /\ presentationTimeOffset index = presentationTimeOffset index).
  { repeat split; lia. }
  assert (Hpush : forall x, (forall j, (j + 2 < length (timeline index))%nat ->
                     (timeline index ++ [x]) !! j = timeline index !! j)).
  { intros x j Hj. apply lookup_app_l. lia. }
  destruct (shouldDeductNextSegment index newSegment currentSegment).
  - destruct (_ <=? 0)%num; [injection Hcall as <- <-; exact Hid|].
    destruct (d last =? -1)%num.
    + destruct before as [|prev before'].
      * injection Hcall as <- <-. apply Hsame.
        -- rewrite Htl. simpl. lia.
        -- intros j Hj. rewrite Htl in Hj. simpl in Hj. lia.
      * destruct (d prev =? _)%num; injection Hcall as <- <-; apply Hsame.
        -- rewrite Htl. simpl. rewrite !length_app. simpl. lia.
        -- intros j Hj. rewrite Htl in *. simpl in *.
           rewrite !length_app in Hj. simpl in Hj.
           rewrite <- !app_assoc. rewrite !lookup_app_l by lia. reflexivity.
        -- rewrite Htl. simpl. rewrite !length_app. simpl. lia.
        -- intros j Hj. rewrite Htl in *. simpl in *.
           rewrite !length_app in Hj. simpl in Hj.
           rewrite <- !app_assoc. rewrite !lookup_app_l by lia. reflexivity.
    + injection Hcall as <- <-. apply Hsame; [rewrite length_app; simpl; lia|].
      apply Hpush.
  - destruct (_ >=? _)%num; [|injection Hcall as <- <-; exact Hid].
    destruct (d last =? _)%num; injection Hcall as <- <-; apply Hsame.
    + rewrite Htl, !length_app. simpl. lia.
    + intros j Hj. rewrite Htl in *. rewrite length_app in Hj. simpl in Hj.
      rewrite !lookup_app_l by lia. reflexivity.
    + rewrite length_app. simpl. lia.
    + apply Hpush.
Qed.

End AddSegmentInfosInvariants.

Section AddSegmentInfosExamples.
Import Timeline.


(** X13: a second four-second segment appended to a timeline of one. *)
Lemma addSegmentInfos_append_keeps_invariants_witness :
  timelineInvariant (timeline (indexOf 1 [closed 0 4 1]))
  /\ (true = true ->
      exists oldEnd newEnd : Q,
        timelineEnd (timeline (indexOf 1 [closed 0 4 0])) = Some (Fin oldEnd)
        /\ timelineEnd (timeline (indexOf 1 [closed 0 4 1])) = Some (Fin newEnd)
        /\ (oldEnd < newEnd)%Q).
Proof.
  apply (addSegmentInfos_append_keeps_invariants (indexOf 1 [closed 0 4 0])
           (newSeg 4 4) None true (indexOf 1 [closed 0 4 1]) (closed 0 4 0) 4 4);
    try reflexivity.
  - simpl. split; [left; apply isClosed_closed; lia|exact I].
  - apply isClosed_closed; lia.
Defined.

(** X14 on the deduction above. *)
Lemma addSegmentInfos_touches_the_end_only_witness :
  (length (timeline liveIndex)
   <= length (timeline (indexOf 1 [closed 0 4 1; closed 8 (-1) 0]))
   <= S (length (timeline liveIndex)))%nat
  /\ (forall j, (j + 2 < length (timeline liveIndex))%nat ->
        timeline (indexOf 1 [closed 0 4 1; closed 8 (-1) 0]) !! j
        = timeline liveIndex !! j)
  /\ timescale (indexOf 1 [closed 0 4 1; closed 8 (-1) 0]) = timescale liveIndex
  /\ media (indexOf 1 [closed 0 4 1; closed 8 (-1) 0]) = media liveIndex
  /\ startNumber (indexOf 1 [closed 0 4 1; closed 8 (-1) 0]) = startNumber liveIndex
  /\ presentationTimeOffset (indexOf 1 [closed 0 4 1; closed 8 (-1) 0])
     = presentationTimeOffset liveIndex.
Proof.
  apply (addSegmentInfos_touches_the_end_only liveIndex (newSeg 4 4)
           (Some (curSeg 4)) true).
  reflexivity.
Defined.

End AddSegmentInfosExamples.

(** ** [getSegments] misses no repetition *)

Section Completeness.
Import Timeline.
Context (repId : string) (index : Index) (upq toq : Q).

Local Ltac case_if H :=
  match type of H with
  | context [if ?c then _ else _] => destruct c
  end.

(** The loops only add to the segments they are given. *)
Lemma whileBeforeTo_prefix (fuel : nat) (e : Entry) (repeat : num) :
  forall (segmentNumber number : num) (segments : list Segment)
         (exit : Exit) (number' : num) (segments' : list Segment),
    whileBeforeTo repId index (Fin toq) fuel e repeat segmentNumber number segments
    = Some (exit, number', segments') ->
    exists more, segments' = segments ++ more.
Proof.
  induction fuel as [|fuel IH]; intros sn number segments exit n' segs' H;
    [discriminate|].
  cbn [whileBeforeTo] in H. case_if H; [case_if H|].
  - apply IH in H as [more ->]. rewrite <- app_assoc. eexists. reflexivity.
  - injection H as _ _ <-. exists []. rewrite app_nil_r. reflexivity.
  - injection H as _ _ <-. exists []. rewrite app_nil_r. reflexivity.
Qed.

Lemma forTimeline_prefix (fuel : nat) (rest : list Entry) :
  forall (maxDuration number : num) (segments out : list Segment),
    forTimeline repId index (Fin upq) (Fin toq) fuel rest maxDuration number segments
    = Some out ->
    exists more, out = segments ++ more.
Proof.
  induction rest as [|e rest' IH]; intros maxD number segments out H.
  - injection H as <-. exists []. rewrite app_nil_r. reflexivity.
  - cbn [forTimeline] in H. case_if H.
    + case_if H; injection H as <-; eexists; [reflexivity|].
      rewrite app_nil_r. reflexivity.
    + case_if H; [exact (IH _ _ _ _ H)|].
      match type of H with
      | context [whileBeforeTo ?a ?b ?c ?f ?g ?h ?i ?j ?k] =>
          destruct (whileBeforeTo a b c f g h i j k) as [[[exit n'] segs']|] eqn:Hw
      end; [|discriminate].
      apply whileBeforeTo_prefix in Hw as [more ->].
      destruct exit.
      * injection H as <-. exists more. reflexivity.
      * apply IH in H as [more' ->]. rewrite <- app_assoc. eexists. reflexivity.
Qed.

Section Element.
Context (e : Entry) (tsq dq rq : Q).
Context (Hts : ts e = Fin tsq) (Hd : d e = Fin dq) (Hdpos : (0 < dq)%Q).

(** Entered at a repetition no later than [k], the inner loop pushes
    repetition [k] when it is no later than the repeat count and starts
    before the end of the window. *)
Lemma whileBeforeTo_pushes (fuel : nat) :
  forall (k0 k : Z) (sq : Q) (number : num) (segments : list Segment)
         (exit : Exit) (number' : num) (segments' : list Segment),
    (sq == inject_Z k0)%Q -> (k0 <= k)%Z -> (inject_Z k <= rq)%Q ->
    (tsq + inject_Z k * dq < toq)%Q ->
    whileBeforeTo repId index (Fin toq) fuel e (Fin rq) (Fin sq) number segments
    = Some (exit, number', segments') ->
    exists (s : Segment) (tq : Q),
      List.In s segments' /\ time s = Fin tq
      /\ (tq == tsq + inject_Z k * dq)%Q /\ duration s = Some (Fin dq).
Proof using Hts Hd Hdpos.
  induction fuel as [|fuel IH];
    intros k0 k sq number segments exit n' segs' Hsq Hk0 Hkr Hto H; [discriminate|].
  simpl in H. rewrite Hts, Hd in H. simpl in H.
  assert (Hle : (inject_Z k0 <= inject_Z k)%Q) by (rewrite <- Zle_Qle; exact Hk0).
  assert (Hin : Qltb (tsq + sq * dq) toq = true) by (qprop; nra).
  assert (Hrep : Qle_bool sq rq = true) by (qprop; lra).
  rewrite Hin, Hrep in H.
  destruct (Z.eq_dec k0 k) as [->|Hne].
  - apply whileBeforeTo_prefix in H as [more ->].
    exists (closedSegment repId index e (Fin (tsq + sq * dq)) (number + 1)%num),
      (tsq + sq * dq)%Q.
    split; [apply in_or_app; left; apply in_or_app; right; left; reflexivity|].
    split; [reflexivity|]. split; [rewrite Hsq; reflexivity|].
    simpl. rewrite Hd. reflexivity.
  - apply (IH (k0 + 1)%Z k (sq + 1)%Q _ _ _ _ _) in H; try assumption; [|lia].
    rewrite inject_Z_plus, Hsq. reflexivity.
Qed.

(** The inner loop breaks out of the outer one only at a repetition, at most
    one past the last, that does not start before the end of the window. *)
Lemma whileBeforeTo_break (fuel : nat) :
  forall (sq : Q) (number : num) (segments : list Segment)
         (number' : num) (segments' : list Segment),
    (sq <= rq + 1)%Q ->
    whileBeforeTo repId index (Fin toq) fuel e (Fin rq) (Fin sq) number segments
    = Some (Break, number', segments') ->
    exists sq', (sq' <= rq + 1)%Q /\ (toq <= tsq + sq' * dq)%Q.
Proof using Hts Hd Hdpos.
  induction fuel as [|fuel IH]; intros sq number segments n' segs' Hsq H;
    [discriminate|].
  simpl in H. rewrite Hts, Hd in H. simpl in H.
  destruct (Qltb (tsq + sq * dq) toq) eqn:Hin.
  - destruct (Qle_bool sq rq) eqn:Hrep; [|discriminate].
    qprop. apply IH in H; [exact H|lra].
  - qprop. exists sq. split; [exact Hsq|exact Hin].
Qed.

End Element.

(** The outer loop, on what is left of a timeline that keeps the
    invariants, pushes every repetition of a closed element that ends after
    the start of the window and starts before its end. *)
Lemma forTimeline_complete (fuel : nat) (rest : list Entry) :
  timelineInvariant rest ->
  forall (j : nat) (e : Entry) (tsq dq rq : Q) (k : Z),
    rest !! j = Some e ->
    ts e = Fin tsq -> d e = Fin dq -> r e = Fin rq -> (0 < dq)%Q ->
    (0 <= k)%Z -> (inject_Z k <= rq)%Q ->
    (upq < tsq + (inject_Z k + 1) * dq)%Q ->
    (tsq + inject_Z k * dq < toq)%Q ->
    forall (maxDuration number : num) (segments out : list Segment),
      forTimeline repId index (Fin upq) (Fin toq) fuel rest maxDuration number
        segments = Some out ->
      exists (s : Segment) (tq : Q),
        List.In s out /\ time s = Fin tq
        /\ (tq == tsq + inject_Z k * dq)%Q /\ duration s = Some (Fin dq).
Proof.
  induction rest as [|e0 rest' IH];
    intros Hinv j e tsq dq rq k Hj Hts Hd Hr Hdpos Hk Hkr Hup Hto
           maxD number segments out; [discriminate|].
  assert (Hk0 : (0 <= inject_Z k)%Q).
  { change 0%Q with (inject_Z 0). rewrite <- Zle_Qle. exact Hk. }
  destruct j as [|j].
  - (* the element itself *)
    injection Hj as ->.
    assert (Hcl : isClosed e).
    { destruct (timelineInvariant_element (e :: rest') 0 e Hinv eq_refl)
        as [H|(t' & d' & _ & Hd' & Hdq)]; [exact H|].
      rewrite Hd in Hd'. injection Hd' as <-. lra. }
    destruct Hcl as (tsq' & dq' & rq' & rz & Hts' & Hd' & Hr' & Hrq & _ & Hrz).
    rewrite Hts in Hts'. rewrite Hd in Hd'. rewrite Hr in Hr'.
    injection Hts' as <-. injection Hd' as <-. injection Hr' as <-.
    simpl. rewrite Hd. simpl.
    assert (Hneg : Qltb dq 0 = false) by (qprop; lra).
    rewrite Hneg.
    destruct (getRepeat_closed e (head rest') rq rz Hr Hrq Hrz)
      as (rq' & Hrep & Hrq').
    rewrite Hrep, <- Hd, Hts, Hd.
    destruct (getSegmentNumber_bounds upq tsq dq Hdpos) as (k0 & Hn & Hk00 & Hlow & Hhigh).
    rewrite Hn.
    assert (Hk0k : (k0 <= k)%Z).
    { destruct (Qlt_le_dec tsq upq) as [Hlt|Hge].
      - destruct (Hhigh Hlt) as [Hlo _].
        assert (inject_Z k0 < inject_Z (k + 1))%Q as Hq.
        { rewrite inject_Z_plus. change (inject_Z 1) with 1%Q. nra. }
        rewrite <- Zlt_Qlt in Hq. lia.
      - rewrite (Hlow Hge). exact Hk. }
    assert (Hk0q : (inject_Z k0 <= inject_Z k)%Q) by (rewrite <- Zle_Qle; exact Hk0k).
    unfold gtb, of_Z. simpl.
    assert (Hskip : Qltb rq' (inject_Z k0) = false) by (qprop; lra).
    rewrite Hskip.
    match goal with
    | |- context [whileBeforeTo ?a ?b ?c ?f ?g ?h ?i ?j ?k] =>
        destruct (whileBeforeTo a b c f g h i j k) as [[[exit n'] segs']|] eqn:Hw
    end; [|discriminate].
    destruct (whileBeforeTo_pushes e tsq dq rq' Hts Hd Hdpos fuel k0 k (inject_Z k0)
                _ _ _ _ _ ltac:(reflexivity) Hk0k ltac:(lra) Hto Hw)
      as (s & tq & Hin & Ht & Htq & Hdur).
    destruct exit.
    + intros [= <-]. exists s, tq. auto.
    + intros Hrun. apply forTimeline_prefix in Hrun as [more ->].
      exists s, tq. split; [apply in_or_app; left; exact Hin|auto].
  - (* an element further on *)
    destruct rest' as [|next rest'']; [discriminate|].
    destruct Hinv as [[(t0 & d0 & r0 & rz0 & Hts0 & Hd0 & Hr0 & Hrq0 & Hd0pos & Hrz0)
                         Hends] Hinv'].
    simpl in Hj.
    assert (Hn : exists tn, ts next = Fin tn /\ (tn <= tsq)%Q).
    { destruct j as [|j].
      - injection Hj as ->. exists tsq. split; [exact Hts|lra].
      - destruct (timeline_starts_increase (next :: rest'') Hinv' 0 (S j) next e
                    ltac:(lia) eq_refl Hj) as (tn & te & Htn & Hte & Hlt).
        rewrite Hts in Hte. injection Hte as <-. exists tn. split; [exact Htn|lra]. }
    destruct Hn as (tn & Htn & Hle).
    pose proof (endsBefore_closed e0 next t0 d0 r0 tn Hts0 Hd0 Hr0 Hd0pos Hends Htn)
      as Hend.
    simpl. rewrite Hd0. simpl.
    assert (Hneg : Qltb d0 0 = false) by (qprop; lra).
    rewrite Hneg.
    destruct (getRepeat_closed e0 (Some next) r0 rz0 Hr0 Hrq0 Hrz0)
      as (r0' & Hrep & Hrq0').
    rewrite Hrep, <- Hd0, Hts0, Hd0.
    destruct (getSegmentNumber_bounds upq t0 d0 Hd0pos) as (k0 & Hnum & _).
    rewrite Hnum. unfold gtb, of_Z. simpl.
    destruct (Qltb r0' (inject_Z k0)) eqn:Hskip.
    + intros Hrun.
      exact (IH Hinv' j e tsq dq rq k Hj Hts Hd Hr Hdpos Hk Hkr Hup Hto _ _ _ _ Hrun).
    + qprop.
      match goal with
      | |- context [whileBeforeTo ?a ?b ?c ?f ?g ?h ?i ?j ?k] =>
          destruct (whileBeforeTo a b c f g h i j k) as [[[exit n'] segs']|] eqn:Hw
      end; [|discriminate].
      destruct exit.
      * exfalso.
        destruct (whileBeforeTo_break e0 t0 d0 r0' Hts0 Hd0 Hd0pos fuel (inject_Z k0)
                    _ _ _ _ ltac:(lra) Hw) as (sq' & Hsq' & Hbreak).
        nra.
      * intros Hrun.
        exact (IH Hinv' j e tsq dq rq k Hj Hts Hd Hr Hdpos Hk Hkr Hup Hto _ _ _ _ Hrun).
Qed.

End Completeness.

Section CompletenessTop.
Import Timeline.

(** When it is not 0, the answer of [getSegmentIndex] starts strictly
    before the time. *)
Lemma getSegmentIndex_positive (index : Index) (x : Q) :
  timelineInvariant (timeline index) ->
  (0 < getSegmentIndex index (Fin x))%nat ->
  exists e, timeline index !! getSegmentIndex index (Fin x) = Some e
            /\ (ts e <? Fin x)%num = true.
Proof.
  intros Hinv. unfold getSegmentIndex.
  set (below := fun mid : nat =>
                  match timeline index !! mid with
                  | Some e => (ts e <? Fin x)%num
                  | None => false
                  end).
  destruct (antitone_boundary below (length (timeline index)))
    as (n & Hn & Htrue & Hfalse).
  { intros j k Hjk Hk. unfold below in *.
    destruct (timeline index !! k) as [ek|] eqn:Ek; [|discriminate].
    destruct (lookup_lt_is_Some_2 (timeline index) j ltac:(lia)) as [ej Ej].
    rewrite Ej.
    destruct (timeline_starts_increase _ Hinv j k ej ek ltac:(lia) Ej Ek)
      as (tj & tk & Htj & Htk & Hlt).
    rewrite Htk in Hk. rewrite Htj. simpl in *. qprop. lra. }
  rewrite (bisect_boundary below n 0 (length (timeline index)));
    [|lia|intros; apply Htrue; lia|intros; apply Hfalse; lia].
  destruct (0 <? n)%nat eqn:H0;
    [apply Nat.ltb_lt in H0|apply Nat.ltb_ge in H0; intros; lia].
  intros Hpos.
  destruct (lookup_lt_is_Some_2 (timeline index) (n - 1) ltac:(lia)) as [ei Ei].
  exists ei. split; [exact Ei|].
  pose proof (Htrue (n - 1)%nat ltac:(lia)) as Hb. unfold below in Hb.
  rewrite Ei in Hb. exact Hb.
Qed.

(** Every repetition of a closed element that overlaps the window is
    returned. *)
Lemma getSegments_holds_repetition
  (fuel : nat) (repId : string) (index : Index) (_up _to : num) (upq toq : Q)
  (i : nat) (e : Entry) (tsq dq rq : Q) (k : Z) :
  timelineInvariant (timeline index) ->
  normalizeRange index _up _to = (Fin upq, Fin toq) ->
  (fuelBound (timeline index) <= fuel)%nat ->
  timeline index !! i = Some e ->
  ts e = Fin tsq -> d e = Fin dq -> r e = Fin rq -> (0 < dq)%Q ->
  (0 <= k)%Z -> (inject_Z k <= rq)%Q ->
  (upq < tsq + (inject_Z k + 1) * dq)%Q ->
  (tsq + inject_Z k * dq < toq)%Q ->
  exists segments : list Segment,
    getSegments fuel repId index _up _to = Some segments
    /\ exists (s : Segment) (tq : Q),
         List.In s segments /\ time s = Fin tq
         /\ (tq == tsq + inject_Z k * dq)%Q /\ duration s = Some (Fin dq).
Proof.
  intros Hinv Hrange Hfuel Hi Hts Hd Hr Hdpos Hk Hkr Hup Hto.
  destruct (maxEntryDuration_bounds (timeline index) Hinv) as (M & HM & HMpos & HMall).
  unfold getSegments. rewrite Hrange.
  set (i0 := getSegmentIndex index (Fin upq)).
  destruct (forTimeline_closed repId index upq toq M fuel (drop i0 (timeline index))
              (initialMaxDuration (timeline index))
              (match startNumber index with Some n => n | None => 0 end - 1)%num [])
    as (out & Hrun & _).
  { apply timelineInvariant_drop, Hinv. }
  { apply Forall_drop, HMall. }
  { pose proof (fuelBound_drop i0 (timeline index)). lia. }
  { repeat split; constructor. }
  exists out. split; [exact Hrun|].
  assert (Hi0 : (i0 <= i)%nat).
  { destruct (le_lt_dec i0 i) as [Hle|Hlt]; [exact Hle|]. exfalso.
    destruct (getSegmentIndex_positive index upq Hinv ltac:(fold i0; lia))
      as (e0 & He0 & Hbefore).
    fold i0 in He0.
    destruct (lookup_lt_is_Some_2 (timeline index) (S i)) as [next Hnext].
    { apply lookup_lt_Some in He0. lia. }
    destruct (timelineInvariant_consecutive _ i e next Hinv Hi Hnext) as [_ Hends].
    destruct (timeline_starts_increase _ Hinv i (S i) e next ltac:(lia) Hi Hnext)
      as (te & tn & Hte & Htn & _).
    pose proof (endsBefore_closed e next tsq dq rq tn Hts Hd Hr Hdpos Hends Htn) as Hend.
    assert (Hn0 : exists t0, ts e0 = Fin t0 /\ (tn <= t0)%Q).
    { destruct (decide (S i = i0)) as [Heq|Hne].
      - rewrite Heq, He0 in Hnext. injection Hnext as ->.
        exists tn. split; [exact Htn|lra].
      - destruct (timeline_starts_increase _ Hinv (S i) i0 next e0 ltac:(lia)
                    Hnext He0) as (tn' & t0 & Htn' & Ht0 & Hlt').
        rewrite Htn in Htn'. injection Htn' as <-.
        exists t0. split; [exact Ht0|lra]. }
    destruct Hn0 as (t0 & Ht0 & Hle0).
    rewrite Ht0 in Hbefore. simpl in Hbefore. qprop. nra. }
  eapply (forTimeline_complete repId index upq toq fuel (drop i0 (timeline index))
            (timelineInvariant_drop i0 _ Hinv) (i - i0) e tsq dq rq k);
    [|exact Hts|exact Hd|exact Hr|exact Hdpos|exact Hk|exact Hkr|exact Hup|exact Hto
     |exact Hrun].
  rewrite lookup_drop. replace (i0 + (i - i0))%nat with i by lia. exact Hi.
Qed.

(** X15: on a timeline whose elements have positive durations and natural
    repeat counts and do not overlap (each ends, at [ts + (r+1)*d], no later
    than the next one starts; the last may be open-ended), for bounds that
    are finite once in ticks and with fuel for the largest repeat count,
    [getSegments] misses nothing: for every element of positive duration and
    every repetition [k] of it, from 0 to its repeat count, that ends
    strictly after [up] and starts strictly before [to] (in ticks), the
    segments returned hold one that starts at [ts + k*d], with the duration
    of the element. *)
Theorem getSegments_complete
  (fuel : nat) (repId : string) (index : Index) (_up _to : num) (upq toq : Q)
  (i : nat) (e : Entry) (tsq dq rq : Q) (k : Z) :
  timelineInvariant (timeline index) ->
  normalizeRange index _up _to = (Fin upq, Fin toq) ->
  (fuelBound (timeline index) <= fuel)%nat ->
  timeline index !! i = Some e ->
  ts e = Fin tsq -> d e = Fin dq -> r e = Fin rq -> (0 < dq)%Q ->
  (0 <= k)%Z -> (inject_Z k <= rq)%Q ->
  (upq < tsq + (inject_Z k + 1) * dq)%Q ->
  (tsq + inject_Z k * dq < toq)%Q ->
  exists segments : list Segment,
    getSegments fuel repId index _up _to = Some segments
    /\ exists (s : Segment) (tq : Q),
         List.In s segments /\ time s = Fin tq
         /\ (tq == tsq + inject_Z k * dq)%Q /\ duration s = Some (Fin dq).
Proof. exact (getSegments_holds_repetition fuel repId index _up _to upq toq i e tsq dq rq k). Qed.

End CompletenessTop.

Section CompletenessExamples.
Import Timeline.

(** X15: the first of the three-second segments, asked for [[5, 14)]. *)
Lemma getSegments_complete_witness :
  exists segments : list Segment,
    getSegments 10 "video" mixedIndex 5%num 14%num = Some segments
    /\ exists (s : Segment) (tq : Q),
         List.In s segments /\ time s = Fin tq
         /\ (tq == 12 + inject_Z 0 * 3)%Q /\ duration s = Some (Fin 3).
Proof.
  apply (getSegments_complete 10 "video" mixedIndex 5%num 14%num 5 14 1
           (closed 12 3 1) 12 3 1 0); try reflexivity.
  - exact mixedIndex_invariant.
  - vm_compute. lia.
  - vm_compute. discriminate.
Defined.

End CompletenessExamples.

(** ** What the garbage collector removes *)

Section CollectedRanges.
Import Ranges Buffer.

Lemma selectOuter_In (ts gcGap : num) (l : list Range) (r : Range) :
  List.In r (selectOuter ts gcGap l) -> List.In r l.
Proof.
  induction l as [|x l IH]; simpl; [auto|].
  destruct (_ <? _)%num; [|destruct (_ >? _)%num]; simpl; intuition.
Qed.

Lemma selectGCedRanges_spares (timing : Timing) (t gap : Q) (r : Range) :
  ts timing = Fin t -> (0 < gap)%Q ->
  List.In r (selectGCedRanges timing (Fin gap)) ->
  isPointInRange r (Fin t) = false.
Proof.
  intros Hts Hgap Hin. unfold selectGCedRanges in Hin. rewrite Hts in Hin.
  apply in_app_or in Hin as [Hout|Hinner].
  - apply selectOuter_In in Hout. unfold getOuterRanges in Hout.
    apply filter_In in Hout as [_ Hout]. apply negb_true_iff in Hout. exact Hout.
  - unfold selectInner in Hinner.
    destruct (getRange (buffered timing) (Fin t)) as [inner|]; [|contradiction].
    apply in_app_or in Hinner as [H|H].
    + destruct (_ >? _)%num; [|contradiction]. destruct H as [<-|[]].
      unfold isPointInRange. apply andb_false_iff. right. simpl. qprop. lra.
    + destruct (_ <? _)%num; [|contradiction]. destruct H as [<-|[]].
      unfold isPointInRange. apply andb_false_iff. left. simpl. qprop. lra.
Qed.

(** X16: whatever is buffered, no interval the garbage collector hands to
    the source buffer for removal holds the playback position. *)
Theorem gcRanges_spares_position (timing : Timing) (t : Q) (r : Range) :
  ts timing = Fin t -> List.In r (gcRanges timing) ->
  isPointInRange r (Fin t) = false.
Proof.
  intros Hts Hin. unfold gcRanges in Hin.
  destruct (selectGCedRanges timing GC_GAP_CALM) as [|x l] eqn:Hcalm.
  - apply (selectGCedRanges_spares timing t (inject_Z 30) r Hts); [reflexivity|].
    exact Hin.
  - rewrite <- Hcalm in Hin.
    apply (selectGCedRanges_spares timing t (inject_Z 240) r Hts); [reflexivity|].
    exact Hin.
Qed.

(** X17: what is cut out of the range being played is not empty, lies
    inside that range and is at least the gap away from the playback
    position, before it or after it. *)
Theorem selectInner_cuts_far_from_position
  (t gap s e : Q) (inner r : Range) :
  (0 < gap)%Q -> start inner = Fin s -> end_ inner = Fin e ->
  isPointInRange inner (Fin t) = true ->
  List.In r (selectInner (Fin t) (Fin gap) (Some inner)) ->
  exists rs re : Q,
    start r = Fin rs /\ end_ r = Fin re
    /\ (s <= rs)%Q /\ (rs < re)%Q /\ (re <= e)%Q
    /\ ((re <= t - gap)%Q \/ (t + gap <= rs)%Q).
Proof.
  intros Hgap Hs He Hpoint Hin. unfold isPointInRange in Hpoint.
  rewrite Hs, He in Hpoint. apply andb_true_iff in Hpoint as [Hlo Hhi].
  simpl in Hlo, Hhi. unfold selectInner in Hin. rewrite Hs, He in Hin.
  apply in_app_or in Hin as [H|H].
  - unfold gtb in H. simpl in H.
    destruct (Qltb s (t + - gap)) eqn:Hcut; [|contradiction].
    destruct H as [<-|[]]. exists s, (t + - gap)%Q. simpl. qprop.
    repeat split; try reflexivity; lra.
  - simpl in H.
    destruct (Qltb (t + gap) e) eqn:Hcut; [|contradiction].
    destruct H as [<-|[]]. exists (t + gap)%Q, e. simpl. qprop.
    repeat split; try reflexivity; lra.
Qed.

Lemma gtb_nonnegative (x p : num) :
  (0 <=? p)%num = true -> (x >? p)%num = true -> (0 <=? x)%num = true.
Proof.
  destruct x as [| |x|], p as [| |p|]; simpl; try discriminate; try reflexivity.
  unfold gtb. simpl. intros. qprop. lra.
Qed.

(** X18: the padding [getSegmentsListToInject] adds to the timestamp is
    never negative and never [NaN]; when none of our own ranges holds the
    timestamp it is 0, or lies between the low and the high water mark. *)
Theorem timestampPadding_bounds (bufferType : string) (representationBitrate : num)
  (ranges buffered : BufferedRanges) (timestamp : num) :
  (0 <=? timestampPadding bufferType representationBitrate ranges buffered timestamp)%num
  = true
  /\ (getRange ranges timestamp = None ->
      timestampPadding bufferType representationBitrate ranges buffered timestamp
      = 0%num
      \/ ((LOW_WATER_MARK_PAD bufferType
           <=? timestampPadding bufferType representationBitrate ranges buffered
                 timestamp)%num = true
          /\ (timestampPadding bufferType representationBitrate ranges buffered
                timestamp
              <=? HIGH_WATER_MARK_PAD bufferType)%num = true)).
Proof.
  unfold timestampPadding.
  set (bufferGap := getGap buffered timestamp).
  set (pad := if (bufferGap >? LOW_WATER_MARK_PAD bufferType)%num
                 && (bufferGap <? PInf)%num
              then Num.min bufferGap (HIGH_WATER_MARK_PAD bufferType)
              else 0%num).
  assert (Hpad : (0 <=? pad)%num = true
                 /\ (pad = 0%num
                     \/ ((LOW_WATER_MARK_PAD bufferType <=? pad)%num = true
                         /\ (pad <=? HIGH_WATER_MARK_PAD bufferType)%num = true))).
  { unfold pad, LOW_WATER_MARK_PAD, HIGH_WATER_MARK_PAD.
    destruct (String.eqb bufferType "video");
      destruct bufferGap as [| |g|]; simpl; auto; unfold gtb; simpl;
      match goal with
      | |- context [Qltb ?a g] => destruct (Qltb a g) eqn:Hlow
      end; simpl; auto;
      match goal with
      | |- context [Qle_bool g ?b] => destruct (Qle_bool g b) eqn:Hhigh
      end; simpl; qprop; (split; [qprop; lra|right; split; qprop; lra]). }
  destruct Hpad as [H0 Hrange].
  destruct (getRange ranges timestamp) as [currentRange|].
  - split; [|discriminate].
    destruct (match bitrate currentRange with
              | Some b => (b =? representationBitrate)%num
              | None => false
              end); [|exact H0].
    destruct (_ >? pad)%num eqn:Hgt; [|exact H0].
    exact (gtb_nonnegative _ pad H0 Hgt).
  - split; [exact H0|]. intros _. exact Hrange.
Qed.

End CollectedRanges.

Section CollectedRangesExamples.
Import Ranges Buffer Scheduler.

(** X16: the position, 300 s, is not in [[540, 700)]. *)
Lemma gcRanges_spares_position_witness :
  isPointInRange (cleaned 540%num 700%num) (Fin 300) = false.
Proof.
  apply (gcRanges_spares_position wideRangeTiming 300 (cleaned 540%num 700%num)).
  - reflexivity.
  - right. left. reflexivity.
Defined.

(** X17 on the same cut. *)
Lemma selectInner_cuts_far_from_position_witness :
  exists rs re : Q,
    start (cleaned 540%num 700%num) = Fin rs /\ end_ (cleaned 540%num 700%num) = Fin re
    /\ (0 <= rs)%Q /\ (rs < re)%Q /\ (re <= 700)%Q
    /\ ((re <= 300 - 240)%Q \/ (300 + 240 <= rs)%Q).
Proof.
  apply (selectInner_cuts_far_from_position 300 240 0 700
           {| start := 0%num; end_ := 700%num; bitrate := Some 1000%num |}
           (cleaned 540%num 700%num)); try reflexivity.
  right. left. reflexivity.
Defined.

End CollectedRangesExamples.

(** ** The retry after a collection *)

Section CollectAndRetry.
Import Ranges Buffer Scheduler.
Context {I : Type}.
Implicit Types (timing : Timing) (blob : string) (infos : I).

(** X19: when the append fails on the quota and the collector finds no
    range to remove, the append is not tried again: no error is raised and
    the segment's infos are not emitted. *)
Theorem appendSegment_nothing_to_collect timing blob infos
  (err : SinkError) (rest : list (option SinkError)) :
  String.eqb (name err) "QuotaExceededError" = true ->
  gcRanges timing = [] ->
  runAppend timing blob infos (Some err :: rest) = (None, [Appended blob]).
Proof.
  intros Hname Hgc.
  unfold runAppend, appendSegment, Rx.mapTo, Rx.map, Rx.catch. simpl.
  rewrite Hname.
  unfold Rx.flatMap, bufferGarbageCollector, Rx.flatMap, Rx.of_.
  rewrite Hgc. reflexivity.
Qed.

Lemma concatAll_step blob infos (r0 : Range) (l : list Range)
  (script : list (option SinkError)) (tr : list (Event I)) :
  Rx.concatAll (List.map lockedRemoveBuffer (r0 :: l))
    (fun _ : unit => lockedAppendBuffer blob (fun _ : unit => subscriber infos))
    (mkWorld (None :: None :: script) tr)
  = Rx.concatAll (List.map lockedRemoveBuffer l)
      (fun _ : unit => lockedAppendBuffer blob (fun _ : unit => subscriber infos))
      (mkWorld script (tr ++ collected blob infos r0)).
Proof. simpl. unfold Rx.concat. simpl. rewrite <- !app_assoc. reflexivity. Qed.

Lemma concatAll_removals blob infos (err2 : SinkError)
  (rest : list (option SinkError)) :
  forall (j : nat) (l : list Range) (r : Range) (tr : list (Event I)),
    l !! j = Some r ->
    Rx.concatAll (List.map lockedRemoveBuffer l)
      (fun _ : unit => lockedAppendBuffer blob (fun _ : unit => subscriber infos))
      (mkWorld (replicate (2 * j) None ++ Some err2 :: rest) tr)
    = (Some err2,
       mkWorld rest
         (tr ++ flat_map (collected blob infos) (take j l)
             ++ [Removed (start r) (end_ r)]))
    /\ Rx.concatAll (List.map lockedRemoveBuffer l)
         (fun _ : unit => lockedAppendBuffer blob (fun _ : unit => subscriber infos))
         (mkWorld (replicate (2 * j + 1) None ++ Some err2 :: rest) tr)
       = (Some err2,
          mkWorld rest
            (tr ++ flat_map (collected blob infos) (take j l)
                ++ [Removed (start r) (end_ r); Appended blob])).
Proof.
  induction j as [|j IH]; intros l r tr Hj; destruct l as [|r0 l]; try discriminate.
  - injection Hj as ->.
    split; simpl; unfold Rx.concat; simpl; rewrite <- ?app_assoc; reflexivity.
  - simpl in Hj. destruct (IH l r (tr ++ collected blob infos r0) Hj) as [H1 H2].
    replace (2 * S j + 1)%nat with (S (S (2 * j + 1))) by lia.
    replace (2 * S j)%nat with (S (S (2 * j))) by lia.
    cbn [replicate app]. rewrite !concatAll_step, H1, H2.
    cbn [take flat_map]. rewrite <- !app_assoc. split; reflexivity.
Qed.

(** After an append that failed on the quota, what is left to run is the
    removals, each followed by the append. *)
Lemma runAppend_quota timing blob infos (err : SinkError)
  (script : list (option SinkError)) :
  String.eqb (name err) "QuotaExceededError" = true ->
  runAppend timing blob infos (Some err :: script)
  = (let (res, w) :=
       Rx.concatAll (List.map lockedRemoveBuffer (gcRanges timing))
         (fun _ : unit => lockedAppendBuffer blob (fun _ : unit => subscriber infos))
         (mkWorld script [Appended blob])
     in (res, trace w)).
Proof.
  intros Hname.
  unfold runAppend, appendSegment, Rx.mapTo, Rx.map, Rx.catch. simpl.
  rewrite Hname. reflexivity.
Qed.

(** X20: when the append fails on the quota, the collector removes its
    ranges one after the other and the append is tried again after each; the
    first removal or retry that fails ends it: its error is propagated and
    no later range is removed. *)
Theorem appendSegment_collection_failure timing blob infos
  (err err2 : SinkError) (rest : list (option SinkError)) (j : nat) (r : Range) :
  String.eqb (name err) "QuotaExceededError" = true ->
  gcRanges timing !! j = Some r ->
  runAppend timing blob infos
    (Some err :: replicate (2 * j) None ++ Some err2 :: rest)
  = (Some err2,
     Appended blob :: flat_map (collected blob infos) (take j (gcRanges timing))
       ++ [Removed (start r) (end_ r)])
  /\ runAppend timing blob infos
       (Some err :: replicate (2 * j + 1) None ++ Some err2 :: rest)
     = (Some err2,
        Appended blob :: flat_map (collected blob infos) (take j (gcRanges timing))
          ++ [Removed (start r) (end_ r); Appended blob]).
Proof.
  intros Hname Hj.
  destruct (concatAll_removals blob infos err2 rest j (gcRanges timing) r
              [Appended blob] Hj) as [H1 H2].
  rewrite !(runAppend_quota timing blob infos err _ Hname), H1, H2.
  split; reflexivity.
Qed.

End CollectAndRetry.

Section CollectAndRetryExamples.
Import Ranges Buffer Scheduler.

(** X19 on a buffer that holds 30 s at most on either side of the
    position. *)
Lemma appendSegment_nothing_to_collect_witness :
  runAppend smallRangeTiming "blob" tt [Some quotaExceededError; None]
  = (None, [Appended "blob"]).
Proof.
  apply (appendSegment_nothing_to_collect smallRangeTiming "blob" tt
           quotaExceededError [None]); reflexivity.
Defined.

(** X20: the removal of the second of two cuts fails. *)
Lemma appendSegment_collection_failure_witness :
  runAppend wideRangeTiming "blob" tt
    (Some quotaExceededError :: replicate (2 * 1) None ++ [Some quotaExceeded])
  = (Some quotaExceeded,
     Appended "blob" :: flat_map (collected "blob" tt) (take 1 (gcRanges wideRangeTiming))
       ++ [Removed 540%num 700%num])
  /\ runAppend wideRangeTiming "blob" tt
       (Some quotaExceededError :: replicate (2 * 1 + 1) None ++ [Some quotaExceeded])
     = (Some quotaExceeded,
        Appended "blob" :: flat_map (collected "blob" tt) (take 1 (gcRanges wideRangeTiming))
          ++ [Removed 540%num 700%num; Appended "blob"]).
Proof.
  apply (appendSegment_collection_failure wideRangeTiming "blob" tt
           quotaExceededError quotaExceeded [] 1 (cleaned 540%num 700%num));
    reflexivity.
Defined.

End CollectAndRetryExamples.

(** ** The ABR manager: where a manual bitrate set early ends up *)

Section ManagerInitialBitrate.
Import Js ABR.
Context (__DEV__ : bool).

(** X24: for one of the four known types, a bitrate given to
    [setManualBitrate] before the chooser of that type exists is handed to
    the chooser, when [get$] then creates it, as the [initialBitrate] of its
    constructor's argument. *)
Theorem setManualBitrate_becomes_initial_bitrate
  (this : ABRManager) (type : string) (bitrate : value) :
  knownType type ->
  _choosers this !! type = None ->
  exists (this1 this2 : ABRManager) (chooser : RepresentationChooser),
    setManualBitrate __DEV__ this type bitrate = Some this1
    /\ get_ __DEV__ this1 type = Some this2
    /\ _choosers this2 !! type = Some chooser
    /\ initialBitrate chooser = bitrate.
Proof.
  intros Hknown E. unfold setManualBitrate, get_.
  rewrite (assertType_known __DEV__ type _ Hknown), E.
  eexists. eexists. eexists. split; [reflexivity|].
  rewrite (assertType_known __DEV__ type _ Hknown).
  unfold lazilyAttachChooser. simpl. rewrite E.
  split; [reflexivity|]. simpl. split; [apply lookup_insert_eq|].
  unfold createChooser, get. simpl. rewrite lookup_insert_eq. reflexivity.
Qed.

End ManagerInitialBitrate.

Section ManagerInitialBitrateExamples.
Import Js ABR.

(** X24 on a manager built without options: 1000 set for "video". *)
Lemma setManualBitrate_becomes_initial_bitrate_witness :
  exists (this1 this2 : ABRManager) (chooser : RepresentationChooser),
    setManualBitrate true (new emptyOptions) "video" (VNum 1000%num) = Some this1
    /\ get_ true this1 "video" = Some this2
    /\ _choosers this2 !! "video" = Some chooser
    /\ initialBitrate chooser = VNum 1000%num.
Proof.
  apply (setManualBitrate_becomes_initial_bitrate true (new emptyOptions) "video"
           (VNum 1000%num)).
  - right. left. reflexivity.
  - reflexivity.
Defined.

End ManagerInitialBitrateExamples.

(** ** The seekings and the live gap *)

Section SeekingsAndLiveGap.
Import Js Timings.
Context (getMaximumBufferPosition : Manifest -> num).

Lemma get_augmentTiming_js (manifest : Manifest) (timing : obj) (k : string) :
  k <> "liveGap"%string ->
  get (augmentTiming_js getMaximumBufferPosition manifest timing) k = get timing k.
Proof.
  intros Hk. unfold get, augmentTiming_js.
  rewrite lookup_insert_ne by congruence. rewrite objectAssign_empty. reflexivity.
Qed.

Lemma get_augmentTiming_ts (manifest : Manifest) (timing : obj) (k : string) :
  k <> "liveGap"%string ->
  get (augmentTiming_ts getMaximumBufferPosition manifest timing) k = get timing k.
Proof.
  intros Hk. unfold get, augmentTiming_ts, objectAssign.
  rewrite lookup_union, lookup_singleton_ne by congruence.
  destruct (timing !! k); reflexivity.
Qed.

Lemma filter_map_same {A} (p : A -> bool) (f : A -> A) (tr : Trace A) :
  (forall a, p (f a) = p a) ->
  filter p (map f tr) = map f (filter p tr).
Proof.
  intros Hp. unfold filter, map. induction tr as [|[i a] tr IH]; [reflexivity|].
  simpl. rewrite Hp, IH. destruct (p a); reflexivity.
Qed.

Lemma instants_map {A B} (f : A -> B) (tr : Trace A) :
  List.map fst (map f tr) = List.map fst tr.
Proof.
  unfold map. rewrite List.map_map. apply List.map_ext. reflexivity.
Qed.

Lemma skip_map {A B} (n : nat) (f : A -> B) (tr : Trace A) :
  skip n (map f tr) = map f (skip n tr).
Proof. unfold skip, map. apply skipn_map. Qed.

(** X25: the live gap plays no part in the seekings.  In both versions
    the seekings stream made from the augmented ticks emits at the moments
    the seekings sampler would on the ticks as they came. *)
Theorem seekings_ignore_liveGap (manifest : Manifest) (tr : Trace obj) :
  List.map fst
    (seekings _ (createTimingsAndSeekingsObservables_js getMaximumBufferPosition
                   manifest tr))
  = List.map fst (seekingsSampler tr)
  /\ List.map fst
       (seekings _ (createTimingsAndSeekingsObservables_ts getMaximumBufferPosition
                      manifest tr))
     = List.map fst (seekingsSampler tr).
Proof.
  unfold createTimingsAndSeekingsObservables_js,
    createTimingsAndSeekingsObservables_ts, seekingsSampler, seekingsSampler_ts,
    startWith.
  cbn [seekings List.map fst]. split; f_equal; rewrite !instants_map.
  - rewrite filter_map_same, skip_map, instants_map; [reflexivity|].
    intros a. unfold isTrueSeeking.
    rewrite !get_augmentTiming_js by discriminate. reflexivity.
  - rewrite filter_map_same, skip_map, instants_map; [reflexivity|].
    intros a. unfold isTrueSeeking_ts.
    rewrite !get_augmentTiming_ts by discriminate. reflexivity.
Qed.

End SeekingsAndLiveGap.

(** ** A segment that was added is returned *)

Section AddThenGet.
Import Timeline.
Implicit Types (index : Index) (newSegment : NewSegment)
  (currentSegment : option CurrentSegment) (last : Entry).

(** X26: take a timeline whose elements have positive durations and
    natural repeat counts and do not overlap (each ends, at [ts + (r+1)*d],
    no later than the next one starts), the last one included: it is not
    open-ended.  After [_addSegmentInfos], without a deduction, appended to
    it a segment of positive duration (the call returned true), [getSegments]
    on a window of finite bounds that overlaps the segment returns it, with
    its duration.  It starts at the time given, unless its duration is that
    of the last element: it is then one more repetition of that element, and
    starts where the element ended, which may be before the time given. *)
Theorem addSegmentInfos_append_then_getSegments
  (fuel : nat) (repId : string) index newSegment currentSegment (index1 : Index)
  last (newTime newDuration tq dq rq : Q) (_up _to : num) (upq toq : Q) :
  timelineInvariant (timeline index) ->
  list.last (timeline index) = Some last ->
  isClosed last -> ts last = Fin tq -> d last = Fin dq -> r last = Fin rq ->
  scaledTime index newSegment = Fin newTime ->
  scaledDuration index newSegment = Fin newDuration ->
  (0 < newDuration)%Q ->
  shouldDeductNextSegment index newSegment currentSegment = false ->
  _addSegmentInfos index newSegment currentSegment = Some (true, index1) ->
  normalizeRange index1 _up _to = (Fin upq, Fin toq) ->
  (fuelBound (timeline index1) <= fuel)%nat ->
  let start := if Qeq_bool dq newDuration then (tq + (rq + 1) * dq)%Q else newTime in
  (upq < start + newDuration)%Q -> (start < toq)%Q ->
  (start <= newTime)%Q
  /\ exists segments : list Segment,
       getSegments fuel repId index1 _up _to = Some segments
       /\ exists (s : Segment) (tq' dq' : Q),
            List.In s segments /\ time s = Fin tq' /\ (tq' == start)%Q
            /\ duration s = Some (Fin dq') /\ (dq' == newDuration)%Q.
Proof.
  intros Hinv Hlast Hclosed Hts Hd Hr Ht Hdur Hpos Hmode Hcall Hrange Hfuel.
  destruct (addSegmentInfos_append_invariants index newSegment currentSegment true
              index1 last newTime newDuration Hinv Hlast Hclosed Ht Hdur Hpos Hmode Hcall)
    as [Hinv1 _].
  destruct Hclosed as (tq0 & dq0 & rq0 & rz & Hts0 & Hd0 & Hr0 & Hrq & Hdpos & Hrz).
  rewrite Hts in Hts0. rewrite Hd in Hd0. rewrite Hr in Hr0.
  injection Hts0 as <-. injection Hd0 as <-. injection Hr0 as <-.
  assert (Hend : getTimelineRangeEnd last = Fin (tq + (rq + 1) * dq)).
  { apply getTimelineRangeEnd_closed; assumption. }
  apply last_rev in Hlast as [before Hrev].
  assert (Htl : timeline index = rev before ++ [last]).
  { apply (f_equal (@rev Entry)) in Hrev. rewrite rev_involutive in Hrev.
    exact Hrev. }
  unfold _addSegmentInfos in Hcall. rewrite Hrev, Hmode, Ht, Hdur, Hend in Hcall.
  unfold geb in Hcall. simpl in Hcall.
  destruct (Qle_bool (tq + (rq + 1) * dq) newTime) eqn:Hge; [|discriminate].
  rewrite Hd in Hcall. simpl in Hcall. qprop.
  destruct (Qeq_bool dq newDuration) eqn:Hsame; injection Hcall as <-;
    intros start Hup Hto; unfold start in *; qprop; (split; [lra|]).
  - (* one more repetition of the last element *)
    destruct (getSegments_holds_repetition fuel repId
                (with_timeline index (rev before ++ [bump last])) _up _to upq toq
                (length (rev before)) (bump last) tq dq (rq + 1) (rz + 1))
      as (segments & Hrun & s & tq' & Hin & Htime & Htq' & Hduration);
      try assumption.
    + simpl. apply list_lookup_middle. reflexivity.
    + simpl. rewrite Hr. reflexivity.
    + lia.
    + rewrite inject_Z_plus, Hrq. change (inject_Z 1) with 1%Q. lra.
    + rewrite inject_Z_plus, <- Hrq. change (inject_Z 1) with 1%Q. nra.
    + rewrite inject_Z_plus, <- Hrq. change (inject_Z 1) with 1%Q. lra.
    + exists segments. split; [exact Hrun|]. exists s, tq', dq.
      repeat split; try assumption.
      rewrite Htq', inject_Z_plus, <- Hrq. reflexivity.
  - (* a new element *)
    destruct (getSegments_holds_repetition fuel repId
                (with_timeline index
                   (timeline index ++ [pushed (Fin newDuration) (Fin newTime)]))
                _up _to upq toq (length (timeline index))
                (pushed (Fin newDuration) (Fin newTime)) newTime newDuration (inject_Z 0) 0)
      as (segments & Hrun & s & tq' & Hin & Htime & Htq' & Hduration);
      try assumption; try reflexivity.
    + simpl. apply list_lookup_middle. reflexivity.
    + apply Qle_refl.
    + change (inject_Z 0) with 0%Q. lra.
    + change (inject_Z 0) with 0%Q. lra.
    + exists segments. split; [exact Hrun|]. exists s, tq', newDuration.
      repeat split; try assumption; try reflexivity.
      rewrite Htq'. change (inject_Z 0) with 0%Q. ring.
Qed.

End AddThenGet.

Section AddThenGetExamples.
Import Timeline.

(** X26: a four-second segment given at 5 is appended to the four-second
    element at 0; it is returned as the second repetition, at 4. *)
Lemma addSegmentInfos_append_then_getSegments_witness :
  (4 <= 5)%Q
  /\ exists segments : list Segment,
       getSegments 10 "video" (indexOf 1 [closed 0 4 1]) 4%num 8%num = Some segments
       /\ exists (s : Segment) (tq' dq' : Q),
            List.In s segments /\ time s = Fin tq' /\ (tq' == 4)%Q
            /\ duration s = Some (Fin dq') /\ (dq' == 4)%Q.
Proof.
  apply (addSegmentInfos_append_then_getSegments 10 "video"
           (indexOf 1 [closed 0 4 0]) (newSeg 5 4) None (indexOf 1 [closed 0 4 1])
           (closed 0 4 0) 5 4 0 4 0 4%num 8%num 4 8); try reflexivity.
  - simpl. split; [left; apply isClosed_closed; lia|exact I].
  - apply isClosed_closed; lia.
  - vm_compute. lia.
Defined.

End AddThenGetExamples.

(** ** [getSegments] returns segments of the timeline only *)

Section Soundness.
Import Timeline.
Context (repId : string) (index : Index) (upq toq : Q) (tl : list Entry).

Section Element.
Context (e : Entry) (tsq dq rq rq' : Q).
Context (He : List.In e tl) (Hts : ts e = Fin tsq) (Hd : d e = Fin dq)
  (Hr : r e = Fin rq) (Hrq' : (rq' == rq)%Q).

(** The inner loop pushes repetitions of its element only. *)
Lemma whileBeforeTo_repetitions (fuel : nat) :
  forall (k : Z) (sq : Q) (number : num) (segments : list Segment)
         (exit : Exit) (number' : num) (segments' : list Segment),
    (sq == inject_Z k)%Q -> (0 <= k)%Z ->
    Forall (repetitionOf tl) segments ->
    whileBeforeTo repId index (Fin toq) fuel e (Fin rq') (Fin sq) number segments
    = Some (exit, number', segments') ->
    Forall (repetitionOf tl) segments'.
Proof using He Hts Hd Hr Hrq'.
  induction fuel as [|fuel IH];
    intros k sq number segments exit n' segs' Hsq Hk Hacc H; [discriminate|].
  simpl in H. rewrite Hts, Hd in H. simpl in H.
  destruct (Qltb (tsq + sq * dq) toq) eqn:Hin.
  2:{ injection H as _ _ <-. exact Hacc. }
  destruct (Qle_bool sq rq') eqn:Hrep.
  2:{ injection H as _ _ <-. exact Hacc. }
  qprop.
  apply (IH (k + 1)%Z (sq + 1)%Q _ _ _ _ _) in H; [exact H| |lia|].
  - rewrite inject_Z_plus, Hsq. reflexivity.
  - apply Forall_app. split; [exact Hacc|]. constructor; [|constructor].
    exists e. split; [exact He|]. split; [reflexivity|]. right.
    exists tsq, dq, rq, k, (tsq + sq * dq)%Q.
    repeat split; try assumption.
    + rewrite <- Hsq, <- Hrq'. exact Hrep.
    + rewrite Hsq. reflexivity.
    + simpl. rewrite Hd. reflexivity.
Qed.

End Element.

(** The outer loop, on what is left of a timeline that keeps the
    invariants, pushes segments of the timeline only. *)
Lemma forTimeline_repetitions (fuel : nat) (rest : list Entry) :
  timelineInvariant rest ->
  (forall e, List.In e rest -> List.In e tl) ->
  forall (maxDuration number : num) (segments out : list Segment),
    Forall (repetitionOf tl) segments ->
    forTimeline repId index (Fin upq) (Fin toq) fuel rest maxDuration number
      segments = Some out ->
    Forall (repetitionOf tl) out.
Proof.
  induction rest as [|e rest' IH];
    intros Hinv Hsub maxD number segments out Hacc.
  - intros [= <-]. exact Hacc.
  - assert (Hin : List.In e tl) by (apply Hsub; left; reflexivity).
    assert (Hsub' : forall e', List.In e' rest' -> List.In e' tl).
    { intros e' He'. apply Hsub. right. exact He'. }
    destruct Hinv as [He Hinv'].
    assert (Hcase : isClosed e \/ (isOpen e /\ rest' = [])).
    { destruct rest'; [destruct He; auto|left; apply He]. }
    destruct Hcase as [(tsq & dq & rq & rz & Hts & Hd & Hr & Hrq & Hdpos & Hrz)
                      |[Hopen ->]].
    + (* a closed element *)
      simpl. rewrite Hd. simpl.
      assert (Hneg : Qltb dq 0 = false) by (qprop; lra).
      rewrite Hneg.
      destruct (getRepeat_closed e (head rest') rq rz Hr Hrq Hrz)
        as (rq' & Hrep & Hrq').
      rewrite Hrep, <- Hd, Hts, Hd.
      destruct (getSegmentNumber_bounds upq tsq dq Hdpos) as (k0 & Hn & Hk0 & _).
      rewrite Hn. unfold gtb, of_Z. simpl.
      destruct (Qltb rq' (inject_Z k0)).
      * intros Hrun. exact (IH Hinv' Hsub' _ _ _ _ Hacc Hrun).
      * match goal with
        | |- context [whileBeforeTo ?a ?b ?c ?f ?g ?h ?i ?j ?k] =>
            destruct (whileBeforeTo a b c f g h i j k) as [[[exit n'] segs']|] eqn:Hw
        end; [|discriminate].
        assert (Hacc' : Forall (repetitionOf tl) segs').
        { apply (whileBeforeTo_repetitions e tsq dq rq rq' Hin Hts Hd Hr
                   ltac:(rewrite Hrq', Hrq; reflexivity) fuel k0 (inject_Z k0)
                   _ _ _ _ _ ltac:(reflexivity) Hk0 Hacc Hw). }
        destruct exit.
        -- intros [= <-]. exact Hacc'.
        -- intros Hrun. exact (IH Hinv' Hsub' _ _ _ _ Hacc' Hrun).
    + (* the open-ended last element *)
      pose proof Hopen as (tsq & dq & Hts & Hd & Hdq).
      simpl. rewrite Hd, Hts.
      assert (Hneg : (Fin dq <? 0)%num = true) by (simpl; qprop; lra).
      rewrite Hneg.
      destruct (_ <? Fin toq)%num; intros [= <-]; [|exact Hacc].
      apply Forall_app. split; [exact Hacc|]. constructor; [|constructor].
      exists e. split; [exact Hin|]. split; [reflexivity|]. left.
      repeat split; [exact Hopen].
Qed.

End Soundness.

Section SoundnessTop.
Import Timeline.

(** X27: on a timeline that keeps the invariants, with fuel for its
    largest repeat count, [getSegments] invents nothing: every segment it
    returns stands for an element of the timeline, of which it has the byte
    range: either it has the duration of the element and starts at
    [ts + k*d] for a repetition [k] from 0 to the repeat count, or it has no
    duration and starts where an open-ended element does. *)
Theorem getSegments_returns_repetitions
  (fuel : nat) (repId : string) (index : Index) (_up _to : num) (upq toq : Q) :
  timelineInvariant (timeline index) ->
  normalizeRange index _up _to = (Fin upq, Fin toq) ->
  (fuelBound (timeline index) <= fuel)%nat ->
  exists segments : list Segment,
    getSegments fuel repId index _up _to = Some segments
    /\ Forall (repetitionOf (timeline index)) segments.
Proof.
  intros Hinv Hrange Hfuel.
  destruct (maxEntryDuration_bounds (timeline index) Hinv) as (M & HM & HMpos & HMall).
  unfold getSegments. rewrite Hrange.
  set (i0 := getSegmentIndex index (Fin upq)).
  destruct (forTimeline_closed repId index upq toq M fuel (drop i0 (timeline index))
              (initialMaxDuration (timeline index))
              (match startNumber index with Some n => n | None => 0 end - 1)%num [])
    as (out & Hrun & _).
  { apply timelineInvariant_drop, Hinv. }
  { apply Forall_drop, HMall. }
  { pose proof (fuelBound_drop i0 (timeline index)). lia. }
  { repeat split; constructor. }
  exists out. split; [exact Hrun|].
  apply (forTimeline_repetitions repId index upq toq (timeline index) fuel
           (drop i0 (timeline index)) (timelineInvariant_drop i0 _ Hinv))
    with (3 := Hrun); [|constructor].
  intros e He. rewrite <- (take_drop i0 (timeline index)).
  apply in_or_app. right. exact He.
Qed.

End SoundnessTop.

Section SoundnessExamples.
Import Timeline.

(** X27 on the timeline of three four-second segments, two three-second
    ones and an open-ended element, asked for [[5, 30)]. *)
Lemma getSegments_returns_repetitions_witness :
  exists segments : list Segment,
    getSegments 10 "video" mixedIndex 5%num 30%num = Some segments
    /\ Forall (repetitionOf (timeline mixedIndex)) segments.
Proof.
  apply (getSegments_returns_repetitions 10 "video" mixedIndex 5%num 30%num 5 30).
  - exact mixedIndex_invariant.
  - reflexivity.
  - vm_compute. lia.
Defined.

End SoundnessExamples.
